(** * allyourbase: base-address recovery by modular correlation

    A shallow embedding of [allyourbase.py] and the properties of its
    pipeline: string location, pointer scanning, construction of the
    coprime modulus list, per-modulus correlation, reconstruction by the
    Chinese remainder theorem and the final interpretation of the result.

    Conventions of the embedding:
    - Python [int] is [Z]; [//] and [%] are [Z.div] and [Z.modulo] (both
      languages round towards minus infinity), with the exception Python
      raises on a zero divisor written out;
    - [bytes] is [list byte]; [set[int]] is [gset Z], and a [for] loop over a
      set runs over an enumeration of it;
    - Python [float] is IEEE 754 binary64, the [spec_float] of the Standard
      Library with 53 digits and the exponent bound 1024; the conversions
      between [int] and [float] raise as those of the interpreter do;
    - exceptions are values of [res]; the one unbounded loop takes fuel. *)

From Stdlib Require Import ZArith Znumtheory QArith Lqa Lia.
From Stdlib Require Import SpecFloat.
From Stdlib.Strings Require Import Byte.
From Stdlib Require Import DecimalString HexadecimalString.
From stdpp Require Import base list sorting gmap sets strings.
Close Scope Q_scope.
Open Scope Z_scope.

(** ** Exceptions *)

Inductive exn : Type :=
| ValueError
| ZeroDivisionError
| OverflowError
| IndexError.

Inductive res (A : Type) : Type :=
| Ret (a : A)
| Exc (e : exn).
Arguments Ret {A} a.
Arguments Exc {A} e.

#[global] Instance res_ret : MRet res := fun _ a => Ret a.
#[global] Instance res_bind : MBind res := fun _ _ f m =>
  match m with
  | Ret a => f a
  | Exc e => Exc e
  end.

(** [a // b] and [a % b] on Python integers. *)
Definition floordiv (a b : Z) : res Z :=
  if b =? 0 then Exc ZeroDivisionError else Ret (a / b).

Definition pymod (a b : Z) : res Z :=
  if b =? 0 then Exc ZeroDivisionError else Ret (a mod b).

(** [math.prod] and the builtin [sum]. *)
Definition math_prod (l : list Z) : Z := foldl Z.mul 1 l.
Definition py_sum (l : list Z) : Z := foldl Z.add 0 l.

(** ** The builtin [pow(x, -1, p)]

    The interpreter computes the inverse with the extended Euclidean
    algorithm on [(x, |p|)]: the pair [(a, n)] is replaced by
    [(n, a mod n)] until [n = 0], carrying the coefficients [(b, c)];
    the base is invertible exactly when the last [a] is [1]. The second
    component of the state strictly decreases, so [S (Z.to_nat n)] rounds
    are enough. *)
Fixpoint long_invmod_loop (fuel : nat) (a n b c : Z) : res Z :=
  if n =? 0 then (if a =? 1 then Ret b else Exc ValueError)
  else match fuel with
       | O => Exc ValueError
       | S fuel' =>
           let q := a / n in
           let r := a mod n in
           long_invmod_loop fuel' n r c (b - q * c)
       end.

Definition long_invmod (a n : Z) : res Z :=
  long_invmod_loop (S (Z.to_nat n)) a n 1 0.

(** A zero modulus is refused, modulus [1] or [-1] gives [0], and the
    result takes the sign of the modulus. *)
Definition pow_neg1 (x p : Z) : res Z :=
  if p =? 0 then Exc ValueError
  else
    let c := Z.abs p in
    if c =? 1 then Ret 0
    else
      a ← long_invmod x c;
      let r := a mod c in
      Ret (if (p <? 0) && negb (r =? 0) then r - c else r).

(** ** Chinese remainder step of [find_max_overlap] (lines 83-87) *)

Definition crt_term (M : Z) (po : Z * Z) : res Z :=
  let '(p, offset) := po in
  q ← floordiv M p;
  i ← pow_neg1 q p;
  Ret (offset * q * i).

Definition crt (modulos offsets : list Z) : res Z :=
  let M := math_prod modulos in
  terms ← mapM (crt_term M) (zip modulos offsets);
  pymod (py_sum terms) M.

(** Pairwise coprimality of a list of moduli. *)
Fixpoint pairwise_coprime (l : list Z) : Prop :=
  match l with
  | [] => True
  | p :: l' => Forall (fun q => Z.gcd p q = 1) l' ∧ pairwise_coprime l'
  end.

(** [k] has residue [o] modulo [p], for each modulus with its offset. *)
Definition congruent_all (k : Z) (modulos offsets : list Z) : Prop :=
  Forall2 (fun p o => k mod p = o mod p) modulos offsets.

(** ** Modulus Set Builder: [find_coprime_numbers] (lines 39-56)

    The [while] loop on the state [(i, product, coprimes)]. Nothing in the
    source bounds the number of rounds, so the loop takes fuel and answers
    [None] when it runs out. *)
Fixpoint coprime_loop (fuel : nat) (m i product : Z) (coprimes : list Z)
  : option (list Z) :=
  if product <=? m then
    match fuel with
    | O => None
    | S fuel' =>
        if Z.gcd i product =? 1
        then coprime_loop fuel' m (i + 2) (product * i) (coprimes ++ [i])
        else coprime_loop fuel' m (i + 2) product coprimes
    end
  else Some coprimes.

Definition first_candidate (n : Z) : Z := n + 1 + n mod 2.

Definition find_coprime_numbers (fuel : nat) (n m : Z) : option (list Z) :=
  let i := first_candidate n in
  coprime_loop fuel m (i + 2) i [i].

Definition odd (x : Z) : Prop := x mod 2 = 1.
Definition strictly_increasing (l : list Z) : Prop := StronglySorted Z.lt l.

(** What the loop of [find_coprime_numbers] maintains. *)
Record loop_inv (n m i product : Z) (coprimes : list Z) : Prop := {
  inv_product : math_prod coprimes = product;
  inv_head : ∃ rest, coprimes = first_candidate n :: rest;
  inv_sorted : strictly_increasing coprimes;
  inv_below : Forall (fun x => x < i) coprimes;
  inv_odd : Forall odd coprimes;
  inv_next_odd : odd i;
  inv_above : Forall (fun x => n < x) coprimes;
  inv_coprime : pairwise_coprime coprimes;
  inv_prefix : 1 ≤ m → math_prod (removelast coprimes) ≤ m
}.

(** What the caller of [find_coprime_numbers] receives. *)
Record coprimes_post (n m : Z) (l : list Z) : Prop := {
  post_head : ∃ rest, l = first_candidate n :: rest;
  post_sorted : strictly_increasing l;
  post_odd : Forall odd l;
  post_above : Forall (fun x => n < x) l;
  post_coprime : pairwise_coprime l;
  post_product : m < math_prod l;
  post_prefix : 1 ≤ m → math_prod (removelast l) ≤ m
}.

(** ** Bytes *)

Definition len {A} (l : list A) : Z := Z.of_nat (length l).

Definition byte_val (x : byte) : Z := Z.of_N (Byte.to_N x).

(** The slice [b[i:j]]: a negative index counts from the end, and both
    ends are clamped to the sequence. *)
Definition slice_index (L i : Z) : Z :=
  if i <? 0 then Z.max 0 (i + L) else Z.min i L.

Definition py_slice {A} (b : list A) (i j : Z) : list A :=
  let s := slice_index (len b) i in
  let e := slice_index (len b) j in
  take (Z.to_nat (e - s)) (drop (Z.to_nat s) b).

(** [int.from_bytes(bs, byteorder=...)], unsigned. *)
Inductive byteorder : Type := little | big.

Fixpoint from_little (bs : list byte) : Z :=
  match bs with
  | [] => 0
  | x :: rest => byte_val x + 256 * from_little rest
  end.

Definition int_from_bytes (bs : list byte) (endian : byteorder) : Z :=
  match endian with
  | little => from_little bs
  | big => from_little (rev bs)
  end.

(** [range(0, stop, step)]. *)
Definition py_range (stop step : Z) : res (list Z) :=
  if step =? 0 then Exc ValueError
  else if 0 <? step
       then Ret ((fun j => j * step) <$> seqZ 0 ((stop + step - 1) / step))
       else Ret ((fun j => j * step) <$> seqZ 0 ((- stop - step - 1) / - step)).

(** ** String Locator: [get_string_addresses] (lines 10-23)

    The fragment of the pattern language the source uses, with the
    matching discipline of the [re] module: alternatives are tried in
    order, a repetition is greedy and gives iterations back one at a time,
    and the first way of matching that succeeds is the match. [rmatch r s k]
    matches [r] at the start of [s] and hands the rest of the input to the
    continuation [k]. An iteration of a repetition must consume input, so
    a repetition on [s] has at most [length s] iterations. *)
Inductive regex : Type :=
| RSet (ranges : list (Z * Z))
| RLit (c : byte)
| RCat (r1 r2 : regex)
| RAlt (r1 r2 : regex)
| RAtLeast (r : regex) (lo : nat).

Definition in_ranges (ranges : list (Z * Z)) (c : byte) : bool :=
  existsb (fun '(lo, hi) => (lo <=? byte_val c) && (byte_val c <=? hi)) ranges.

Fixpoint repeat_greedy (step : list byte → (list byte → option (list byte))
                               → option (list byte))
    (k : list byte → option (list byte))
    (fuel lo : nat) (s : list byte) {struct fuel} : option (list byte) :=
  let stop := match lo with O => k s | S _ => None end in
  match fuel with
  | O => stop
  | S fuel' =>
      match step s (fun s' =>
              if (length s' <? length s)%nat
              then repeat_greedy step k fuel' (pred lo) s' else None) with
      | Some e => Some e
      | None => stop
      end
  end.

Fixpoint rmatch (r : regex) (s : list byte)
    (k : list byte → option (list byte)) {struct r} : option (list byte) :=
  match r with
  | RSet ranges =>
      match s with
      | c :: s' => if in_ranges ranges c then k s' else None
      | [] => None
      end
  | RLit c =>
      match s with
      | c' :: s' => if byte_val c' =? byte_val c then k s' else None
      | [] => None
      end
  | RCat r1 r2 => rmatch r1 s (fun s' => rmatch r2 s' k)
  | RAlt r1 r2 =>
      match rmatch r1 s k with
      | Some e => Some e
      | None => rmatch r2 s k
      end
  | RAtLeast r' lo => repeat_greedy (rmatch r') k (S (length s)) lo s
  end.

(** [r{n}] for [n ≥ 1]. *)
Fixpoint rtimes (r : regex) (n : nat) : regex :=
  match n with
  | O | 1%nat => r
  | S n' => RCat r (rtimes r n')
  end.

Definition rliteral (bs : list byte) (tail : regex) : regex :=
  foldr (fun c r => RCat (RLit c) r) tail bs.

(** One code point: a printable ASCII byte, or a lead byte followed by the
    continuation bytes its range calls for. *)
Definition continuation : regex := RSet [(0x80, 0xBF)].

Definition code_point : regex :=
  RAlt (RSet [(0x0A, 0x0A); (0x0D, 0x0D); (0x09, 0x09); (0x0C, 0x0C);
              (0x20, 0x7E); (0x0A, 0x0A)])
 (RAlt (RCat (RSet [(0xC2, 0xDF)]) continuation)
 (RAlt (RCat (RSet [(0xE0, 0xEF)]) (rtimes continuation 2))
       (RCat (RSet [(0xF0, 0xF4)]) (rtimes continuation 3)))).

(** The largest repetition count the pattern compiler accepts. *)
Definition MAXREPEAT : Z := 4294967295.

(** The pattern is assembled from text, the count written in decimal
    between braces. A negative count does not read as a repetition: the
    compiler then takes the brace and what follows as literal bytes. *)
Definition string_regex (n : Z) : res regex :=
  if n <? 0 then
    let text := String.list_byte_of_string
                  ("{" ++ DecimalString.NilZero.string_of_int (Z.to_int n) ++ ",}") in
    Ret (RCat code_point (rliteral text (RLit x00)))
  else if MAXREPEAT <=? n then Exc OverflowError
  else Ret (RCat (RAtLeast code_point (Z.to_nat n)) (RLit x00)).

(** [re.finditer]: try every position from the left; after a match, go on
    from its end. The result is the list of [m.start()]. *)
Fixpoint finditer (fuel : nat) (r : regex) (pos : Z) (s : list byte) : list Z :=
  match fuel with
  | O => []
  | S fuel' =>
      match rmatch r s Some with
      | Some rest =>
          let consumed := len s - len rest in
          if consumed =? 0 then
            pos :: match s with
                   | [] => []
                   | _ :: s' => finditer fuel' r (pos + 1) s'
                   end
          else pos :: finditer fuel' r (pos + consumed) rest
      | None =>
          match s with
          | [] => []
          | _ :: s' => finditer fuel' r (pos + 1) s'
          end
      end
  end.

Definition get_string_addresses (b : list byte) (n : Z) : res (gset Z) :=
  r ← string_regex n;
  Ret (list_to_set (finditer (S (length b)) r 0 b)).

(** ** Pointer Scanner: [get_pointed_addresses] (lines 26-36)

    [scan] is the body of the loop, run over a list of start offsets. *)
Definition scan (b : list byte) (endian : byteorder) (length : Z)
    (offsets : list Z) : gset Z :=
  foldl (fun pointed_addresses i =>
           let offset_bytes := py_slice b i (i + length) in
           let offset := int_from_bytes offset_bytes endian in
           pointed_addresses ∪ {[ offset ]})
        ∅ offsets.

Definition get_pointed_addresses (b : list byte) (endian : byteorder)
    (length align : Z) : res (gset Z) :=
  offsets ← py_range (len b - length + 1) align;
  Ret (scan b endian length offsets).

(** ** Floating point

    A Python [float] is an IEEE 754 binary64 number: 53 digits of
    mantissa, exponents up to 1024, every operation rounded to nearest
    with ties to even. *)
Definition prec : Z := 53.
Definition emax : Z := 1024.
Definition float : Type := spec_float.

(** The float nearest to [m * 2**e]; [float_lit 1 0] is [1.0]. *)
Definition float_lit (m e : Z) : float := binary_normalize prec emax m e false.

(** An [int] met by a [float] in arithmetic is converted to the nearest
    float; one that rounds beyond the largest float raises. *)
Definition float_of_int (a : Z) : res float :=
  match binary_normalize prec emax a 0 false with
  | S754_infinity _ => Exc OverflowError
  | x => Ret x
  end.

(** The least integer that has no float: halfway between the largest
    float and [2**1024]. *)
Definition FLOAT_LIMIT : Z := 2 ^ 1024 - 2 ^ 970.

(** [x / y]. *)
Definition float_div (x y : float) : res float :=
  match y with
  | S754_zero _ => Exc ZeroDivisionError
  | _ => Ret (SFdiv prec emax x y)
  end.

(** The builtin [min(x, y)]: [y] when [y < x], else [x]. *)
Definition float_min (x y : float) : float :=
  if SFltb y x then y else x.

(** [int(x)] truncates towards zero and refuses what is not finite. *)
Definition int_of_float (x : float) : res Z :=
  match x with
  | S754_nan => Exc ValueError
  | S754_infinity _ => Exc OverflowError
  | S754_zero _ => Ret 0
  | S754_finite s m e =>
      Ret (cond_Zopp s (if 0 <=? e then Z.pos m * 2 ^ e
                        else Z.pos m / 2 ^ (- e)))
  end.

(** [2.0 ** k] for an integer [k < 0]: exact down to the smallest
    subnormal [2**-1074], zero below. *)
Definition float_pow2 (k : Z) : float :=
  if k <? -1075 then S754_zero false else float_lit 1 k.

(** A number: neither infinite nor [nan]. *)
Definition finite (x : float) : Prop :=
  match x with
  | S754_zero _ | S754_finite _ _ _ => True
  | _ => False
  end.

(** Neither a negative number nor minus infinity. *)
Definition not_negative (x : float) : Prop :=
  match x with
  | S754_finite true _ _ | S754_infinity true => False
  | _ => True
  end.

(** The place of a remainder [rest] of [n] digits: none, below, at or
    above the middle of the two neighbours. *)
Definition loc_of (rest n : Z) : location :=
  if rest =? 0 then loc_Exact else loc_Inexact (2 * rest ?= 2 ^ n).

(** [mrs] is [m0] shifted right by [n] digits, with the place of the
    digits shifted out. *)
Definition shifted (m0 n : Z) (mrs : shr_record) : Prop :=
  0 ≤ shr_m mrs
  ∧ ∃ rest, m0 = shr_m mrs * 2 ^ n + rest ∧ 0 ≤ rest < 2 ^ n
            ∧ loc_of_shr_record mrs = loc_of rest n.

(** ** Correlation Engine: the loop of [find_max_overlap] (lines 67-78)

    An array of [np.float64] counters is a list of integers: every entry
    is a count, which the format holds exactly. *)
Definition np_zeros (p : Z) : res (list Z) :=
  if p <? 0 then Exc ValueError else Ret (replicate (Z.to_nat p) 0).

Definition item (a : list Z) (i : Z) : Z := default 0 (a !! Z.to_nat i).

(** [a[idx] += 1]; a negative index counts from the end of the array. *)
Definition increment (a : list Z) (idx : Z) : res (list Z) :=
  let j := if idx <? 0 then idx + len a else idx in
  if (0 <=? j) && (j <? len a)
  then Ret (<[Z.to_nat j := item a j + 1]> a)
  else Exc IndexError.

(** A [for] loop whose body may raise, over the elements in order. *)
Fixpoint for_each {A S} (body : S → A → res S) (s : S) (l : list A) : res S :=
  match l with
  | [] => Ret s
  | x :: l' => s' ← body s x; for_each body s' l'
  end.

(** [np.fft.ifft(np.fft.fft(a) * np.fft.fft(b)).real] is the circular
    convolution of [a] and [b] (the convolution theorem the source cites);
    the embedding takes it in exact arithmetic, entry [j] being the sum of
    [a[i] * b[(j - i) mod p]]. The rounding of the transform, which decides
    between entries that tie, is left out here; [fft_convolve_rounded]
    below puts the rounding back. The transform refuses an empty array. *)
Definition circular_convolution (a b : list Z) : list Z :=
  let p := len a in
  (fun j => py_sum ((fun i => item a i * item b ((j - i) mod p)) <$> seqZ 0 p))
    <$> seqZ 0 p.

Definition fft_convolve (a b : list Z) : res (list Z) :=
  if len a =? 0 then Exc ValueError else Ret (circular_convolution a b).

(** [np.argmax]: the first index holding the maximum. *)
Fixpoint argmax_from (best_i best i : Z) (l : list Z) : Z :=
  match l with
  | [] => best_i
  | x :: l' =>
      if best <? x then argmax_from i x (i + 1) l'
      else argmax_from best_i best (i + 1) l'
  end.

Definition argmax (l : list Z) : Z :=
  match l with
  | [] => 0
  | x :: l' => argmax_from 0 x 1 l'
  end.

(** One round of the loop, for the modulus [p]. [order] enumerates a set
    in the order the interpreter iterates over it. *)
Definition local_offset (order : gset Z → list Z) (A B : gset Z) (p : Z)
  : res Z :=
  a ← np_zeros p;
  b ← np_zeros p;
  a ← for_each (fun a x => r ← pymod x p; increment a r) a (order A);
  b ← for_each (fun b x => r ← pymod x p; increment b (- r)) b (order B);
  corr ← fft_convolve a b;
  Ret (argmax corr).

Definition local_offsets (order : gset Z → list Z) (A B : gset Z)
    (modulos : list Z) : res (list Z) :=
  mapM (local_offset order A B) modulos.

(** [find_max_overlap] (lines 59-87); the progress counter written to the
    error stream is not part of the result and is left out. *)
Definition find_max_overlap (order : gset Z → list Z) (A B : gset Z)
    (modulos : list Z) : res Z :=
  offsets ← local_offsets order A B modulos;
  crt modulos offsets.

(** The transform as the machine computes it. The three transforms run in
    floating point, so that entry [j] of the result is the exact count off
    by a rounding error [err j]; the entries are floats, here rationals.
    [np.argmax] then runs on the rounded array. *)
Definition fft_convolve_rounded (err : Z → Q) (a b : list Z) : res (list Q) :=
  if len a =? 0 then Exc ValueError
  else Ret (zip_with (fun c j => (inject_Z c + err j)%Q)
              (circular_convolution a b) (seqZ 0 (len a))).

Definition item_Q (a : list Q) (i : Z) : Q := default 0%Q (a !! Z.to_nat i).

Fixpoint argmax_from_Q (best_i : Z) (best : Q) (i : Z) (l : list Q) : Z :=
  match l with
  | [] => best_i
  | x :: l' =>
      if negb (Qle_bool x best) then argmax_from_Q i x (i + 1) l'
      else argmax_from_Q best_i best (i + 1) l'
  end.

Definition argmax_Q (l : list Q) : Z :=
  match l with
  | [] => 0
  | x :: l' => argmax_from_Q 0 x 1 l'
  end.

Definition local_offset_rounded (err : Z → Q) (order : gset Z → list Z)
    (A B : gset Z) (p : Z) : res Z :=
  a ← np_zeros p;
  b ← np_zeros p;
  a ← for_each (fun a x => r ← pymod x p; increment a r) a (order A);
  b ← for_each (fun b x => r ← pymod x p; increment b (- r)) b (order B);
  corr ← fft_convolve_rounded err a b;
  Ret (argmax_Q corr).

(** The whole of [find_max_overlap] with the rounding of each transform:
    [err p] is the error of the round on the modulus [p]. *)
Definition local_offsets_rounded (err : Z → Z → Q) (order : gset Z → list Z)
    (A B : gset Z) (modulos : list Z) : res (list Z) :=
  mapM (fun p => local_offset_rounded (err p) order A B p) modulos.

Definition find_max_overlap_rounded (err : Z → Z → Q)
    (order : gset Z → list Z) (A B : gset Z) (modulos : list Z) : res Z :=
  offsets ← local_offsets_rounded err order A B modulos;
  crt modulos offsets.

(** An enumeration is admissible when it lists each set once. *)
Definition enumerates (order : gset Z → list Z) : Prop :=
  ∀ X, order X ≡ₚ elements X.

(** ** The program (lines 90-128) *)

Record Args : Type := {
  arg_n : Z;             (* -n, default 5 *)
  arg_l : Z;             (* -l, default 8 *)
  arg_e : string;        (* -e, default little *)
  arg_a : option Z;      (* -a *)
  arg_f : option float   (* -f *)
}.

Definition default_args : Args :=
  {| arg_n := 5; arg_l := 8; arg_e := "little"; arg_a := None; arg_f := None |}.

(** The argument parser accepts two spellings for [-e] and exits with a
    usage error on any other. *)
Definition parse_endian (e : string) : option byteorder :=
  if decide (e = "little") then Some little
  else if decide (e = "big") then Some big
  else None.

(** The default slack factor [min(1.0, 16.0 / a)] (line 111): the
    alignment is converted to a float, and the division refuses zero. *)
Definition default_slack (a : Z) : res float :=
  x ← float_of_int a;
  q ← float_div (float_lit 16 0) x;
  Ret (float_min (float_lit 1 0) q).

(** [int(len(b) * f)], the lower bound of the moduli (line 119). *)
Definition lower_bound (L : Z) (f : float) : res Z :=
  x ← float_of_int L;
  int_of_float (SFmul prec emax x f).

(** [2**(l*8) + len(b)] as the bound of [product <= m] (line 119). With a
    negative width the power is a float, [2.0 ** float(l*8)], the
    conversion of the exponent raising when it has no float, and so is the
    sum [m] with the length. The sum is finite and not negative, and an
    integer is at most [m] exactly when it is at most the integer part of
    [m], which is the bound the loop is given. *)
Definition upper_bound (l L : Z) : res Z :=
  if 0 <=? l then Ret (2 ^ (l * 8) + L)
  else
    float_of_int (l * 8) ≫= fun _ =>
    x ← float_of_int L;
    int_of_float (SFadd prec emax (float_pow2 (l * 8)) x).

(** [k < 2**e]. With a negative exponent the power is a float: positive
    and below 1 down to the smallest subnormal [2**-1074], zero beyond. *)
Definition lt_pow2 (k e : Z) : bool :=
  if 0 <=? e then k <? 2 ^ e
  else if e <? -1074 then k <? 0
  else k <=? 0.

Inductive report : Type :=
| OffsetNegative (negative_offset : Z)   (* Offset: -0x...  *)
| OffsetPositive (offset : Z)            (* Offset: 0x...   *)
| NotFound.                              (* Offset: not found *)

(** Lines 122-128. *)
Definition interpret (M offset L l : Z) : report :=
  let negative_offset := M - offset in
  if negative_offset <? L then OffsetNegative negative_offset
  else if lt_pow2 offset (l * 8) then OffsetPositive offset
  else NotFound.

(** The format [:#x]. *)
Definition hex (x : Z) : string :=
  (if x <? 0 then "-" else "") ++ "0x"
  ++ HexadecimalString.NilZero.string_of_uint (N.to_hex_uint (Z.to_N (Z.abs x))).

Definition render (r : report) : string :=
  match r with
  | OffsetNegative v => "Offset: -" ++ hex v
  | OffsetPositive v => "Offset: " ++ hex v
  | NotFound => "Offset: not found"
  end.

(** What a run leaves behind: the line [Found k strings] on the error
    stream once the strings are extracted, and how the run ends. *)
Inductive event : Type :=
| FoundStrings (count : nat).

Inductive outcome : Type :=
| UsageError                                   (* the parser exits, nothing is read *)
| Raised (log : list event) (e : exn)          (* an uncaught exception *)
| Looping (log : list event)                   (* still building the moduli *)
| Printed (log : list event) (r : report).

(** Lines 105-111: the alignment defaults to the pointer length, the slack
    factor to a value computed from the alignment. *)
Definition alignment (args : Args) : Z := default (arg_l args) (arg_a args).

Definition slack (args : Args) : res float :=
  match arg_f args with
  | Some f => Ret f
  | None => default_slack (alignment args)
  end.

Definition main (order : gset Z → list Z) (fuel : nat) (args : Args)
    (b : list byte) : outcome :=
  match parse_endian (arg_e args) with
  | None => UsageError
  | Some endian =>
      match slack args with
      | Exc e => Raised [] e
      | Ret f =>
          match get_string_addresses b (arg_n args) with
          | Exc e => Raised [] e
          | Ret strings =>
              let log := [FoundStrings (size strings)] in
              match get_pointed_addresses b endian (arg_l args)
                      (alignment args) with
              | Exc e => Raised log e
              | Ret pointers =>
                  match lower_bound (len b) f with
                  | Exc e => Raised log e
                  | Ret n =>
                      match upper_bound (arg_l args) (len b) with
                      | Exc e => Raised log e
                      | Ret m =>
                          match find_coprime_numbers fuel n m with
                          | None => Looping log
                          | Some modulos =>
                              match find_max_overlap order pointers strings
                                      modulos with
                              | Exc e => Raised log e
                              | Ret offset =>
                                  Printed log
                                    (interpret (math_prod modulos) offset
                                               (len b) (arg_l args))
                              end
                          end
                      end
                  end
              end
          end
      end
  end.

(** The error stream of a run, and whether the strings were extracted. *)
Definition stderr (o : outcome) : list event :=
  match o with
  | UsageError => []
  | Raised log _ | Looping log | Printed log _ => log
  end.

Definition extracted (o : outcome) : Prop := ∃ count, FoundStrings count ∈ stderr o.

Definition finished (o : outcome) : Prop :=
  match o with
  | Looping _ => False
  | _ => True
  end.

(** First index of the maximum among the first [n] entries. *)
Definition first_max (l : list Z) (n r : Z) : Prop :=
  0 ≤ r < n
  ∧ (∀ j, 0 ≤ j < n → item l j ≤ item l r)
  ∧ (∀ j, 0 ≤ j < r → item l j < item l r).

(** An index of the maximum among the first [n] entries of a rounded
    array. *)
Definition is_max_Q (l : list Q) (n r : Z) : Prop :=
  0 ≤ r < n ∧ ∀ j, 0 ≤ j < n → (item_Q l j <= item_Q l r)%Q.

(** Number of elements of [xs] that [key] sends to the residue [i]. *)
Definition count_key (key : Z → Z) (xs : list Z) (i : Z) : Z :=
  len (filter (fun x => key x = i) xs).

(** Number of pairs [(x, y)] of the two samples with [x - y] congruent to
    [j] modulo [p]: what entry [j] of the correlation counts. *)
Definition hit (p z : Z) : Z := if decide (z mod p = 0) then 1 else 0.

Definition overlap (p : Z) (xs ys : list Z) (j : Z) : Z :=
  py_sum ((fun x => py_sum ((fun y => hit p (x - y - j)) <$> ys)) <$> xs).

(** The moduli at which the three strings of the synthetic test, 40 apart,
    fall on residues invariant under a shift: the multiples of 3 that
    divide 120. *)
Definition tying_moduli : list Z := [3; 6; 12; 15; 24; 30; 60; 120].

(** The run reaches the last stage with the moduli [modulos] and the
    result [k] of [find_max_overlap]. *)
Definition reconstructs (order : gset Z → list Z) (fuel : nat) (args : Args)
    (b : list byte) (modulos : list Z) (k : Z) : Prop :=
  ∃ endian f strings pointers n m,
    parse_endian (arg_e args) = Some endian
    ∧ slack args = Ret f
    ∧ get_string_addresses b (arg_n args) = Ret strings
    ∧ get_pointed_addresses b endian (arg_l args) (alignment args) = Ret pointers
    ∧ lower_bound (len b) f = Ret n
    ∧ upper_bound (arg_l args) (len b) = Ret m
    ∧ find_coprime_numbers fuel n m = Some modulos
    ∧ find_max_overlap order pointers strings modulos = Ret k.

(** A small image used to exercise the pipeline: three strings [ab], [cd],
    [ef] at offsets 1, 5 and 9, each preceded by a one-byte pointer to it
    under the base address [0x80]. *)
Definition sample_blob : list byte :=
  [x81; x61; x62; x00; x85; x63; x64; x00; x89; x65; x66; x00].

Definition sample_args : Args :=
  {| arg_n := 2; arg_l := 1; arg_e := "big"; arg_a := Some 4; arg_f := None |}.

(** The words a pattern denotes: what a match may consume, order and
    greed set aside. *)
#[warnings="-register-all"]
Inductive matches : regex → list byte → Prop :=
| matches_set ranges c :
    in_ranges ranges c = true → matches (RSet ranges) [c]
| matches_lit c c' :
    byte_val c' = byte_val c → matches (RLit c) [c']
| matches_cat r1 r2 u v :
    matches r1 u → matches r2 v → matches (RCat r1 r2) (u ++ v)
| matches_alt_l r1 r2 u : matches r1 u → matches (RAlt r1 r2) u
| matches_alt_r r1 r2 u : matches r2 u → matches (RAlt r1 r2) u
| matches_at_least r lo us :
    Forall (matches r) us → (lo ≤ length us)%nat →
    matches (RAtLeast r lo) (concat us).

(** The first alternative of the pattern: [[\n\r\t\f\x20-\x7E]]. *)
Definition printable_ascii (c : byte) : Prop :=
  0x20 ≤ byte_val c ≤ 0x7E
  ∨ byte_val c = 0x09 ∨ byte_val c = 0x0A
  ∨ byte_val c = 0x0C ∨ byte_val c = 0x0D.

(* ================================================================= *)
(** * Properties *)

Section Arithmetic.

Lemma foldl_mul_acc acc l : foldl Z.mul acc l = acc * foldl Z.mul 1 l.
Proof.
  revert acc. induction l as [|x l IH]; intros acc; simpl; [lia|].
  rewrite (IH (acc * x)), (IH (1 * x)). lia.
Qed.

Lemma foldl_add_acc acc l : foldl Z.add acc l = acc + foldl Z.add 0 l.
Proof.
  revert acc. induction l as [|x l IH]; intros acc; simpl; [lia|].
  rewrite (IH (acc + x)), (IH (0 + x)). lia.
Qed.

Lemma math_prod_cons p l : math_prod (p :: l) = p * math_prod l.
Proof. unfold math_prod. simpl. rewrite foldl_mul_acc. lia. Qed.

Lemma math_prod_app l1 l2 : math_prod (l1 ++ l2) = math_prod l1 * math_prod l2.
Proof.
  induction l1 as [|x l1 IH]; simpl.
  - unfold math_prod at 2. simpl. lia.
  - rewrite !math_prod_cons, IH. lia.
Qed.

Lemma math_prod_pos l : Forall (fun p => 0 < p) l → 0 < math_prod l.
Proof.
  induction 1 as [|x l Hx _ IH]; [done|]. rewrite math_prod_cons. lia.
Qed.

Lemma py_sum_cons x l : py_sum (x :: l) = x + py_sum l.
Proof. unfold py_sum. simpl. rewrite foldl_add_acc. lia. Qed.

Lemma py_sum_app l1 l2 : py_sum (l1 ++ l2) = py_sum l1 + py_sum l2.
Proof.
  induction l1 as [|x l1 IH]; simpl; [done|].
  rewrite !py_sum_cons, IH. lia.
Qed.

End Arithmetic.

(** ** The modular inverse *)

Section Inverse.

(** One invariant carries the whole loop: both components stay congruent
    to multiples of the base, and their gcd does not change. *)
Lemma long_invmod_loop_spec x m fuel : ∀ a n b c,
  0 ≤ n → (n = 0 → 0 ≤ a) → (Z.to_nat n < fuel)%nat →
  (m | b * x - a) → (m | c * x - n) →
  Z.gcd a n = 1 →
  ∃ r, long_invmod_loop fuel a n b c = Ret r ∧ (m | r * x - 1).
Proof.
  induction fuel as [|fuel IH]; intros a n b c Hn Ha Hfuel Hb Hc Hg; [lia|].
  simpl. destruct (Z.eqb_spec n 0) as [->|Hn0].
  - rewrite Z.gcd_0_r in Hg.
    assert (a = 1) as -> by (specialize (Ha eq_refl); lia).
    simpl. eauto.
  - pose proof (Z.mod_pos_bound a n ltac:(lia)) as Hr.
    apply IH; try lia; try done.
    + replace ((b - a / n * c) * x - a mod n)
        with ((b * x - a) - (a / n) * (c * x - n)).
      * apply Z.divide_sub_r; [done|]. by apply Z.divide_mul_r.
      * rewrite (Z.mod_eq a n) by done. ring.
    + rewrite Z.gcd_comm, Z.gcd_mod by done. by rewrite Z.gcd_comm.
Qed.

Lemma long_invmod_spec x n :
  0 < n → Z.gcd x n = 1 →
  ∃ r, long_invmod x n = Ret r ∧ (n | r * x - 1).
Proof.
  intros Hn Hg. unfold long_invmod.
  apply long_invmod_loop_spec; try lia; try done.
  - replace (1 * x - x) with 0 by ring. apply Z.divide_0_r.
  - replace (0 * x - n) with (- n) by ring.
    apply Z.divide_opp_r, Z.divide_refl.
Qed.

(** For a positive modulus the builtin returns the inverse in [[0, p)]. *)
Lemma pow_neg1_spec x p :
  0 < p → Z.gcd x p = 1 →
  ∃ i, pow_neg1 x p = Ret i ∧ 0 ≤ i < p ∧ (x * i) mod p = 1 mod p.
Proof.
  intros Hp Hg. unfold pow_neg1.
  destruct (Z.eqb_spec p 0) as [|_]; [lia|].
  rewrite (Z.abs_eq p) by lia.
  destruct (Z.eqb_spec p 1) as [->|Hp1].
  - exists 0. split; [done|]. split; [lia|]. by rewrite !Z.mod_1_r.
  - destruct (long_invmod_spec x p Hp Hg) as (r & -> & Hr). simpl.
    replace (p <? 0) with false by (symmetry; apply Z.ltb_ge; lia). simpl.
    eexists; split; [done|]. split; [apply Z.mod_pos_bound; lia|].
    rewrite Z.mul_mod_idemp_r by lia.
    destruct Hr as [t Ht].
    replace (x * r) with (1 + t * p) by lia.
    by rewrite Z.mod_add by lia.
Qed.

End Inverse.

(** ** The Chinese remainder step *)

Section ChineseRemainder.

Lemma mapM_res_cons {A B} (f : A → res B) x l :
  mapM f (x :: l) = y ← f x; k ← mapM f l; Ret (y :: k).
Proof. reflexivity. Qed.

Lemma mapM_res_app {A B} (f : A → res B) l1 l2 ts1 ts2 :
  mapM f l1 = Ret ts1 → mapM f l2 = Ret ts2 →
  mapM f (l1 ++ l2) = Ret (ts1 ++ ts2).
Proof.
  revert ts1. induction l1 as [|x l1 IH]; intros ts1 H1 H2.
  - injection H1 as <-. done.
  - simpl app. rewrite mapM_res_cons in *.
    destruct (f x) as [y|]; [|done]. simpl in *.
    destruct (mapM f l1) as [k|] eqn:Hk; [|done]. simpl in *.
    injection H1 as <-. by rewrite (IH k eq_refl H2).
Qed.

Lemma gcd_math_prod q l :
  Forall (fun p => Z.gcd q p = 1) l → Z.gcd q (math_prod l) = 1.
Proof.
  induction 1 as [|p l Hp _ IH].
  - apply Z.gcd_1_r.
  - rewrite math_prod_cons. by apply Z.coprime_mul_r.
Qed.

Lemma pairwise_coprime_split l1 q l2 :
  pairwise_coprime (l1 ++ q :: l2) →
  Forall (fun p => Z.gcd q p = 1) (l1 ++ l2).
Proof.
  induction l1 as [|p l1 IH]; simpl; intros [H1 H2]; [done|].
  apply Forall_app in H1 as [Ha Hb]. apply Forall_cons in Hb as [Hq Hb].
  constructor; [by rewrite Z.gcd_comm | by apply IH].
Qed.

Lemma math_prod_split l1 q l2 :
  math_prod (l1 ++ q :: l2) = math_prod (l1 ++ l2) * q.
Proof. rewrite !math_prod_app, math_prod_cons. ring. Qed.

(** The cofactor [M // p] of a modulus is the product of the others, and
    is coprime to it. *)
Lemma cofactor_coprime ms p :
  Forall (fun p => 0 < p) ms → pairwise_coprime ms → p ∈ ms →
  Z.gcd (math_prod ms / p) p = 1.
Proof.
  intros Hpos Hpc Hin.
  apply list_elem_of_split in Hin as (l1 & l2 & ->).
  assert (0 < p) by (apply Forall_app in Hpos as [_ H]; by inversion H).
  rewrite math_prod_split, Z.div_mul by lia.
  rewrite Z.gcd_comm. by apply gcd_math_prod, pairwise_coprime_split.
Qed.

Lemma cofactor_multiple l1 q l2 p :
  p ≠ 0 → p ∈ l1 ++ l2 → (q | math_prod (l1 ++ q :: l2) / p).
Proof.
  intros Hp Hin. rewrite math_prod_split.
  apply list_elem_of_split in Hin as (k1 & k2 & ->).
  rewrite math_prod_split.
  replace (math_prod (k1 ++ k2) * p * q) with (math_prod (k1 ++ k2) * q * p) by ring.
  rewrite Z.div_mul by done. apply Z.divide_factor_r.
Qed.

Lemma crt_term_eq M p o i :
  0 < p → pow_neg1 (M / p) p = Ret i →
  crt_term M (p, o) = Ret (o * (M / p) * i).
Proof.
  intros Hp Hi. unfold crt_term, floordiv.
  destruct (Z.eqb_spec p 0) as [|_]; [lia|].
  change (Ret (M / p) ≫= ?f) with (f (M / p)). cbv beta. by rewrite Hi.
Qed.

(** Terms of moduli other than [q] are defined and vanish modulo [q]. *)
Lemma crt_terms_others M q l : ∀ os,
  Forall (fun p => 0 < p ∧ Z.gcd (M / p) p = 1 ∧ (q | M / p)) l →
  ∃ ts, mapM (crt_term M) (zip l os) = Ret ts ∧ (q | py_sum ts).
Proof.
  induction l as [|p l IH]; intros os Hl.
  - exists []. split; [done|]. apply Z.divide_0_r.
  - destruct os as [|o os]; [exists []; split; [done|apply Z.divide_0_r]|].
    apply Forall_cons in Hl as [(Hp & Hg & Hq) Hl].
    destruct (IH os Hl) as (ts & Hts & Hsum).
    destruct (pow_neg1_spec _ _ Hp Hg) as (i & Hi & _ & _).
    simpl zip. rewrite mapM_res_cons, (crt_term_eq _ _ _ _ Hp Hi), Hts.
    eexists; split; [done|].
    rewrite py_sum_cons. apply Z.divide_add_r; [|done].
    apply Z.divide_mul_l. by apply Z.divide_mul_r.
Qed.

(** The term of [q] itself has the residue of its offset. *)
Lemma crt_term_self l1 q l2 o :
  0 < q → Forall (fun p => Z.gcd q p = 1) (l1 ++ l2) →
  ∃ t, crt_term (math_prod (l1 ++ q :: l2)) (q, o) = Ret t
       ∧ t mod q = o mod q.
Proof.
  intros Hq Hg.
  destruct (pow_neg1_spec (math_prod (l1 ++ l2)) q Hq) as (i & Hi' & _ & Hi).
  { rewrite Z.gcd_comm. by apply gcd_math_prod. }
  eexists; split.
  { apply crt_term_eq; [done|].
    rewrite math_prod_split, Z.div_mul by lia. done. }
  rewrite math_prod_split, Z.div_mul by lia.
  rewrite <- Z.mul_assoc, <- Z.mul_mod_idemp_r, Hi by lia.
  rewrite Z.mul_mod_idemp_r by lia. f_equal. lia.
Qed.

Lemma math_prod_divides ms d :
  pairwise_coprime ms → Forall (fun p => (p | d)) ms → (math_prod ms | d).
Proof.
  induction ms as [|p ms IH]; intros Hpc Hd.
  - apply Z.divide_1_l.
  - destruct Hpc as [Hg Hpc]. apply Forall_cons in Hd as [[t ->] Hd].
    specialize (IH Hpc Hd).
    rewrite math_prod_cons, (Z.mul_comm t p).
    apply Z.mul_divide_mono_l.
    apply Z.gauss with p.
    + by rewrite Z.mul_comm.
    + rewrite Z.gcd_comm. by apply gcd_math_prod.
Qed.

Lemma crt_others_ok ms q l1 l2 :
  ms = l1 ++ q :: l2 →
  Forall (fun p => 0 < p) ms → pairwise_coprime ms →
  Forall (fun p => 0 < p ∧ Z.gcd (math_prod ms / p) p = 1
                   ∧ (q | math_prod ms / p)) (l1 ++ l2).
Proof.
  intros -> Hpos Hpc. apply Forall_forall. intros p Hp.
  assert (p ∈ l1 ++ q :: l2) as Hin.
  { apply elem_of_app in Hp as [?|?]; set_solver. }
  assert (0 < p) by (eapply Forall_forall in Hpos; [apply Hpos|done]).
  split_and!; [done| |].
  - by apply cofactor_coprime.
  - apply cofactor_multiple; [lia|done].
Qed.

Lemma crt_sum_residue l1 q l2 o1 o o2 ts :
  Forall (fun p => 0 < p) (l1 ++ q :: l2) →
  pairwise_coprime (l1 ++ q :: l2) →
  length l1 = length o1 →
  mapM (crt_term (math_prod (l1 ++ q :: l2)))
       (zip (l1 ++ q :: l2) (o1 ++ o :: o2)) = Ret ts →
  py_sum ts mod q = o mod q.
Proof.
  intros Hpos Hpc Hlen Hts.
  pose proof (crt_others_ok _ q l1 l2 eq_refl Hpos Hpc) as Hoth.
  apply Forall_app in Hoth as [H1 H2].
  assert (0 < q) as Hq by (apply Forall_app in Hpos as [_ H]; by inversion H).
  destruct (crt_terms_others _ q l1 o1 H1) as (ts1 & Hts1 & Hs1).
  destruct (crt_terms_others _ q l2 o2 H2) as (ts2 & Hts2 & Hs2).
  destruct (crt_term_self l1 q l2 o Hq) as (t & Ht & Hres).
  { by apply pairwise_coprime_split. }
  assert (mapM (crt_term (math_prod (l1 ++ q :: l2)))
               (zip (q :: l2) (o :: o2)) = Ret (t :: ts2)) as Hmid.
  { simpl zip. rewrite mapM_res_cons. by rewrite Ht, Hts2. }
  rewrite zip_with_app in Hts by done.
  rewrite (mapM_res_app _ _ _ _ _ Hts1 Hmid) in Hts. injection Hts as <-.
  rewrite py_sum_app, py_sum_cons.
  destruct Hs1 as [u1 ->], Hs2 as [u2 ->].
  replace (u1 * q + (t + u2 * q)) with (t + (u1 + u2) * q) by ring.
  by rewrite Z.mod_add by lia.
Qed.

Lemma congruent_unique ms os k k' :
  Forall (fun p => 0 < p) ms → pairwise_coprime ms →
  0 ≤ k < math_prod ms → 0 ≤ k' < math_prod ms →
  congruent_all k ms os → congruent_all k' ms os → k' = k.
Proof.
  intros Hpos Hpc Hk Hk' Hc Hc'.
  assert (math_prod ms | k' - k) as [t Ht].
  { apply math_prod_divides; [done|].
    apply Forall_forall. intros p Hp.
    apply list_elem_of_lookup in Hp as [i Hi].
    destruct (Forall2_lookup_l _ _ _ _ _ Hc Hi) as (o & Ho & Hko).
    destruct (Forall2_lookup_l _ _ _ _ _ Hc' Hi) as (o' & Ho' & Hko').
    assert (o' = o) as -> by congruence.
    assert (0 < p).
    { eapply Forall_forall in Hpos; [apply Hpos|].
      by eapply list_elem_of_lookup_2. }
    apply Z.mod_divide; [lia|].
    rewrite Zminus_mod, Hko, Hko', Z.sub_diag. by apply Z.mod_0_l; lia. }
  destruct (Z.eq_dec t 0) as [->|Hne]; [lia|].
  assert (1 ≤ t ∨ t ≤ -1) as [?|?] by lia; nia.
Qed.

End ChineseRemainder.

(** The step is defined on positive pairwise-coprime moduli and solves
    the system of congruences, in the range of the product. *)
Lemma crt_spec (modulos offsets : list Z) :
  Forall (fun p => 0 < p) modulos →
  pairwise_coprime modulos →
  length modulos = length offsets →
  ∃ k, crt modulos offsets = Ret k
       ∧ 0 ≤ k < math_prod modulos
       ∧ congruent_all k modulos offsets.
Proof.
  intros Hpos Hpc Hlen.
  pose proof (math_prod_pos _ Hpos) as HM.
  destruct (crt_terms_others (math_prod modulos) 1 modulos offsets)
    as (ts & Hts & _).
  { apply Forall_forall. intros p Hp.
    assert (0 < p) by (eapply Forall_forall in Hpos; [apply Hpos|done]).
    split_and!; [done|by apply cofactor_coprime|apply Z.divide_1_l]. }
  exists (py_sum ts mod math_prod modulos).
  split; [|split; [by apply Z.mod_pos_bound|]].
  { unfold crt. rewrite Hts. unfold pymod.
    change (Ret ts ≫= ?f) with (f ts). cbv beta.
    destruct (Z.eqb_spec (math_prod modulos) 0); [lia|done]. }
  apply Forall2_same_length_lookup. split; [done|].
  intros i p o Hp Ho.
  pose proof (take_drop_middle _ _ _ Hp) as Hms.
  pose proof (take_drop_middle _ _ _ Ho) as Hos.
  assert (0 < p).
  { eapply Forall_forall in Hpos; [apply Hpos|].
    by eapply list_elem_of_lookup_2. }
  rewrite Z.mod_mod_divide.
  - rewrite <- Hms in Hpos, Hpc. rewrite <- Hms, <- Hos in Hts.
    eapply crt_sum_residue; [exact Hpos|exact Hpc| |exact Hts].
    rewrite !length_take. apply lookup_lt_Some in Hp, Ho. lia.
  - rewrite <- Hms, math_prod_split. apply Z.divide_factor_r.
Qed.

(** C1. For positive, pairwise-coprime moduli with one local offset each,
    the Chinese remainder step of [find_max_overlap] returns the unique
    [k] in [[0, M)], [M] the product of the moduli, that is congruent to
    every local offset modulo its modulus; for the moduli [3, 5, 7] with
    residues [2, 3, 2] that value is 23. *)
Theorem crt_unique_solution (modulos offsets : list Z) :
  Forall (fun p => 0 < p) modulos →
  pairwise_coprime modulos →
  length modulos = length offsets →
  ∃ k, crt modulos offsets = Ret k
       ∧ 0 ≤ k < math_prod modulos
       ∧ congruent_all k modulos offsets
       ∧ (∀ k', 0 ≤ k' < math_prod modulos →
                congruent_all k' modulos offsets → k' = k)
       ∧ (modulos = [3; 5; 7] → offsets = [2; 3; 2] → k = 23).
Proof.
  intros Hpos Hpc Hlen.
  destruct (crt_spec modulos offsets Hpos Hpc Hlen) as (k & Hk & Hrange & Hc).
  exists k. do 3 (split; [done|]). split.
  - intros k' Hk' Hc'. by eapply congruent_unique.
  - intros -> ->.
    assert (crt [3; 5; 7] [2; 3; 2] = Ret 23) as H23 by (by vm_compute).
    rewrite H23 in Hk. by injection Hk as <-.
Qed.

(** The instance of the specification: [3, 5, 7] with residues [2, 3, 2]. *)
Lemma crt_unique_solution_witness :
  ∃ k, crt [3; 5; 7] [2; 3; 2] = Ret k
       ∧ 0 ≤ k < math_prod [3; 5; 7]
       ∧ congruent_all k [3; 5; 7] [2; 3; 2]
       ∧ (∀ k', 0 ≤ k' < math_prod [3; 5; 7] →
                congruent_all k' [3; 5; 7] [2; 3; 2] → k' = k)
       ∧ ([3; 5; 7] = [3; 5; 7] → [2; 3; 2] = [2; 3; 2] → k = 23).
Proof.
  apply (crt_unique_solution [3; 5; 7] [2; 3; 2]).
  - repeat constructor.
  - simpl. repeat split; repeat constructor.
  - reflexivity.
Defined.

(** ** The modulus list *)

Section CoprimeNumbers.

Lemma first_candidate_odd n : odd (first_candidate n).
Proof.
  unfold odd, first_candidate.
  pose proof (Z.mod_pos_bound n 2 ltac:(lia)) as Hb.
  rewrite (Z.div_mod n 2) at 1 by lia.
  destruct (Z.eq_dec (n mod 2) 0) as [->|].
  - replace (2 * (n / 2) + 0 + 1 + 0) with (1 + (n / 2) * 2) by ring.
    by rewrite Z.mod_add.
  - replace (n mod 2) with 1 by lia.
    replace (2 * (n / 2) + 1 + 1 + 1) with (1 + (n / 2 + 1) * 2) by ring.
    by rewrite Z.mod_add.
Qed.

Lemma first_candidate_gt n : n < first_candidate n.
Proof.
  unfold first_candidate. pose proof (Z.mod_pos_bound n 2 ltac:(lia)). lia.
Qed.

Lemma odd_add_2 i : odd i → odd (i + 2).
Proof.
  unfold odd. intros Hi. replace (i + 2) with (i + 1 * 2) by ring.
  by rewrite Z.mod_add.
Qed.

Lemma odd_mul a b : odd a → odd b → odd (a * b).
Proof.
  unfold odd. intros Ha Hb. by rewrite Z.mul_mod, Ha, Hb by lia.
Qed.

Lemma gcd_factor i a b : Z.gcd i (a * b) = 1 → Z.gcd a i = 1.
Proof.
  intros Hg. pose proof (Z.gcd_nonneg a i).
  assert (Z.gcd a i | 1) as Hd.
  { rewrite <- Hg. apply Z.gcd_greatest.
    - apply Z.gcd_divide_r.
    - apply Z.divide_mul_l, Z.gcd_divide_l. }
  apply Z.divide_1_r_nonneg in Hd; lia.
Qed.

Lemma gcd_math_prod_inv i l :
  Z.gcd i (math_prod l) = 1 → Forall (fun x => Z.gcd x i = 1) l.
Proof.
  intros Hg. apply Forall_forall. intros x Hx.
  apply list_elem_of_split in Hx as (l1 & l2 & ->).
  rewrite math_prod_split, Z.mul_comm in Hg. by eapply gcd_factor.
Qed.

Lemma pairwise_coprime_snoc l i :
  pairwise_coprime l → Forall (fun x => Z.gcd x i = 1) l →
  pairwise_coprime (l ++ [i]).
Proof.
  induction l as [|x l IH]; simpl; intros Hpc Hl; [done|].
  destruct Hpc as [Hx Hpc]. apply Forall_cons in Hl as [Hxi Hl].
  split; [|by apply IH].
  apply Forall_app. split; [done|]. by repeat constructor.
Qed.

Lemma loop_inv_init n m :
  loop_inv n m (first_candidate n + 2) (first_candidate n) [first_candidate n].
Proof.
  pose proof (first_candidate_odd n). pose proof (first_candidate_gt n).
  split; simpl; try by repeat constructor.
  - unfold math_prod. simpl. lia.
  - by exists [].
  - repeat constructor. lia.
  - by apply odd_add_2.
Qed.

Lemma loop_inv_accept n m i product coprimes :
  loop_inv n m i product coprimes →
  product ≤ m → Z.gcd i product = 1 →
  loop_inv n m (i + 2) (product * i) (coprimes ++ [i]).
Proof.
  intros [Hprod [rest Hhd] Hsort Hlt Hodd Hi Hgt Hpc Hpre] Hle Hg.
  assert (n < i).
  { rewrite Hhd in Hlt. apply Forall_cons in Hlt as [? _].
    pose proof (first_candidate_gt n). lia. }
  split.
  - rewrite math_prod_app, math_prod_cons, Hprod.
    unfold math_prod. simpl. lia.
  - exists (rest ++ [i]). by rewrite Hhd.
  - apply StronglySorted_app. split_and!; [|done|by repeat constructor].
    intros x1 x2 Hx1 Hx2%list_elem_of_singleton. subst x2.
    eapply Forall_forall in Hlt; [apply Hlt|done].
  - apply Forall_app. split; [|repeat constructor; lia].
    eapply Forall_impl; [exact Hlt|]. simpl. lia.
  - apply Forall_app. split; [done|by repeat constructor].
  - by apply odd_add_2.
  - apply Forall_app. split; [done|by repeat constructor].
  - apply pairwise_coprime_snoc; [done|].
    apply gcd_math_prod_inv. by rewrite Hprod.
  - intros _. rewrite removelast_last. lia.
Qed.

Lemma loop_inv_reject n m i product coprimes :
  loop_inv n m i product coprimes →
  loop_inv n m (i + 2) product coprimes.
Proof.
  intros [Hprod Hhd Hsort Hlt Hodd Hi Hgt Hpc Hpre].
  split; try done.
  - eapply Forall_impl; [exact Hlt|]. simpl. lia.
  - by apply odd_add_2.
Qed.

(** Partial correctness: whatever the fuel, a returned list is right. *)
Lemma coprime_loop_post n m fuel : ∀ i product coprimes l,
  loop_inv n m i product coprimes →
  coprime_loop fuel m i product coprimes = Some l →
  coprimes_post n m l.
Proof.
  induction fuel as [|fuel IH]; intros i product coprimes l Hinv; simpl;
    destruct (Z.leb_spec product m) as [Hle|Hgt]; try done.
  - intros [= <-]. destruct Hinv. split; try done. lia.
  - destruct (Z.eqb_spec (Z.gcd i product) 1) as [Hg|Hg].
    + apply IH. by apply loop_inv_accept.
    + apply IH. by apply loop_inv_reject.
  - intros [= <-]. destruct Hinv. split; try done. lia.
Qed.

(** More fuel never changes an answer. *)
Lemma coprime_loop_fuel_mono m fuel : ∀ fuel' i product coprimes l,
  (fuel ≤ fuel')%nat →
  coprime_loop fuel m i product coprimes = Some l →
  coprime_loop fuel' m i product coprimes = Some l.
Proof.
  induction fuel as [|fuel IH]; intros fuel' i product coprimes l Hle; simpl;
    destruct (Z.leb_spec product m) as [Hpm|Hpm]; try done.
  - destruct fuel'; simpl; by destruct (Z.leb_spec product m); try lia.
  - destruct fuel' as [|fuel']; [lia|]. simpl.
    destruct (Z.leb_spec product m); [|lia].
    destruct (Z.gcd i product =? 1); apply IH; lia.
  - destruct fuel'; simpl; by destruct (Z.leb_spec product m); try lia.
Qed.

(** Among the odd numbers from [i] on there is one congruent to 1 modulo
    the (odd) running product, so the search for the next modulus ends. *)
Lemma exists_coprime_step product i :
  odd product → 1 ≤ product →
  ∃ j : nat, Z.gcd (i + 2 * Z.of_nat j) product = 1.
Proof.
  unfold odd. intros Hodd Hpos.
  pose proof (Z.div_mod product 2 ltac:(lia)) as Hdm. rewrite Hodd in Hdm.
  set (h := product / 2 + 1).
  set (r := ((1 - i) * h) mod product).
  pose proof (Z.mod_pos_bound ((1 - i) * h) product ltac:(lia)) as Hr.
  pose proof (Z.mod_eq ((1 - i) * h) product ltac:(lia)) as Hreq.
  fold r in Hr, Hreq.
  set (t := (1 - i) * h / product) in Hreq.
  exists (Z.to_nat r). rewrite Z2Nat.id by lia.
  replace (i + 2 * r) with (1 + (1 - i - 2 * t) * product) by (unfold h in *; nia).
  by rewrite Z.gcd_comm, Z.gcd_add_mult_diag_r, Z.gcd_1_r.
Qed.

Lemma coprime_loop_terminates m k : ∀ i product coprimes,
  (Z.to_nat (m + 1 - product) ≤ k)%nat →
  1 ≤ product → odd product → odd i → 3 ≤ i →
  ∃ fuel l, coprime_loop fuel m i product coprimes = Some l.
Proof.
  induction k as [|k IHk]; intros i product coprimes Hk Hpos Hodd Hi Hi3.
  { exists O, coprimes. simpl.
    destruct (Z.leb_spec product m); [lia|done]. }
  destruct (Z.leb_spec product m) as [Hle|Hgt]; cycle 1.
  { exists O, coprimes. simpl.
    destruct (Z.leb_spec product m); [lia|done]. }
  assert (∀ i coprimes, odd i → 3 ≤ i → Z.gcd i product = 1 →
          ∃ fuel l, coprime_loop fuel m i product coprimes = Some l)
    as Haccept.
  { clear i coprimes Hi Hi3. intros i coprimes Hi Hi3 Hg.
    destruct (IHk (i + 2) (product * i) (coprimes ++ [i]))
      as (fuel & l & Hl); [nia|nia|by apply odd_mul|by apply odd_add_2|lia|].
    exists (S fuel), l. simpl.
    destruct (Z.leb_spec product m); [|lia]. by rewrite Hg. }
  destruct (exists_coprime_step product i Hodd Hpos) as [j Hj].
  revert i coprimes Hi Hi3 Hj.
  induction j as [|j IHj]; intros i coprimes Hi Hi3 Hj.
  - apply Haccept; [done|done|].
    by replace (i + 2 * Z.of_nat 0) with i in Hj by lia.
  - destruct (Z.eqb_spec (Z.gcd i product) 1) as [Hg|Hg].
    + by apply Haccept.
    + destruct (IHj (i + 2) coprimes) as (fuel & l & Hl).
      * by apply odd_add_2.
      * lia.
      * by replace (i + 2 + 2 * Z.of_nat j) with (i + 2 * Z.of_nat (S j)) by lia.
      * exists (S fuel), l. simpl.
        destruct (Z.leb_spec product m); [|lia].
        by destruct (Z.eqb_spec (Z.gcd i product) 1).
Qed.

Lemma find_coprime_numbers_terminates n m :
  0 ≤ n → ∃ fuel l, find_coprime_numbers fuel n m = Some l.
Proof.
  intros Hn. unfold find_coprime_numbers.
  pose proof (first_candidate_gt n). pose proof (first_candidate_odd n).
  eapply coprime_loop_terminates; [done|lia|done|by apply odd_add_2|lia].
Qed.

Lemma find_coprime_numbers_post n m fuel l :
  find_coprime_numbers fuel n m = Some l → coprimes_post n m l.
Proof. apply coprime_loop_post, loop_inv_init. Qed.

Lemma find_coprime_numbers_fuel_mono n m fuel fuel' l :
  (fuel ≤ fuel')%nat →
  find_coprime_numbers fuel n m = Some l →
  find_coprime_numbers fuel' n m = Some l.
Proof. apply coprime_loop_fuel_mono. Qed.

(** With a negative running product the loop never stops: every accepted
    modulus is positive and keeps the product below the bound. *)
Lemma coprime_loop_negative_diverges m fuel : ∀ i product coprimes,
  -1 ≤ m → product ≤ -1 → 1 ≤ i →
  coprime_loop fuel m i product coprimes = None.
Proof.
  induction fuel as [|fuel IH]; intros i product coprimes Hm Hp Hi; simpl;
    destruct (Z.leb_spec product m); try lia; [done|].
  destruct (Z.gcd i product =? 1); apply IH; nia.
Qed.

Lemma find_coprime_numbers_negative_diverges fuel :
  find_coprime_numbers fuel (-2) 1 = None.
Proof.
  unfold find_coprime_numbers.
  by apply coprime_loop_negative_diverges.
Qed.

End CoprimeNumbers.

(** The claim as written fails at [N = 0], [M = 0]: the list is the single
    first candidate [1], and the product of its empty prefix, 1, exceeds
    [M]. *)
Lemma find_coprime_numbers_prefix_counterexample :
  ∃ l, find_coprime_numbers 0 0 0 = Some l
       ∧ ¬ math_prod (removelast l) ≤ 0.
Proof. exists [1]. split; [reflexivity|]. vm_compute. by intros H. Qed.

(** C2 (amended). For every lower bound [N ≥ 0] and every upper bound [M],
    [find_coprime_numbers] returns a list that is strictly increasing,
    consists of odd integers greater than [N], is pairwise coprime and has
    a product greater than [M]; when [M ≥ 1] the product of the list
    without its last element does not exceed [M]. *)
Theorem find_coprime_numbers_spec (n m : Z) :
  0 ≤ n →
  ∃ fuel l, find_coprime_numbers fuel n m = Some l
            ∧ strictly_increasing l
            ∧ Forall odd l
            ∧ Forall (fun x => n < x) l
            ∧ pairwise_coprime l
            ∧ m < math_prod l
            ∧ (1 ≤ m → math_prod (removelast l) ≤ m).
Proof.
  intros Hn.
  destruct (find_coprime_numbers_terminates n m Hn) as (fuel & l & Hl).
  exists fuel, l. split; [done|].
  by destruct (find_coprime_numbers_post n m fuel l Hl).
Qed.

Lemma find_coprime_numbers_spec_witness :
  ∃ fuel l, find_coprime_numbers fuel 4 1000 = Some l
            ∧ strictly_increasing l
            ∧ Forall odd l
            ∧ Forall (fun x => 4 < x) l
            ∧ pairwise_coprime l
            ∧ 1000 < math_prod l
            ∧ (1 ≤ 1000 → math_prod (removelast l) ≤ 1000).
Proof. apply (find_coprime_numbers_spec 4 1000). lia. Defined.

(** C10. For every lower bound [n ≥ 0] and every upper bound [m],
    [find_coprime_numbers] returns a non-empty list whose first element is
    [n + 1 + n mod 2], whatever the fuel that lets it finish, and that is
    the whole list when [m] is below this first candidate; the product of
    the list is at least the first element, and the Chinese remainder step
    is defined on the list for any offsets of the same length. *)
Theorem find_coprime_numbers_first (n m : Z) :
  0 ≤ n →
  ∃ fuel rest,
    let first := n + 1 + n mod 2 in
    find_coprime_numbers fuel n m = Some (first :: rest)
    ∧ (∀ fuel' l, find_coprime_numbers fuel' n m = Some l → l = first :: rest)
    ∧ (m < first → rest = [])
    ∧ first ≤ math_prod (first :: rest)
    ∧ (∀ offsets, length (first :: rest) = length offsets →
                  ∃ k, crt (first :: rest) offsets = Ret k).
Proof.
  intros Hn.
  destruct (find_coprime_numbers_terminates n m Hn) as (fuel & l & Hl).
  destruct (find_coprime_numbers_post n m fuel l Hl)
    as [[rest ->] _ _ Habove Hpc _ _].
  assert (Forall (fun p => 0 < p) (first_candidate n :: rest)) as Hpos.
  { eapply Forall_impl; [exact Habove|]. simpl. lia. }
  exists fuel, rest. simpl. fold (first_candidate n).
  split; [done|]. split; [|split; [|split]].
  - intros fuel' l Hl'.
    destruct (Nat.le_ge_cases fuel fuel') as [Hle|Hle].
    + pose proof (find_coprime_numbers_fuel_mono _ _ _ _ _ Hle Hl). congruence.
    + pose proof (find_coprime_numbers_fuel_mono _ _ _ _ _ Hle Hl'). congruence.
  - intros Hm.
    assert (find_coprime_numbers 0 n m = Some [first_candidate n]) as H0.
    { unfold find_coprime_numbers. simpl.
      by destruct (Z.leb_spec (first_candidate n) m); [lia|]. }
    pose proof (find_coprime_numbers_fuel_mono _ _ 0 fuel _ ltac:(lia) H0).
    congruence.
  - rewrite math_prod_cons. apply Forall_cons in Hpos as [Hf Hrest].
    pose proof (math_prod_pos _ Hrest). nia.
  - intros offsets Hlen.
    destruct (crt_spec _ offsets Hpos Hpc Hlen) as (k & Hk & _). eauto.
Qed.

Lemma find_coprime_numbers_first_witness :
  ∃ fuel rest,
    let first := 6 + 1 + 6 mod 2 in
    find_coprime_numbers fuel 6 3 = Some (first :: rest)
    ∧ (∀ fuel' l, find_coprime_numbers fuel' 6 3 = Some l → l = first :: rest)
    ∧ (3 < first → rest = [])
    ∧ first ≤ math_prod (first :: rest)
    ∧ (∀ offsets, length (first :: rest) = length offsets →
                  ∃ k, crt (first :: rest) offsets = Ret k).
Proof. apply (find_coprime_numbers_first 6 3). lia. Defined.

(** ** Arrays, histograms and the maximum *)

Section Arrays.

Lemma len_nonneg {A} (l : list A) : 0 ≤ len l.
Proof. unfold len. lia. Qed.

Lemma len_app {A} (l1 l2 : list A) : len (l1 ++ l2) = len l1 + len l2.
Proof. unfold len. rewrite length_app. lia. Qed.

Lemma item_app_r (l1 l2 : list Z) i :
  len l1 ≤ i → item (l1 ++ l2) i = item l2 (i - len l1).
Proof.
  unfold item, len. intros Hi.
  rewrite lookup_app_r by lia. do 2 f_equal. lia.
Qed.

Lemma argmax_from_spec l : ∀ pre best_i best,
  first_max (pre ++ l) (len pre) best_i →
  best = item (pre ++ l) best_i →
  first_max (pre ++ l) (len (pre ++ l))
            (argmax_from best_i best (len pre) l).
Proof.
  induction l as [|x l IH]; intros pre best_i best Hfm Hbest.
  - simpl. by rewrite app_nil_r in *.
  - assert (item (pre ++ x :: l) (len pre) = x) as Hx.
    { rewrite item_app_r by lia. by rewrite Z.sub_diag. }
    pose proof (len_nonneg pre) as Hpre.
    replace (pre ++ x :: l) with ((pre ++ [x]) ++ l) in *
      by (by rewrite <- app_assoc).
    replace (len pre + 1) with (len (pre ++ [x]))
      by (rewrite len_app; unfold len; simpl; lia).
    simpl. destruct Hfm as (Hr & Hmax & Hfirst).
    destruct (Z.ltb_spec best x) as [Hlt|Hge].
    + replace (len pre + 1) with (len (pre ++ [x]))
        by (rewrite len_app; unfold len; simpl; lia).
      apply IH; [|by rewrite Hx].
      rewrite len_app. unfold len at 2. simpl.
      split; [lia|]. split.
      * intros j Hj. destruct (Z.eq_dec j (len pre)) as [->|]; [lia|].
        specialize (Hmax j ltac:(lia)). lia.
      * intros j Hj. specialize (Hmax j ltac:(lia)). lia.
    + replace (len pre + 1) with (len (pre ++ [x]))
        by (rewrite len_app; unfold len; simpl; lia).
      apply IH; [|done].
      rewrite len_app. unfold len at 2. simpl.
      split; [lia|]. split; [|done].
      intros j Hj. destruct (Z.eq_dec j (len pre)) as [->|]; [lia|].
      apply Hmax. lia.
Qed.

(** [argmax] is the first index of the maximum. *)
Lemma argmax_spec l : 0 < len l → first_max l (len l) (argmax l).
Proof.
  destruct l as [|x l]; [unfold len; simpl; lia|]. intros _.
  apply (argmax_from_spec l [x] 0 x); [|done].
  unfold len. simpl. split; [lia|]. split.
  - intros j Hj. by replace j with 0 by lia.
  - intros j Hj. lia.
Qed.

Lemma argmax_range l : 0 < len l → 0 ≤ argmax l < len l.
Proof. intros Hl. by destruct (argmax_spec l Hl). Qed.

(** A strict maximum is the one found. *)
Lemma argmax_unique l t :
  0 ≤ t < len l →
  (∀ j, 0 ≤ j < len l → j ≠ t → item l j < item l t) →
  argmax l = t.
Proof.
  intros Ht Hstrict.
  destruct (argmax_spec l ltac:(lia)) as (Hr & Hmax & _).
  destruct (Z.eq_dec (argmax l) t) as [|Hne]; [done|].
  specialize (Hstrict _ Hr Hne). specialize (Hmax t Ht). lia.
Qed.

(** Among equal entries the first index wins. *)
Lemma argmax_constant l c :
  0 < len l → (∀ j, 0 ≤ j < len l → item l j = c) → argmax l = 0.
Proof.
  intros Hl Hc.
  destruct (argmax_spec l Hl) as (Hr & _ & Hfirst).
  destruct (Z.eq_dec (argmax l) 0) as [|Hne]; [done|].
  specialize (Hfirst 0 ltac:(lia)).
  rewrite (Hc 0), (Hc (argmax l)) in Hfirst by lia. lia.
Qed.

End Arrays.

Section Histograms.

Lemma bind_ret {A B} (a : A) (f : A → res B) : (Ret a ≫= f) = f a.
Proof. done. Qed.

Lemma pymod_nonzero x p : p ≠ 0 → pymod x p = Ret (x mod p).
Proof. intros Hp. unfold pymod. by destruct (Z.eqb_spec p 0). Qed.

Lemma len_insert (a : list Z) n v : len (<[n := v]> a) = len a.
Proof. unfold len. by rewrite length_insert. Qed.

Lemma item_insert (a : list Z) n v i :
  0 ≤ i → (n < length a)%nat →
  item (<[n := v]> a) i = if decide (i = Z.of_nat n) then v else item a i.
Proof.
  intros Hi Hn. unfold item. case_decide as Heq.
  - subst i. rewrite Nat2Z.id. by rewrite list_lookup_insert_eq.
  - rewrite list_lookup_insert_ne; [done|lia].
Qed.

(** [a[idx] += 1] adds one at [idx mod len(a)] and nowhere else. *)
Lemma increment_spec (a : list Z) idx :
  - len a ≤ idx < len a →
  ∃ a', increment a idx = Ret a'
        ∧ len a' = len a
        ∧ ∀ i, 0 ≤ i < len a →
               item a' i = item a i
                           + (if decide (idx mod len a = i) then 1 else 0).
Proof.
  intros Hidx. unfold increment.
  set (j := if idx <? 0 then idx + len a else idx).
  assert (0 ≤ j < len a ∧ idx mod len a = j) as [Hj Hmod].
  { unfold j. destruct (Z.ltb_spec idx 0).
    - split; [lia|]. symmetry. apply Z.mod_unique with (-1); lia.
    - split; [lia|]. apply Z.mod_small. lia. }
  replace ((0 <=? j) && (j <? len a)) with true
    by (symmetry; apply andb_true_iff; split; [apply Z.leb_le|apply Z.ltb_lt]; lia).
  eexists; split; [done|]. split; [apply len_insert|].
  intros i Hi. rewrite item_insert by (unfold len in *; lia).
  rewrite Z2Nat.id, Hmod by lia.
  repeat case_decide; subst; lia.
Qed.

Lemma count_key_nil key i : count_key key [] i = 0.
Proof. done. Qed.

Lemma count_key_cons key x xs i :
  count_key key (x :: xs) i
  = (if decide (key x = i) then 1 else 0) + count_key key xs i.
Proof.
  unfold count_key. rewrite filter_cons.
  case_decide; unfold len; simpl; lia.
Qed.

(** A histogram loop never raises on a positive modulus; afterwards each
    entry has grown by the number of elements sent to it. *)
Lemma histogram_spec p (g : Z → Z) xs : ∀ a,
  0 < p → len a = p →
  (∀ r, 0 ≤ r < p → - p ≤ g r < p) →
  ∃ a', for_each (fun a x => r ← pymod x p; increment a (g r)) a xs = Ret a'
        ∧ len a' = p
        ∧ ∀ i, 0 ≤ i < p →
               item a' i
               = item a i + count_key (fun x => g (x mod p) mod p) xs i.
Proof.
  induction xs as [|x xs IH]; intros a Hp Ha Hg.
  - exists a. split; [done|]. split; [done|].
    intros i _. rewrite count_key_nil. lia.
  - simpl. rewrite (pymod_nonzero x p), bind_ret by lia.
    pose proof (Z.mod_pos_bound x p Hp) as Hr.
    destruct (increment_spec a (g (x mod p))) as (a1 & -> & Hlen1 & Hitem1).
    { rewrite Ha. by apply Hg. }
    rewrite bind_ret.
    destruct (IH a1 Hp ltac:(lia) Hg) as (a' & Ha' & Hlen' & Hitem').
    exists a'. split; [done|]. split; [done|].
    intros i Hi. rewrite Hitem', Hitem1, count_key_cons, Ha by lia. lia.
Qed.

Lemma np_zeros_spec p :
  0 < p → ∃ z, np_zeros p = Ret z ∧ len z = p ∧ ∀ i, item z i = 0.
Proof.
  intros Hp. unfold np_zeros.
  destruct (Z.ltb_spec p 0); [lia|].
  eexists; split; [done|]. split.
  - unfold len. rewrite length_replicate. lia.
  - intros i. unfold item.
    destruct (replicate (Z.to_nat p) 0 !! Z.to_nat i) as [v|] eqn:Hv; [|done].
    by apply lookup_replicate in Hv as [-> _].
Qed.

End Histograms.

Section Sums.

Lemma py_sum_nil : py_sum [] = 0.
Proof. done. Qed.

Lemma py_sum_fmap_ext {A} (f g : A → Z) l :
  (∀ x, x ∈ l → f x = g x) → py_sum (f <$> l) = py_sum (g <$> l).
Proof.
  induction l as [|x l IH]; intros H; [done|].
  rewrite !fmap_cons, !py_sum_cons, H, IH by set_solver. done.
Qed.

Lemma py_sum_fmap_add {A} (f g : A → Z) l :
  py_sum ((fun x => f x + g x) <$> l) = py_sum (f <$> l) + py_sum (g <$> l).
Proof.
  induction l as [|x l IH]; [done|].
  rewrite !fmap_cons, !py_sum_cons, IH. lia.
Qed.

Lemma py_sum_fmap_zero {A} (l : list A) : py_sum ((fun _ => 0) <$> l) = 0.
Proof.
  induction l as [|x l IH]; [done|]. by rewrite fmap_cons, py_sum_cons, IH.
Qed.

Lemma py_sum_fmap_perm {A} (f : A → Z) l l' :
  l ≡ₚ l' → py_sum (f <$> l) = py_sum (f <$> l').
Proof.
  induction 1 as [|x l l' _ IH|x y l|l1 l2 l3 _ IH1 _ IH2].
  - done.
  - by rewrite !fmap_cons, !py_sum_cons, IH.
  - rewrite !fmap_cons, !py_sum_cons. lia.
  - congruence.
Qed.

(** Picking one index out of a list without repetition. *)
Lemma py_sum_pick (h : Z → Z) r l :
  NoDup l →
  py_sum ((fun i => (if decide (r = i) then 1 else 0) * h i) <$> l)
  = if decide (r ∈ l) then h r else 0.
Proof.
  induction 1 as [|x l Hx _ IH]; [done|].
  rewrite fmap_cons, py_sum_cons, IH.
  destruct (decide (r = x)) as [->|Hne].
  - rewrite (decide_False (P := x ∈ l)) by done.
    rewrite (decide_True (P := x ∈ x :: l)) by apply list_elem_of_here. lia.
  - destruct (decide (r ∈ l)).
    + rewrite (decide_True (P := r ∈ x :: l)) by by apply list_elem_of_further.
      lia.
    + rewrite (decide_False (P := r ∈ x :: l)); [lia|].
      rewrite elem_of_cons. tauto.
Qed.

(** Summing a histogram against [h] is summing [h] over the sample. *)
Lemma py_sum_count_key (key h : Z → Z) p xs :
  (∀ x, 0 ≤ key x < p) →
  py_sum ((fun i => count_key key xs i * h i) <$> seqZ 0 p)
  = py_sum ((fun x => h (key x)) <$> xs).
Proof.
  intros Hkey. induction xs as [|x xs IH].
  - transitivity (py_sum ((fun _ => 0) <$> seqZ 0 p));
      [by apply py_sum_fmap_ext|apply py_sum_fmap_zero].
  - rewrite fmap_cons, py_sum_cons, <- IH.
    assert (h (key x)
            = py_sum ((fun i => (if decide (key x = i) then 1 else 0) * h i)
                        <$> seqZ 0 p)) as ->.
    { rewrite py_sum_pick by apply NoDup_seqZ.
      rewrite decide_True; [done|]. apply elem_of_seqZ. specialize (Hkey x). lia. }
    rewrite <- py_sum_fmap_add. apply py_sum_fmap_ext.
    intros i _. rewrite count_key_cons. lia.
Qed.

End Sums.

(** ** The correlation *)

Section Correlation.

Lemma len_circular_convolution a b : len (circular_convolution a b) = len a.
Proof.
  unfold circular_convolution, len at 1. rewrite length_fmap, length_seqZ.
  pose proof (len_nonneg a). lia.
Qed.

Lemma item_circular_convolution a b j :
  0 ≤ j < len a →
  item (circular_convolution a b) j
  = py_sum ((fun i => item a i * item b ((j - i) mod len a))
              <$> seqZ 0 (len a)).
Proof.
  intros Hj. unfold circular_convolution, item at 1.
  rewrite list_lookup_fmap.
  rewrite (lookup_seqZ_lt 0 (len a) (Z.to_nat j)) by lia.
  simpl. by rewrite Z2Nat.id by lia.
Qed.

Lemma mod_eq_iff a b p : 0 < p → a mod p = b mod p ↔ (a - b) mod p = 0.
Proof.
  intros Hp. split; intros H.
  - rewrite Zminus_mod, H, Z.sub_diag. by apply Z.mod_0_l; lia.
  - apply Z.mod_divide in H as [t Ht]; [|lia].
    replace a with (b + t * p) by lia. by rewrite Z.mod_add by lia.
Qed.

Lemma count_key_sum key ys v :
  count_key key ys v
  = py_sum ((fun y => if decide (key y = v) then 1 else 0) <$> ys).
Proof.
  induction ys as [|y ys IH]; [done|].
  by rewrite count_key_cons, fmap_cons, py_sum_cons, IH.
Qed.

(** Entry [j] of the convolution of the two histograms counts the pairs
    at distance [j]. *)
Lemma convolution_counts_overlap p a b xs ys j :
  0 < p → len a = p → 0 ≤ j < p →
  (∀ i, 0 ≤ i < p → item a i = count_key (fun x => (x mod p) mod p) xs i) →
  (∀ i, 0 ≤ i < p →
        item b i = count_key (fun y => (- (y mod p)) mod p) ys i) →
  item (circular_convolution a b) j = overlap p xs ys j.
Proof.
  intros Hp Ha Hj Hca Hcb.
  rewrite item_circular_convolution, Ha by lia.
  transitivity
    (py_sum ((fun i => count_key (fun x => (x mod p) mod p) xs i
                       * item b ((j - i) mod p)) <$> seqZ 0 p)).
  { apply py_sum_fmap_ext. intros i Hi%elem_of_seqZ. by rewrite Hca by lia. }
  rewrite (py_sum_count_key _ (fun i => item b ((j - i) mod p))); cycle 1.
  { intros x. apply Z.mod_pos_bound. lia. }
  unfold overlap. apply py_sum_fmap_ext. intros x _.
  rewrite Hcb by (apply Z.mod_pos_bound; lia).
  rewrite count_key_sum. apply py_sum_fmap_ext. intros y _.
  assert ((- (y mod p)) mod p = (j - x mod p mod p) mod p
          ↔ (x - y - j) mod p = 0) as Hiff.
  { rewrite mod_eq_iff by done. rewrite Z.mod_mod by lia.
    rewrite (Z.mod_eq y p), (Z.mod_eq x p) by lia.
    replace (- (y - p * (y / p)) - (j - (x - p * (x / p))))
      with ((x - y - j) + (y / p - x / p) * p) by ring.
    by rewrite Z.mod_add by lia. }
  unfold hit. repeat case_decide; tauto.
Qed.

Lemma overlap_perm p xs xs' ys ys' j :
  xs ≡ₚ xs' → ys ≡ₚ ys' → overlap p xs ys j = overlap p xs' ys' j.
Proof.
  intros Hx Hy. unfold overlap.
  rewrite (py_sum_fmap_perm _ xs xs' Hx).
  apply py_sum_fmap_ext. intros x _. by apply py_sum_fmap_perm.
Qed.

Lemma overlap_nil_l p ys j : overlap p [] ys j = 0.
Proof. done. Qed.

Lemma overlap_nil_r p xs j : overlap p xs [] j = 0.
Proof. unfold overlap. simpl. apply py_sum_fmap_zero. Qed.

(** One round of the loop on a positive modulus: no exception, and the
    array handed to [argmax] has length [p] and holds the overlaps. *)
Lemma local_offset_spec order A B p :
  0 < p →
  ∃ corr, local_offset order A B p = Ret (argmax corr)
          ∧ len corr = p
          ∧ ∀ j, 0 ≤ j < p →
                 item corr j = overlap p (order A) (order B) j.
Proof.
  intros Hp. unfold local_offset.
  destruct (np_zeros_spec p Hp) as (z & -> & Hz & Hz0).
  rewrite !bind_ret.
  destruct (histogram_spec p (fun r => r) (order A) z Hp Hz)
    as (a & -> & Ha & Hca); [lia|].
  rewrite bind_ret.
  destruct (histogram_spec p (fun r => - r) (order B) z Hp Hz)
    as (b & -> & Hb & Hcb); [lia|].
  rewrite bind_ret. unfold fft_convolve.
  destruct (Z.eqb_spec (len a) 0) as [|_]; [lia|]. rewrite bind_ret.
  exists (circular_convolution a b).
  split; [done|]. split; [by rewrite len_circular_convolution|].
  intros j Hj. apply convolution_counts_overlap; try done.
  - intros i Hi. rewrite Hca, Hz0 by done. lia.
  - intros i Hi. rewrite Hcb, Hz0 by done. lia.
Qed.

End Correlation.

(** ** The local offsets *)

Section LocalOffsets.

(** Every round of the loop succeeds on positive moduli, and each offset
    is the first maximum of the overlaps modulo its modulus. *)
Lemma local_offsets_spec order A B modulos :
  Forall (fun p => 0 < p) modulos →
  ∃ offsets,
    local_offsets order A B modulos = Ret offsets
    ∧ Forall2 (fun p o =>
                 ∃ corr, o = argmax corr ∧ 0 < len corr ∧ len corr = p
                         ∧ ∀ j, 0 ≤ j < p →
                                item corr j
                                = overlap p (order A) (order B) j)
              modulos offsets.
Proof.
  unfold local_offsets. induction 1 as [|p modulos Hp _ IH].
  - exists []. by split.
  - destruct IH as (offsets & Hoffs & Hall).
    destruct (local_offset_spec order A B p Hp) as (corr & Ho & Hlen & Hcorr).
    exists (argmax corr :: offsets). split.
    + by rewrite mapM_res_cons, Ho, bind_ret, Hoffs, bind_ret.
    + constructor; [|done]. exists corr. split_and!; [done|lia|done|done].
Qed.

(** A modulus that is not positive stops the loop with an exception. *)
Lemma local_offset_nonpositive order A B p :
  p ≤ 0 → ∃ e, local_offset order A B p = Exc e.
Proof.
  intros Hp. destruct (Z.eq_dec p 0) as [->|Hne].
  - unfold local_offset. simpl.
    destruct (order A) as [|x xs]; [|by eexists].
    destruct (order B) as [|y ys]; by eexists.
  - unfold local_offset, np_zeros.
    destruct (Z.ltb_spec p 0); [by eexists|lia].
Qed.

Lemma local_offsets_positive order A B modulos offsets :
  local_offsets order A B modulos = Ret offsets →
  Forall (fun p => 0 < p) modulos.
Proof.
  unfold local_offsets. revert offsets.
  induction modulos as [|p modulos IH]; intros offsets; [done|].
  rewrite mapM_res_cons.
  destruct (Z.lt_ge_cases 0 p) as [Hp|Hp].
  - destruct (local_offset order A B p) as [o|]; [|done]. rewrite bind_ret.
    destruct (mapM (local_offset order A B) modulos) as [os|]; [|done].
    intros _. constructor; [done|]. by eapply IH.
  - destruct (local_offset_nonpositive order A B p Hp) as [e ->]. done.
Qed.

Lemma enumerates_empty order : enumerates order → order ∅ = [].
Proof.
  intros Horder. apply Permutation_nil_r.
  by rewrite (Horder ∅), elements_empty.
Qed.

(** With an empty sample every overlap is zero and every offset is 0. *)
Lemma local_offsets_empty order A B modulos :
  enumerates order → Forall (fun p => 0 < p) modulos →
  A = ∅ ∨ B = ∅ →
  ∃ offsets, local_offsets order A B modulos = Ret offsets
             ∧ Forall (fun o => o = 0) offsets
             ∧ length modulos = length offsets.
Proof.
  intros Horder Hpos Hempty.
  destruct (local_offsets_spec order A B modulos Hpos) as (offsets & Ho & Hall).
  exists offsets. split; [done|]. split; [|by eapply Forall2_length].
  eapply Forall2_Forall_r; [exact Hall|].
  apply Forall_forall. intros p _ o (corr & -> & Hp & Hlen & Hcorr).
  apply argmax_constant with 0; [lia|].
  intros j Hj. rewrite Hcorr by lia.
  destruct Hempty as [-> | ->]; rewrite enumerates_empty by done.
  - apply overlap_nil_l.
  - apply overlap_nil_r.
Qed.

Lemma find_max_overlap_empty order A B modulos :
  enumerates order →
  Forall (fun p => 0 < p) modulos → pairwise_coprime modulos →
  A = ∅ ∨ B = ∅ →
  find_max_overlap order A B modulos = Ret 0.
Proof.
  intros Horder Hpos Hpc Hempty. unfold find_max_overlap.
  destruct (local_offsets_empty order A B modulos Horder Hpos Hempty)
    as (offsets & -> & Hzero & Hlen).
  rewrite bind_ret.
  destruct (crt_spec modulos offsets Hpos Hpc Hlen) as (k & -> & Hk & Hcong).
  f_equal. symmetry.
  apply (congruent_unique modulos offsets); try done.
  - pose proof (math_prod_pos _ Hpos). lia.
  - apply Forall2_same_length_lookup. split; [done|].
    intros i p o _ Ho.
    eapply Forall_forall in Hzero; [|by eapply list_elem_of_lookup_2].
    by rewrite Hzero.
Qed.

End LocalOffsets.

(** C9. Every local offset that the loop of [find_max_overlap] records
    lies in [[0, p)] for its modulus [p], so the residues handed to the
    Chinese remainder step are residues of their moduli; and on positive
    moduli every round of the loop does record one. *)
Theorem local_offsets_in_range order (A B : gset Z) (modulos : list Z) :
  (∀ offsets, local_offsets order A B modulos = Ret offsets →
              Forall2 (fun p o => 0 ≤ o < p) modulos offsets)
  ∧ (Forall (fun p => 0 < p) modulos →
     ∃ offsets, local_offsets order A B modulos = Ret offsets).
Proof.
  split.
  - intros offsets Hoffs.
    pose proof (local_offsets_positive _ _ _ _ _ Hoffs) as Hpos.
    destruct (local_offsets_spec order A B modulos Hpos) as (offsets' & Ho & Hall).
    assert (offsets' = offsets) as -> by congruence.
    eapply Forall2_impl; [exact Hall|]. simpl.
    intros p o (corr & -> & Hp & <- & _). by apply argmax_range.
  - intros Hpos.
    destruct (local_offsets_spec order A B modulos Hpos) as (offsets & Ho & _).
    by exists offsets.
Qed.

Lemma local_offsets_in_range_witness :
  Forall2 (fun p o => 0 ≤ o < p) [13; 15; 17] [11; 8; 9]
  ∧ ∃ offsets,
      local_offsets elements {[129; 133; 137]} {[1; 5; 9]} [13; 15; 17]
      = Ret offsets.
Proof.
  destruct (local_offsets_in_range elements {[129; 133; 137]} {[1; 5; 9]}
              [13; 15; 17]) as [Hrange Hdefined].
  split.
  - apply Hrange. by vm_compute.
  - apply Hdefined. repeat constructor.
Defined.

(** ** Floating point

    What the program needs of binary64: which integers have a float, that
    small ones are their own float, that rounding keeps the sign, and that
    a product below [2**1023] is finite. *)

Section Floats.

Lemma digits2_pos_size m : digits2_pos m = Pos.size m.
Proof. induction m as [m IH|m IH|]; simpl; by rewrite ?IH. Qed.

Lemma digits2_pos_log2 m : Z.pos (digits2_pos m) = Z.log2 (Z.pos m) + 1.
Proof.
  rewrite digits2_pos_size. destruct m; simpl; rewrite ?Pos2Z.inj_succ; lia.
Qed.

Lemma digits2_pos_bounds m :
  2 ^ (Z.pos (digits2_pos m) - 1) ≤ Z.pos m < 2 ^ Z.pos (digits2_pos m).
Proof.
  rewrite digits2_pos_log2.
  pose proof (Z.log2_spec (Z.pos m) ltac:(lia)) as H.
  replace (Z.log2 (Z.pos m) + 1 - 1) with (Z.log2 (Z.pos m)) by lia.
  by replace (Z.log2 (Z.pos m) + 1) with (Z.succ (Z.log2 (Z.pos m))) by lia.
Qed.

(** The number of digits of a number between two powers of two. *)
Lemma digits2_pos_unique m d :
  2 ^ (d - 1) ≤ Z.pos m < 2 ^ d → Z.pos (digits2_pos m) = d.
Proof.
  intros H. rewrite digits2_pos_log2.
  assert (0 < d) as Hd.
  { destruct (Z.lt_ge_cases 0 d) as [|Hle]; [done|].
    rewrite (Z.pow_neg_r 2 (d - 1)) in H by lia.
    destruct (Z.eq_dec d 0) as [->|]; [simpl in H; lia|].
    rewrite (Z.pow_neg_r 2 d) in H by lia. lia. }
  pose proof (Z.log2_unique (Z.pos m) (d - 1) ltac:(lia)) as Hu.
  replace (Z.succ (d - 1)) with d in Hu by lia. specialize (Hu H). lia.
Qed.

Lemma pos_iter_xO m d : Z.pos (Pos.iter xO m d) = Z.pos m * 2 ^ Z.pos d.
Proof.
  induction d as [|d IH] using Pos.peano_ind.
  - simpl. lia.
  - rewrite Pos.iter_succ, Pos2Z.inj_xO, IH, Pos2Z.inj_succ, Z.pow_succ_r by lia.
    lia.
Qed.

Lemma iter_pos_nat {A} (f : A → A) p x :
  SpecFloat.iter_pos f p x = Nat.iter (Pos.to_nat p) f x.
Proof.
  revert x. induction p as [p IH|p IH|]; intros x; cbn [SpecFloat.iter_pos].
  - rewrite !IH, Pos2Nat.inj_xI, Nat.iter_succ_r.
    replace (2 * Pos.to_nat p)%nat with (Pos.to_nat p + Pos.to_nat p)%nat by lia.
    by rewrite Nat.iter_add.
  - rewrite !IH, Pos2Nat.inj_xO.
    replace (2 * Pos.to_nat p)%nat with (Pos.to_nat p + Pos.to_nat p)%nat by lia.
    by rewrite Nat.iter_add.
  - done.
Qed.

Lemma shr_1_shifted m0 n mrs :
  0 ≤ n → shifted m0 n mrs → shifted m0 (n + 1) (shr_1 mrs).
Proof.
  intros Hn (Hm & rest & Hm0 & Hrest & Hloc).
  pose proof (Z.pow_pos_nonneg 2 n ltac:(lia) Hn) as Hpow.
  unfold shifted, loc_of in *.
  replace (2 ^ (n + 1)) with (2 ^ n * 2) by (rewrite Z.pow_add_r; lia).
  destruct mrs as [m r s]. simpl in *.
  assert (rest = 0 ∧ r = false ∧ s = false ∨ rest ≠ 0 ∧ orb r s = true) as Hrs.
  { destruct (Z.eqb_spec rest 0); destruct r, s; simpl in *; try done; auto. }
  destruct m as [|[m|m|]|m]; simpl; try lia.
  - (* 0 *)
    split; [done|]. exists rest. split; [lia|]. split; [lia|].
    destruct Hrs as [(-> & -> & ->)|[Hrest0 ->]]; simpl; [done|].
    destruct (Z.eqb_spec rest 0); [done|].
    by destruct (Z.compare_spec (2 * rest) (2 ^ n * 2)); try lia.
  - (* 2m+1 *)
    split; [lia|]. exists (2 ^ n + rest). split; [lia|]. split; [lia|].
    destruct (Z.eqb_spec (2 ^ n + rest) 0); [lia|].
    destruct Hrs as [(-> & -> & ->)|[Hrest0 ->]]; simpl.
    + by destruct (Z.compare_spec (2 * (2 ^ n + 0)) (2 ^ n * 2)); try lia.
    + by destruct (Z.compare_spec (2 * (2 ^ n + rest)) (2 ^ n * 2)); try lia.
  - (* 2m *)
    split; [lia|]. exists rest. split; [lia|]. split; [lia|].
    destruct Hrs as [(-> & -> & ->)|[Hrest0 ->]]; simpl; [done|].
    destruct (Z.eqb_spec rest 0); [done|].
    by destruct (Z.compare_spec (2 * rest) (2 ^ n * 2)); try lia.
  - (* 1 *)
    split; [done|]. exists (2 ^ n + rest). split; [lia|]. split; [lia|].
    destruct (Z.eqb_spec (2 ^ n + rest) 0); [lia|].
    destruct Hrs as [(-> & -> & ->)|[Hrest0 ->]]; simpl.
    + by destruct (Z.compare_spec (2 * (2 ^ n + 0)) (2 ^ n * 2)); try lia.
    + by destruct (Z.compare_spec (2 * (2 ^ n + rest)) (2 ^ n * 2)); try lia.
Qed.

Lemma iter_shr_1_shifted m0 (n : nat) :
  0 ≤ m0 →
  shifted m0 (Z.of_nat n)
    (Nat.iter n shr_1 {| shr_m := m0; shr_r := false; shr_s := false |}).
Proof.
  intros Hm0. induction n as [|n IH].
  - split; [done|]. exists 0. simpl. split; [lia|]. split; [lia|done].
  - rewrite Nat2Z.inj_succ. change (Z.succ (Z.of_nat n)) with (Z.of_nat n + 1).
    simpl. apply shr_1_shifted; [lia|done].
Qed.

(** Shifting [m0] right by [p] digits: the quotient, with the place of the
    remainder. *)
Lemma shr_spec m0 p :
  0 ≤ m0 →
  let mrs := SpecFloat.iter_pos shr_1 p {| shr_m := m0; shr_r := false; shr_s := false |} in
  shr_m mrs = m0 / 2 ^ Z.pos p
  ∧ loc_of_shr_record mrs = loc_of (m0 mod 2 ^ Z.pos p) (Z.pos p).
Proof.
  intros Hm0. simpl. rewrite iter_pos_nat.
  destruct (iter_shr_1_shifted m0 (Pos.to_nat p) Hm0) as (Hm & rest & Heq & Hrest & Hloc).
  rewrite positive_nat_Z in *.
  set (mrs := Nat.iter _ _ _) in *.
  assert (shr_m mrs = m0 / 2 ^ Z.pos p) as Hq.
  { apply (Z.div_unique_pos m0 (2 ^ Z.pos p) (shr_m mrs) rest); lia. }
  assert (rest = m0 mod 2 ^ Z.pos p) as <-.
  { apply (Z.mod_unique_pos m0 (2 ^ Z.pos p) (shr_m mrs) rest); lia. }
  done.
Qed.


Lemma fexp_eq e : fexp prec emax e = Z.max (e - 53) (-1074).
Proof. done. Qed.

(** Rounding to nearest, ties to even, moves to a neighbour. *)
Lemma round_nearest_even_range q l :
  q ≤ round_nearest_even q l ≤ q + 1.
Proof. destruct l as [|[]]; simpl; try lia. destruct (Z.even q); lia. Qed.

Lemma round_nearest_even_exact q n : round_nearest_even q (loc_of 0 n) = q.
Proof. done. Qed.

Lemma round_nearest_even_down q rest n :
  2 * rest < 2 ^ n → round_nearest_even q (loc_of rest n) = q.
Proof.
  intros H. unfold loc_of. destruct (rest =? 0); [done|].
  by destruct (Z.compare_spec (2 * rest) (2 ^ n)); try lia.
Qed.

Lemma round_nearest_even_up q rest n :
  0 < rest → Z.even q = false → 2 ^ n ≤ 2 * rest →
  round_nearest_even q (loc_of rest n) = q + 1.
Proof.
  intros Hrest Hq H. unfold loc_of. destruct (Z.eqb_spec rest 0); [lia|].
  destruct (Z.compare_spec (2 * rest) (2 ^ n)); simpl; try lia.
  by rewrite Hq.
Qed.

(** A number that needs no shift is kept as it is. *)
Lemma binary_round_aux_kept sx m e :
  fexp prec emax (Z.pos (digits2_pos m) + e) ≤ e →
  binary_round_aux prec emax sx (Z.pos m) e loc_Exact
  = if e <=? emax - prec then S754_finite sx m e else S754_infinity sx.
Proof.
  intros H. unfold binary_round_aux, shr_fexp, shr. cbn [Zdigits2 shr_record_of_loc].
  destruct (fexp prec emax (Z.pos (digits2_pos m) + e) - e) as [|p|p] eqn:Hs;
    [|lia|]; cbn [shr_m loc_of_shr_record round_nearest_even Zdigits2];
    rewrite Hs; done.
Qed.

(** The second alignment of [binary_round_aux], after the rounding of a
    full mantissa: a carry into the next binade costs one more shift. *)
Lemma shr_fexp_carry q e :
  2 ^ 52 ≤ q ≤ 2 ^ 53 → -1074 ≤ e →
  ∃ mrs, shr_fexp prec emax q e loc_Exact
         = (mrs, if q =? 2 ^ 53 then e + 1 else e)
         ∧ shr_m mrs = (if q =? 2 ^ 53 then 2 ^ 52 else q).
Proof.
  intros Hq He. destruct q as [|q|q]; try lia.
  unfold shr_fexp, shr. cbn [Zdigits2 shr_record_of_loc]. rewrite fexp_eq.
  destruct (Z.eqb_spec (Z.pos q) (2 ^ 53)) as [Heq|Hne].
  - rewrite (digits2_pos_unique q 54) by (change (54 - 1) with 53; lia).
    replace (Z.max (54 + e - 53) (-1074) - e) with 1 by lia.
    eexists. split; [done|].
    destruct (shr_spec (Z.pos q) 1 ltac:(lia)) as [-> _]. by rewrite Heq.
  - rewrite (digits2_pos_unique q 53) by (change (53 - 1) with 52; lia).
    replace (Z.max (53 + e - 53) (-1074) - e) with 0 by lia.
    by eexists.
Qed.

(** A number that must lose [p] digits, down to a full mantissa. *)
Lemma binary_round_aux_shifted sx m e p :
  Z.pos (digits2_pos m) = 53 + Z.pos p → -1074 ≤ e + Z.pos p →
  let q := round_nearest_even (Z.pos m / 2 ^ Z.pos p)
             (loc_of (Z.pos m mod 2 ^ Z.pos p) (Z.pos p)) in
  2 ^ 52 ≤ q ≤ 2 ^ 53
  ∧ ∃ m', Z.pos m' = (if q =? 2 ^ 53 then 2 ^ 52 else q)
          ∧ binary_round_aux prec emax sx (Z.pos m) e loc_Exact
            = let e' := (if q =? 2 ^ 53 then e + Z.pos p + 1 else e + Z.pos p) in
              if e' <=? emax - prec then S754_finite sx m' e'
              else S754_infinity sx.
Proof.
  intros Hd He q.
  pose proof (digits2_pos_bounds m) as Hm. rewrite Hd in Hm.
  pose proof (Z.pow_pos_nonneg 2 (Z.pos p) ltac:(lia) ltac:(lia)) as Hp.
  assert (2 ^ 52 ≤ Z.pos m / 2 ^ Z.pos p < 2 ^ 53) as Hdiv.
  { replace (53 + Z.pos p - 1) with (52 + Z.pos p) in Hm by lia.
    rewrite !Z.pow_add_r in Hm by lia. split.
    - apply Z.div_le_lower_bound; lia.
    - apply Z.div_lt_upper_bound; lia. }
  pose proof (round_nearest_even_range (Z.pos m / 2 ^ Z.pos p)
                (loc_of (Z.pos m mod 2 ^ Z.pos p) (Z.pos p))) as Hr.
  fold q in Hr. split; [lia|].
  destruct (shr_fexp_carry q (e + Z.pos p)) as (mrs & Hs & Hmrs); [lia|lia|].
  assert (∃ m', Z.pos m' = (if q =? 2 ^ 53 then 2 ^ 52 else q)) as [m' Hm'].
  { destruct (q =? 2 ^ 53); [by exists (2 ^ 52)%positive|].
    destruct q as [|q'|q']; try lia. by exists q'. }
  exists m'. split; [done|].
  unfold binary_round_aux, shr_fexp at 1, shr. cbn [Zdigits2 shr_record_of_loc].
  rewrite fexp_eq, Hd.
  replace (Z.max (53 + Z.pos p + e - 53) (-1074) - e) with (Z.pos p) by lia.
  destruct (shr_spec (Z.pos m) p ltac:(lia)) as [Hq Hl].
  rewrite Hq, Hl. fold q. rewrite Hs, Hmrs, <- Hm'.
  by destruct (q =? 2 ^ 53).
Qed.

(** [float(n)] for a positive integer: written on at most 53 digits it is
    kept exactly, beyond the largest float it overflows. *)
Lemma binary_round_small sx m :
  Z.pos m < 2 ^ 53 →
  ∃ m', Z.pos m' = Z.pos m * 2 ^ (53 - Z.pos (digits2_pos m))
        ∧ binary_round prec emax sx m 0
          = S754_finite sx m' (Z.pos (digits2_pos m) - 53).
Proof.
  intros Hm. pose proof (digits2_pos_bounds m) as Hd.
  unfold binary_round, shl_align. rewrite fexp_eq.
  remember (Z.pos (digits2_pos m)) as d eqn:Hdd.
  assert (d ≤ 53) as Hd53.
  { destruct (Z.le_gt_cases d 53) as [|Hgt]; [done|].
    pose proof (Z.pow_le_mono_r 2 53 (d - 1) ltac:(lia) ltac:(lia)). lia. }
  replace (Z.max (d + 0 - 53) (-1074) - 0) with (d - 53) by lia.
  destruct (d - 53) as [|k|k] eqn:Hk; [|lia|].
  - exists m. assert (d = 53) as -> by lia. split; [simpl; lia|].
    rewrite binary_round_aux_kept; [done|]. rewrite fexp_eq, <- Hdd. clear. lia.
  - exists (Pos.iter xO m k). split.
    { rewrite pos_iter_xO. by replace (53 - d) with (Z.pos k) by lia. }
    assert (Z.pos (digits2_pos (Pos.iter xO m k)) = 53) as Hd'.
    { apply digits2_pos_unique. rewrite pos_iter_xO. change (53 - 1) with 52.
      assert (2 ^ 52 = 2 ^ (d - 1) * 2 ^ Z.pos k) as ->.
      { rewrite <- Z.pow_add_r by lia. f_equal. lia. }
      assert (2 ^ 53 = 2 ^ d * 2 ^ Z.pos k) as ->.
      { rewrite <- Z.pow_add_r by lia. f_equal. lia. }
      pose proof (Z.pow_pos_nonneg 2 (Z.pos k) ltac:(lia) ltac:(lia)). nia. }
    replace (Z.max (d + 0 - 53) (-1074)) with (Z.neg k) by lia.
    rewrite binary_round_aux_kept.
    + 
      replace (d - 53) with (Z.neg k) by lia.
      by destruct (Z.leb_spec (Z.neg k) (emax - prec)); [|unfold emax, prec in *; lia].
    + rewrite Hd', fexp_eq. lia.
Qed.

Lemma FLOAT_LIMIT_eq : FLOAT_LIMIT = (2 ^ 54 - 1) * 2 ^ 970.
Proof. done. Qed.

Lemma binary_round_int sx m :
  (Z.pos m < FLOAT_LIMIT →
   ∃ m' e', binary_round prec emax sx m 0 = S754_finite sx m' e')
  ∧ (FLOAT_LIMIT ≤ Z.pos m → binary_round prec emax sx m 0 = S754_infinity sx).
Proof.
  destruct (Z.lt_ge_cases (Z.pos m) (2 ^ 53)) as [Hsmall|Hbig].
  { destruct (binary_round_small sx m Hsmall) as (m' & _ & ->).
    split; [eexists _, _; reflexivity|]. rewrite FLOAT_LIMIT_eq. intros H.
    assert (2 ^ 53 ≤ (2 ^ 54 - 1) * 2 ^ 970); [|lia].
    pose proof (Z.pow_pos_nonneg 2 970 ltac:(lia) ltac:(lia)). nia. }
  pose proof (digits2_pos_bounds m) as Hd.
  unfold binary_round, shl_align. rewrite fexp_eq.
  remember (Z.pos (digits2_pos m)) as d eqn:Hdd.
  assert (53 < d) as Hd53.
  { destruct (Z.lt_ge_cases 53 d) as [|Hle]; [done|].
    pose proof (Z.pow_le_mono_r 2 d 53 ltac:(lia) ltac:(lia)). lia. }
  replace (Z.max (d + 0 - 53) (-1074) - 0) with (d - 53) by lia.
  destruct (d - 53) as [|p|p] eqn:Hp; [lia| |lia].
  destruct (binary_round_aux_shifted sx m 0 p) as (Hq & m' & Hm' & ->);
    [lia|lia|].
  set (q := round_nearest_even _ _) in *. cbv zeta.
  change (emax - prec) with 971. rewrite !Z.add_0_l.
  rewrite FLOAT_LIMIT_eq.
  pose proof (Z.pow_pos_nonneg 2 970 ltac:(lia) ltac:(lia)) as HX.
  destruct (Z.lt_trichotomy (Z.pos p) 971) as [Hlt|[Heq|Hgt]].
  - (* fewer than 1024 digits *)
    assert (Z.pos m < 2 ^ 1023) as Hm.
    { pose proof (Z.pow_le_mono_r 2 d 1023 ltac:(lia) ltac:(lia)). lia. }
    change (2 ^ 1023) with (2 ^ 53 * 2 ^ 970) in Hm.
    split; [|intros; nia]. intros _.
    destruct (q =? 2 ^ 53).
    + destruct (Z.leb_spec (Z.pos p + 1) 971); [eexists _, _; reflexivity|lia].
    + destruct (Z.leb_spec (Z.pos p) 971); [eexists _, _; reflexivity|lia].
  - (* 1024 digits *)
    assert (p = 971%positive) as -> by lia. subst q.
    pose proof (Z.div_mod (Z.pos m) (2 ^ 971) ltac:(lia)) as Hdm.
    pose proof (Z.mod_pos_bound (Z.pos m) (2 ^ 971) ltac:(lia)) as Hrest.
    set (q := Z.pos m / 2 ^ 971) in *. set (rest := Z.pos m mod 2 ^ 971) in *.
    assert (2 ^ 52 ≤ q < 2 ^ 53) as Hq0.
    { replace d with 1024 in Hd by lia.
      change (2 ^ (1024 - 1)) with (2 ^ 52 * 2 ^ 971) in Hd.
      change (2 ^ 1024) with (2 ^ 53 * 2 ^ 971) in Hd. subst q. split.
      - apply Z.div_le_lower_bound; lia.
      - apply Z.div_lt_upper_bound; lia. }
    change (2 ^ 971) with (2 * 2 ^ 970) in Hdm, Hrest.
    destruct (Z.lt_ge_cases (Z.pos m) ((2 ^ 54 - 1) * 2 ^ 970)) as [Hm|Hm].
    + split; [|lia]. intros _.
      assert (round_nearest_even q (loc_of rest 971) < 2 ^ 53) as Hr.
      { destruct (Z.eq_dec q (2 ^ 53 - 1)) as [Hq1|Hq1].
        - rewrite round_nearest_even_down; [lia|].
          change (2 ^ 971) with (2 * 2 ^ 970). nia.
        - pose proof (round_nearest_even_range q (loc_of rest 971)). lia. }
      destruct (Z.eqb_spec (round_nearest_even q (loc_of rest 971)) (2 ^ 53)); [lia|].
      eexists _, _; reflexivity.
    + split; [lia|]. intros _.
      assert (q = 2 ^ 53 - 1) as Hq1 by nia.
      rewrite round_nearest_even_up.
      * rewrite Hq1. done.
      * nia.
      * by rewrite Hq1.
      * change (2 ^ 971) with (2 * 2 ^ 970). nia.
  - (* more than 1024 digits *)
    assert (2 ^ 1024 ≤ Z.pos m) as Hm.
    { pose proof (Z.pow_le_mono_r 2 1024 (d - 1) ltac:(lia) ltac:(lia)). lia. }
    change (2 ^ 1024) with (2 ^ 54 * 2 ^ 970) in Hm.
    split; [intros; nia|]. intros _.
    destruct (q =? 2 ^ 53).
    + by destruct (Z.leb_spec (Z.pos p + 1) 971); [lia|].
    + by destruct (Z.leb_spec (Z.pos p) 971); [lia|].
Qed.


Lemma float_of_int_defined a :
  a ≠ 0 → Z.abs a < FLOAT_LIMIT →
  ∃ m e, float_of_int a = Ret (S754_finite (a <? 0) m e).
Proof.
  intros Ha Hlim. unfold float_of_int, binary_normalize.
  destruct a as [|m|m]; [done| |].
  - destruct (binary_round_int false m) as [(m' & e' & ->) _]; [lia|].
    by exists m', e'.
  - destruct (binary_round_int true m) as [(m' & e' & ->) _]; [lia|].
    by exists m', e'.
Qed.

Lemma float_of_int_overflow a :
  FLOAT_LIMIT ≤ Z.abs a → float_of_int a = Exc OverflowError.
Proof.
  intros Hlim. unfold float_of_int, binary_normalize.
  destruct a as [|m|m]; [done| |].
  - by rewrite (proj2 (binary_round_int false m)) by (cbn [Z.abs] in Hlim; lia).
  - by rewrite (proj2 (binary_round_int true m)) by (cbn [Z.abs] in Hlim; lia).
Qed.

(** An integer written on at most 53 digits is its own float. *)
Lemma float_of_int_exact L :
  0 < L < 2 ^ 53 →
  ∃ m, Z.pos m = L * 2 ^ (52 - Z.log2 L)
       ∧ 2 ^ 52 ≤ Z.pos m < 2 ^ 53
       ∧ float_of_int L = Ret (S754_finite false m (Z.log2 L - 52)).
Proof.
  intros HL. destruct L as [|l|l]; try lia.
  destruct (binary_round_small false l) as (m & Hm & Hr); [lia|].
  rewrite digits2_pos_log2 in Hm, Hr.
  replace (53 - (Z.log2 (Z.pos l) + 1)) with (52 - Z.log2 (Z.pos l)) in Hm by lia.
  replace (Z.log2 (Z.pos l) + 1 - 53) with (Z.log2 (Z.pos l) - 52) in Hr by lia.
  exists m. split; [done|]. split.
  - rewrite Hm. pose proof (Z.log2_spec (Z.pos l) ltac:(lia)) as Hlog.
    pose proof (Z.log2_nonneg (Z.pos l)) as Hnn.
    assert (Z.log2 (Z.pos l) ≤ 52) as Hle.
    { destruct (Z.le_gt_cases (Z.log2 (Z.pos l)) 52) as [|Hgt]; [done|].
      pose proof (Z.pow_le_mono_r 2 53 (Z.log2 (Z.pos l)) ltac:(lia) ltac:(lia)).
      lia. }
    assert (2 ^ 52 = 2 ^ Z.log2 (Z.pos l) * 2 ^ (52 - Z.log2 (Z.pos l))) as ->.
    { rewrite <- Z.pow_add_r by lia. f_equal. lia. }
    assert (2 ^ 53 = 2 ^ Z.succ (Z.log2 (Z.pos l)) * 2 ^ (52 - Z.log2 (Z.pos l)))
      as ->.
    { rewrite <- Z.pow_add_r by lia. f_equal. lia. }
    pose proof (Z.pow_pos_nonneg 2 (52 - Z.log2 (Z.pos l)) ltac:(lia) ltac:(lia)).
    nia.
  - unfold float_of_int, binary_normalize. by rewrite Hr.
Qed.

(** Rounding gives the sign it is told. *)
Lemma binary_round_aux_not_negative m e l :
  not_negative (binary_round_aux prec emax false m e l).
Proof.
  unfold binary_round_aux.
  destruct (shr_fexp prec emax m e l) as [mrs1 e1].
  destruct (shr_fexp prec emax _ e1 loc_Exact) as [mrs2 e2].
  destruct (shr_m mrs2); [done| |done].
  by destruct (e2 <=? emax - prec).
Qed.

Lemma int_of_float_not_negative x n :
  not_negative x → int_of_float x = Ret n → 0 ≤ n.
Proof.
  destruct x as [s|s| |s m e]; simpl; try done.
  - by intros _ [= <-].
  - destruct s; [done|]. intros _ [= <-]. simpl.
    destruct (Z.leb_spec 0 e).
    + pose proof (Z.pow_nonneg 2 e ltac:(lia)). nia.
    + apply Z.div_pos; [lia|]. apply Z.pow_pos_nonneg; lia.
Qed.

Lemma float_min_not_negative x y :
  not_negative x → not_negative y → not_negative (float_min x y).
Proof. intros Hx Hy. unfold float_min. by destruct (SFltb y x). Qed.

(** The default slack factor is computed for every alignment but zero and
    those that have no float. *)
Lemma default_slack_cases a :
  match default_slack a with
  | Ret f => a ≠ 0 ∧ Z.abs a < FLOAT_LIMIT ∧ (0 < a → not_negative f)
  | Exc ZeroDivisionError => a = 0
  | Exc OverflowError => FLOAT_LIMIT ≤ Z.abs a
  | Exc _ => False
  end.
Proof.
  unfold default_slack.
  destruct (Z.eq_dec a 0) as [->|Ha]; [done|].
  destruct (Z.lt_ge_cases (Z.abs a) FLOAT_LIMIT) as [Hlim|Hlim].
  - destruct (float_of_int_defined a Ha Hlim) as (m & e & ->).
    cbn [mbind res_bind float_div]. split; [done|]. split; [done|].
    intros Hpos. apply float_min_not_negative; [done|].
    destruct (Z.ltb_spec a 0); [lia|].
    change (float_lit 16 0) with (S754_finite false 4503599627370496 (-48)).
    cbn [SFdiv].
    destruct (SFdiv_core_binary _ _ _ _ _ _) as [[mz ez] lz].
    apply binary_round_aux_not_negative.
  - by rewrite float_of_int_overflow.
Qed.

(** With a factor that is not negative the lower bound is not negative. *)
Lemma lower_bound_not_negative L f n :
  0 ≤ L → not_negative f → lower_bound L f = Ret n → 0 ≤ n.
Proof.
  intros HL Hf. unfold lower_bound.
  destruct (Z.eq_dec L 0) as [->|HL0].
  { cbn [float_of_int binary_normalize mbind res_bind].
    destruct f as [s|s| |s m e]; simpl; try done; by intros [= <-]. }
  destruct (Z.lt_ge_cases (Z.abs L) FLOAT_LIMIT) as [Hlim|Hlim].
  2: { by rewrite float_of_int_overflow. }
  destruct (float_of_int_defined L HL0 Hlim) as (m & e & ->).
  destruct (Z.ltb_spec L 0); [lia|]. cbn [mbind res_bind].
  apply int_of_float_not_negative.
  destruct f as [s|s| |s m' e']; cbn [SFmul xorb]; try done.
  destruct s; [done|]. apply binary_round_aux_not_negative.
Qed.

(** Multiplying the length by [1.0] and truncating gives the length back,
    as long as the length is its own float. *)
Lemma lower_bound_one L :
  0 ≤ L < 2 ^ 53 → lower_bound L (float_lit 1 0) = Ret L.
Proof.
  intros HL. unfold lower_bound.
  destruct (Z.eq_dec L 0) as [->|HL0]; [done|].
  destruct (float_of_int_exact L ltac:(lia)) as (m & Hm & Hrange & ->).
  cbn [mbind res_bind].
  pose proof (Z.log2_nonneg L) as Hnn.
  assert (Z.log2 L ≤ 52) as Hle.
  { destruct (Z.le_gt_cases (Z.log2 L) 52) as [|Hgt]; [done|].
    pose proof (Z.log2_spec L ltac:(lia)).
    pose proof (Z.pow_le_mono_r 2 53 (Z.log2 L) ltac:(lia) ltac:(lia)). lia. }
  change (float_lit 1 0) with (S754_finite false 4503599627370496 (-52)).
  cbn [SFmul xorb].
  destruct (binary_round_aux_shifted false (m * 4503599627370496)
              (Z.log2 L - 52 + -52) 52) as (_ & m' & Hm' & ->).
  { apply digits2_pos_unique. rewrite Pos2Z.inj_mul.
    change (Z.pos 4503599627370496) with (2 ^ 52).
    change (53 + 52 - 1) with (52 + 52). change (53 + 52) with (53 + 52).
    rewrite !Z.pow_add_r by lia. nia. }
  { lia. }
  rewrite Pos2Z.inj_mul in Hm'.
  change (Z.pos 4503599627370496) with (2 ^ 52) in Hm'.
  change (Z.pos 52) with 52 in *.
  rewrite Z.div_mul, Z.mod_mul, round_nearest_even_exact in Hm' by lia.
  rewrite Pos2Z.inj_mul.
  change (Z.pos 4503599627370496) with (2 ^ 52).
  rewrite Z.div_mul, Z.mod_mul, round_nearest_even_exact by lia.
  destruct (Z.eqb_spec (Z.pos m) (2 ^ 53)) as [|_]; [lia|].
  injection Hm' as ->.
  replace (Z.log2 L - 52 + -52 + 52) with (Z.log2 L - 52) by lia.
  change (emax - prec) with 971.
  cbv zeta. rewrite (proj2 (Z.leb_le (Z.log2 L - 52) 971)) by lia.
  cbn [int_of_float cond_Zopp]. f_equal.
  destruct (Z.leb_spec 0 (Z.log2 L - 52)).
  - assert (Z.log2 L = 52) as Hlog by lia. rewrite Hlog in *.
    change (52 - 52) with 0 in *. rewrite Z.pow_0_r in *. lia.
  - replace (- (Z.log2 L - 52)) with (52 - Z.log2 L) by lia.
    rewrite Hm. apply Z.div_mul.
    pose proof (Z.pow_pos_nonneg 2 (52 - Z.log2 L) ltac:(lia) ltac:(lia)). lia.
Qed.

(** For an alignment of at most 16 the quotient [16.0 / a] is at least
    [1.0], and the default slack factor is [1.0]. *)
Lemma default_slack_one a :
  0 < a ≤ 16 → default_slack a = Ret (float_lit 1 0).
Proof.
  intros Ha.
  assert (In a [1; 2; 3; 4; 5; 6; 7; 8; 9; 10; 11; 12; 13; 14; 15; 16]) as Hin.
  { simpl. lia. }
  simpl in Hin.
  repeat (destruct Hin as [<-|Hin]; [by vm_compute|]). done.
Qed.


(** The quotient of a shift, whatever the place the record starts from. *)
Lemma shr_1_m mrs : 0 ≤ shr_m mrs → shr_m (shr_1 mrs) = shr_m mrs / 2.
Proof.
  destruct mrs as [m r s]. cbn [shr_m]. intros Hm.
  destruct m as [|[m|m|]|m]; cbn [shr_1 shr_m]; try lia; try done.
  - apply (Z.div_unique_pos _ 2 (Z.pos m) 1); lia.
  - apply (Z.div_unique_pos _ 2 (Z.pos m) 0); lia.
Qed.

Lemma shr_m_iter (n : nat) mrs :
  0 ≤ shr_m mrs →
  shr_m (Nat.iter n shr_1 mrs) = shr_m mrs / 2 ^ Z.of_nat n.
Proof.
  intros Hm. induction n as [|n IH].
  - simpl. by rewrite Z.div_1_r.
  - rewrite Nat2Z.inj_succ, Z.pow_succ_r by lia. simpl.
    rewrite shr_1_m, IH.
    + rewrite Z.div_div by lia. f_equal. lia.
    + rewrite IH. apply Z.div_pos; [done|]. apply Z.pow_pos_nonneg; lia.
Qed.

(** An alignment of [binary_round_aux]: by how much it shifts, and what
    is left. *)
Lemma shr_fexp_m m e l :
  0 ≤ m →
  ∃ mrs, shr_fexp prec emax m e l
         = (mrs, e + Z.max (fexp prec emax (Zdigits2 m + e) - e) 0)
         ∧ shr_m mrs = m / 2 ^ Z.max (fexp prec emax (Zdigits2 m + e) - e) 0.
Proof.
  intros Hm. unfold shr_fexp, shr.
  assert (shr_m (shr_record_of_loc m l) = m) as Hrec.
  { by destruct l as [|[]]. }
  destruct (fexp prec emax (Zdigits2 m + e) - e) as [|p|p] eqn:Hn.
  - eexists. split; [by rewrite Z.add_0_r|]. rewrite Hrec. simpl.
    by rewrite Z.div_1_r.
  - replace (Z.max (Z.pos p) 0) with (Z.pos p) by lia.
    eexists. split; [done|].
    rewrite iter_pos_nat, shr_m_iter, Hrec, positive_nat_Z by lia. done.
  - replace (Z.max (Z.neg p) 0) with 0 by lia.
    eexists. split; [by rewrite Z.add_0_r|]. rewrite Hrec. by rewrite Z.div_1_r.
Qed.

Lemma Zdigits2_nonneg m : 0 ≤ Zdigits2 m.
Proof. destruct m; simpl; lia. Qed.

Lemma Zdigits2_le m d : 0 ≤ d → 0 ≤ m < 2 ^ d → Zdigits2 m ≤ d.
Proof.
  intros Hd Hm. destruct m as [|m|m]; try lia; [done|].
  pose proof (digits2_pos_bounds m) as Hb. simpl.
  destruct (Z.le_gt_cases (Z.pos (digits2_pos m)) d) as [|Hgt]; [done|].
  pose proof (Z.pow_le_mono_r 2 d (Z.pos (digits2_pos m) - 1)
                ltac:(lia) ltac:(lia)). lia.
Qed.

Lemma Zdigits2_lt m : 0 ≤ m → m < 2 ^ Zdigits2 m.
Proof.
  intros Hm. destruct m as [|m|m]; try lia; [done|].
  apply digits2_pos_bounds.
Qed.

(** The two stages of [binary_round_aux]: align, round to a neighbour,
    align again. *)
Lemma binary_round_aux_stages s m e l :
  0 ≤ m →
  ∃ m1 m2 e2,
    let e1 := e + Z.max (fexp prec emax (Zdigits2 m + e) - e) 0 in
    m / 2 ^ (e1 - e) ≤ m1 ≤ m / 2 ^ (e1 - e) + 1
    ∧ e2 = e1 + Z.max (fexp prec emax (Zdigits2 m1 + e1) - e1) 0
    ∧ m2 = m1 / 2 ^ (e2 - e1)
    ∧ binary_round_aux prec emax s m e l
      = match m2 with
        | Z0 => S754_zero s
        | Z.pos p =>
            if e2 <=? emax - prec then S754_finite s p e2 else S754_infinity s
        | Z.neg _ => S754_nan
        end.
Proof.
  intros Hm. unfold binary_round_aux.
  destruct (shr_fexp_m m e l Hm) as (mrs1 & -> & Hm1).
  set (e1 := e + Z.max (fexp prec emax (Zdigits2 m + e) - e) 0).
  set (m1 := round_nearest_even (shr_m mrs1) (loc_of_shr_record mrs1)).
  pose proof (round_nearest_even_range (shr_m mrs1) (loc_of_shr_record mrs1))
    as Hr. fold m1 in Hr.
  assert (0 ≤ shr_m mrs1) as Hnn.
  { rewrite Hm1. apply Z.div_pos; [done|]. apply Z.pow_pos_nonneg; lia. }
  destruct (shr_fexp_m m1 e1 loc_Exact ltac:(lia)) as (mrs2 & -> & Hm2).
  exists m1, (shr_m mrs2), (e1 + Z.max (fexp prec emax (Zdigits2 m1 + e1) - e1) 0).
  cbv zeta. fold e1.
  replace (e1 - e) with (Z.max (fexp prec emax (Zdigits2 m + e) - e) 0)
    by (unfold e1; lia).
  rewrite <- Hm1. split; [done|]. split; [done|]. split; [|done].
  rewrite Hm2. f_equal. f_equal. lia.
Qed.

(** A float has at most 53 digits. *)
Lemma binary_round_aux_mantissa s m e l s' m' e' :
  0 ≤ m →
  binary_round_aux prec emax s m e l = S754_finite s' m' e' →
  Z.pos m' < 2 ^ 53.
Proof.
  intros Hm.
  destruct (binary_round_aux_stages s m e l Hm)
    as (m1 & m2 & e2 & Hm1 & He2 & Hm2 & ->).
  cbv zeta in *. rewrite !fexp_eq in *.
  set (N1 := Z.max (Z.max (Zdigits2 m + e - 53) (-1074) - e) 0) in *.
  replace (e + N1 - e) with N1 in Hm1 by lia.
  pose proof (Zdigits2_lt m Hm) as Hd.
  pose proof (Zdigits2_nonneg m) as Hd0.
  assert (m / 2 ^ N1 < 2 ^ 53) as Hq.
  { apply Z.div_lt_upper_bound; [apply Z.pow_pos_nonneg; lia|].
    rewrite <- Z.pow_add_r by lia.
    eapply Z.lt_le_trans; [exact Hd|].
    apply Z.pow_le_mono_r; lia. }
  assert (0 ≤ m / 2 ^ N1) as Hq0.
  { apply Z.div_pos; [done|]. apply Z.pow_pos_nonneg; lia. }
  assert (m2 < 2 ^ 53) as Hm2'.
  { subst m2. set (N2 := e2 - (e + N1)).
    assert (0 ≤ N2) as HN2 by (unfold N2; lia).
    destruct (Z.eq_dec m1 (2 ^ 53)) as [->|Hne].
    - assert (1 ≤ N2) as HN2'.
      { unfold N2. rewrite He2. change (Zdigits2 (2 ^ 53)) with 54. lia. }
      apply Z.div_lt_upper_bound; [apply Z.pow_pos_nonneg; lia|].
      pose proof (Z.pow_le_mono_r 2 1 N2 ltac:(lia) ltac:(lia)).
      change (2 ^ 1) with 2 in *. change (2 ^ 53) with 9007199254740992. lia.
    - apply Z.le_lt_trans with m1; [|lia].
      apply Z.div_le_upper_bound; [apply Z.pow_pos_nonneg; lia|].
      pose proof (Z.pow_pos_nonneg 2 N2 ltac:(lia) HN2). nia. }
  destruct m2 as [|p|p]; try done.
  destruct (e2 <=? emax - prec); [|done]. by intros [= _ <- _].
Qed.

(** An aligned number below [2**1023] rounds to a float. *)
Lemma binary_round_aux_finite s m e l :
  2 ^ 52 ≤ m → Zdigits2 m + e ≤ 1023 →
  finite (binary_round_aux prec emax s m e l).
Proof.
  intros Hm Hbound.
  destruct (binary_round_aux_stages s m e l ltac:(lia))
    as (m1 & m2 & e2 & Hm1 & He2 & Hm2 & ->).
  cbv zeta in *. rewrite !fexp_eq in *.
  set (N1 := Z.max (Z.max (Zdigits2 m + e - 53) (-1074) - e) 0) in *.
  replace (e + N1 - e) with N1 in Hm1 by lia.
  pose proof (Zdigits2_lt m ltac:(lia)) as Hd.
  assert (53 ≤ Zdigits2 m) as Hd53.
  { destruct (Z.le_gt_cases 53 (Zdigits2 m)) as [|Hlt]; [done|].
    pose proof (Zdigits2_nonneg m).
    pose proof (Z.pow_le_mono_r 2 (Zdigits2 m) 52 ltac:(lia) ltac:(lia)). lia. }
  assert (m / 2 ^ N1 < 2 ^ 53) as Hq.
  { apply Z.div_lt_upper_bound; [apply Z.pow_pos_nonneg; lia|].
    rewrite <- Z.pow_add_r by lia.
    eapply Z.lt_le_trans; [exact Hd|].
    apply Z.pow_le_mono_r; lia. }
  assert (0 ≤ m / 2 ^ N1) as Hq0.
  { apply Z.div_pos; [lia|]. apply Z.pow_pos_nonneg; lia. }
  assert (Zdigits2 m1 ≤ 54) as Hd1.
  { apply Zdigits2_le; [lia|]. change (2 ^ 54) with (2 * 2 ^ 53). lia. }
  assert (e2 ≤ 971) as He2' by lia.
  assert (0 ≤ m2) as Hm2'.
  { subst m2. apply Z.div_pos; [lia|]. apply Z.pow_pos_nonneg; lia. }
  destruct m2 as [|p|p]; try done.
  change (emax - prec) with 971.
  by destruct (Z.leb_spec e2 971); [|lia].
Qed.

(** The float of a length: a full mantissa and a small exponent. *)
Lemma float_of_int_normal L :
  0 < L < 2 ^ 63 →
  ∃ m e, float_of_int L = Ret (S754_finite false m e)
         ∧ 2 ^ 52 ≤ Z.pos m < 2 ^ 53 ∧ e ≤ 11.
Proof.
  intros HL. destruct (Z.lt_ge_cases L (2 ^ 53)) as [Hsmall|Hbig].
  { destruct (float_of_int_exact L ltac:(lia)) as (m & _ & Hm & ->).
    exists m, (Z.log2 L - 52). split; [done|]. split; [done|].
    pose proof (Z.log2_lt_pow2 L 53 ltac:(lia)). lia. }
  destruct L as [|l|l]; try lia.
  pose proof (digits2_pos_bounds l) as Hd.
  remember (Z.pos (digits2_pos l)) as d eqn:Hdd.
  assert (53 < d ≤ 63) as Hrange.
  { split.
    - destruct (Z.lt_ge_cases 53 d) as [|Hle]; [done|].
      pose proof (Z.pow_le_mono_r 2 d 53 ltac:(lia) ltac:(lia)). lia.
    - destruct (Z.le_gt_cases d 63) as [|Hgt]; [done|].
      pose proof (Z.pow_le_mono_r 2 63 (d - 1) ltac:(lia) ltac:(lia)). lia. }
  unfold float_of_int, binary_normalize, binary_round, shl_align.
  rewrite fexp_eq, <- Hdd.
  replace (Z.max (d + 0 - 53) (-1074) - 0) with (d - 53) by lia.
  destruct (d - 53) as [|p|p] eqn:Hp; [lia| |lia].
  destruct (binary_round_aux_shifted false l 0 p) as (Hq & m' & Hm' & ->);
    [lia|lia|].
  cbv zeta. rewrite !Z.add_0_l. change (emax - prec) with 971.
  set (q := round_nearest_even _ _) in *.
  destruct (Z.eqb_spec q (2 ^ 53)) as [Hq1|Hq1].
  - rewrite (proj2 (Z.leb_le (Z.pos p + 1) 971)) by lia.
    exists m', (Z.pos p + 1). split; [done|]. rewrite Hm'.
    change (2 ^ 52) with 4503599627370496.
    change (2 ^ 53) with 9007199254740992. lia.
  - rewrite (proj2 (Z.leb_le (Z.pos p) 971)) by lia.
    exists m', (Z.pos p). split; [done|]. rewrite Hm'. lia.
Qed.

(** What is below [1.0] has a small exponent. *)
Lemma SFltb_one s m e :
  SFltb (S754_finite s m e) (float_lit 1 0) = true → s = true ∨ e ≤ -52.
Proof.
  change (float_lit 1 0) with (S754_finite false 4503599627370496 (-52)).
  unfold SFltb, SFcompare. destruct s; [by left|]. intros H. right.
  destruct (Z.compare_spec e (-52)); try lia; try done.
Qed.

(** The quotient handed to the rounding is not negative. *)
Lemma SFdiv_core_binary_nonneg m1 e1 m2 e2 :
  0 ≤ (SFdiv_core_binary prec emax (Z.pos m1) e1 (Z.pos m2) e2).1.1.
Proof.
  unfold SFdiv_core_binary. cbv zeta.
  set (sh := _ - _ - _). set (m' := match sh with Z0 => _ | _ => _ end).
  assert (0 ≤ m') as Hm'.
  { unfold m'. destruct sh; try lia. apply Z.shiftl_nonneg. lia. }
  pose proof (Z_div_mod m' (Z.pos m2) ltac:(lia)) as Hdiv.
  destruct (Z.div_eucl m' (Z.pos m2)) as [q r]. simpl.
  destruct Hdiv as [Heq Hr]. nia.
Qed.

(** The quotient [16.0 / x] by a positive float: not negative, and with
    at most 53 digits when it is a number. *)
Lemma SFdiv_positive m1 e1 m2 e2 :
  let q := SFdiv prec emax (S754_finite false m1 e1) (S754_finite false m2 e2) in
  not_negative q
  ∧ ∀ s m e, q = S754_finite s m e → Z.pos m < 2 ^ 53.
Proof.
  cbn [SFdiv xorb].
  pose proof (SFdiv_core_binary_nonneg m1 e1 m2 e2) as Hq.
  destruct (SFdiv_core_binary _ _ _ _ _ _) as [[mz ez] lz]. simpl in Hq.
  split; [apply binary_round_aux_not_negative|].
  intros s m e. by apply binary_round_aux_mantissa.
Qed.

Lemma int_of_float_finite x : finite x → ∃ n, int_of_float x = Ret n.
Proof. destruct x; try done; by eexists. Qed.

Lemma default_slack_finite a s m e :
  float_of_int a = Ret (S754_finite s m e) →
  default_slack a
  = Ret (float_min (float_lit 1 0)
           (SFdiv prec emax (float_lit 16 0) (S754_finite s m e))).
Proof. intros H. unfold default_slack. by rewrite H. Qed.

(** The lower bound of the moduli is computed whenever the slack factor
    is the default one: the product of a length with a factor of at most
    [1.0] is finite. *)
Lemma lower_bound_default a L f :
  0 < a → 0 ≤ L < 2 ^ 63 →
  default_slack a = Ret f → ∃ n, lower_bound L f = Ret n.
Proof.
  intros Ha HL Hf.
  assert (f = float_lit 1 0
          ∨ SFltb f (float_lit 1 0) = true ∧ not_negative f
            ∧ ∀ s m e, f = S754_finite s m e → Z.pos m < 2 ^ 53)
    as Hcases.
  { pose proof (default_slack_cases a) as Hc. rewrite Hf in Hc.
    destruct Hc as (Ha0 & Hlim & _).
    destruct (float_of_int_defined a Ha0 Hlim) as (m & e & Hx).
    pose proof (default_slack_finite _ _ _ _ Hx) as Hd.
    remember (SFdiv prec emax (float_lit 16 0) (S754_finite (a <? 0) m e))
      as q eqn:Hq.
    assert (f = float_min (float_lit 1 0) q) as -> by congruence.
    unfold float_min.
    destruct (SFltb q (float_lit 1 0)) eqn:Hlt; [|by left].
    right. split; [done|]. subst q.
    destruct (Z.ltb_spec a 0); [lia|].
    change (float_lit 16 0) with (S754_finite false 4503599627370496 (-48)).
    apply SFdiv_positive. }
  unfold lower_bound.
  destruct (Z.eq_dec L 0) as [->|HL0].
  { cbn [float_of_int binary_normalize mbind res_bind].
    apply int_of_float_finite.
    destruct Hcases as [->|(Hlt & Hq & _)]; [done|].
    by destruct f as [s|[]| |s m e]. }
  destruct (float_of_int_normal L ltac:(lia)) as (mx & ex & -> & Hmx & Hex).
  cbn [mbind res_bind]. apply int_of_float_finite.
  change (2 ^ 52) with 4503599627370496 in *.
  change (2 ^ 53) with 9007199254740992 in *.
  destruct Hcases as [->|(Hlt & Hq & Hm)].
  - change (float_lit 1 0) with (S754_finite false 4503599627370496 (-52)).
    cbn [SFmul]. apply binary_round_aux_finite.
    + rewrite Pos2Z.inj_mul. change (2 ^ 52) with 4503599627370496. nia.
    + assert (Zdigits2 (Z.pos (mx * 4503599627370496)) ≤ 105); [|lia].
      apply Zdigits2_le; [lia|]. rewrite Pos2Z.inj_mul.
      change (2 ^ 105) with (9007199254740992 * 4503599627370496). nia.
  - destruct f as [s|[]| |s m e]; try done.
    destruct s; [done|].
    apply SFltb_one in Hlt as [|He]; [done|].
    specialize (Hm _ _ _ eq_refl).
    cbn [SFmul]. apply binary_round_aux_finite.
    + rewrite Pos2Z.inj_mul. change (2 ^ 52) with 4503599627370496. nia.
    + assert (Zdigits2 (Z.pos (mx * m)) ≤ 106); [|lia].
      apply Zdigits2_le; [lia|]. rewrite Pos2Z.inj_mul.
      change (2 ^ 106) with (9007199254740992 * 9007199254740992). nia.
Qed.
End Floats.

(** ** The program *)

Section Program.

Lemma upper_bound_width l L :
  0 ≤ l → upper_bound l L = Ret (2 ^ (l * 8) + L).
Proof. intros Hl. unfold upper_bound. by destruct (Z.leb_spec 0 l); [|lia]. Qed.

Lemma lt_pow2_nonneg k e : 0 ≤ e → lt_pow2 k e = (k <? 2 ^ e).
Proof. intros He. unfold lt_pow2. by destruct (Z.leb_spec 0 e); [|lia]. Qed.

(** The moduli the program builds, when the lower bound is not negative. *)
Lemma program_moduli n m :
  0 ≤ n →
  ∃ fuel modulos,
    (∀ fuel', (fuel ≤ fuel')%nat →
              find_coprime_numbers fuel' n m = Some modulos)
    ∧ Forall (fun p => 0 < p) modulos
    ∧ pairwise_coprime modulos
    ∧ m < math_prod modulos.
Proof.
  intros Hn.
  destruct (find_coprime_numbers_terminates n m Hn) as (fuel & l & Hl).
  destruct (find_coprime_numbers_post n m fuel l Hl) as [_ _ _ Habove Hpc Hprod _].
  exists fuel, l. split_and!; try done.
  - intros fuel' Hle. by eapply find_coprime_numbers_fuel_mono.
  - eapply Forall_impl; [exact Habove|]. simpl. lia.
Qed.

End Program.

(** The claim as written fails on the empty blob with the default
    configuration: both sets are empty, and the program prints the
    offset 0, [Offset: 0x0]. *)
Lemma empty_sets_counterexample :
  get_string_addresses [] 5 = Ret ∅
  ∧ get_pointed_addresses [] little 8 8 = Ret ∅
  ∧ main elements 100 default_args [] = Printed [FoundStrings 0] (OffsetPositive 0)
  ∧ render (OffsetPositive 0) = "Offset: 0x0".
Proof. by vm_compute. Qed.

(** C3 (amended). When the string-offset set or the pointer-target set is
    empty, and the configuration lets the program reach the correlation
    (supported endianness, a slack factor with a non-negative lower bound,
    a non-negative pointer width, both extractions succeeding), every
    local offset is 0 and the program reports the offset 0, not
    [not found]. *)
Theorem empty_set_reports_offset_zero order (args : Args) (b : list byte)
    endian f n (strings pointers : gset Z) :
  enumerates order →
  parse_endian (arg_e args) = Some endian →
  slack args = Ret f →
  lower_bound (len b) f = Ret n →
  0 ≤ n →
  0 ≤ arg_l args →
  get_string_addresses b (arg_n args) = Ret strings →
  get_pointed_addresses b endian (arg_l args) (alignment args) = Ret pointers →
  strings = ∅ ∨ pointers = ∅ →
  ∃ fuel, ∀ fuel', (fuel ≤ fuel')%nat →
    main order fuel' args b
    = Printed [FoundStrings (size strings)] (OffsetPositive 0).
Proof.
  intros Horder He Hf Hlow Hn Hl Hs Hp Hempty.
  destruct (program_moduli n (2 ^ (arg_l args * 8) + len b) Hn)
    as (fuel & modulos & Hfuel & Hpos & Hpc & Hprod).
  exists fuel. intros fuel' Hle. unfold main.
  rewrite He, Hf, Hs, Hp, Hlow, (upper_bound_width _ _ Hl), (Hfuel fuel' Hle).
  rewrite (find_max_overlap_empty order pointers strings modulos)
    by (try done; tauto).
  f_equal. unfold interpret.
  pose proof (Z.pow_pos_nonneg 2 (arg_l args * 8) ltac:(lia) ltac:(lia)).
  destruct (Z.ltb_spec (math_prod modulos - 0) (len b)); [lia|].
  rewrite lt_pow2_nonneg by lia.
  by destruct (Z.ltb_spec 0 (2 ^ (arg_l args * 8))); [|lia].
Qed.

Lemma empty_set_reports_offset_zero_witness :
  ∃ fuel, ∀ fuel', (fuel ≤ fuel')%nat →
    main elements fuel' default_args []
    = Printed [FoundStrings (size (∅ : gset Z))] (OffsetPositive 0).
Proof.
  apply (empty_set_reports_offset_zero elements default_args [] little
           (float_lit 1 0) 0 ∅ ∅).
  - intros X. reflexivity.
  - reflexivity.
  - by vm_compute.
  - by vm_compute.
  - lia.
  - by vm_compute.
  - by vm_compute.
  - by vm_compute.
  - by left.
Defined.

(** C6. With [k] the result of the Chinese remainder step, [M] the product
    of the moduli, [L] the length of the blob and [W ≥ 0] the pointer
    width: the program reports the negative offset [-(M - k)] when
    [M - k < L]; otherwise the positive offset [k] when [k < 2^(W·8)];
    otherwise [not found]. *)
Theorem report_interpretation order fuel (args : Args) (b : list byte)
    (modulos : list Z) (k : Z) :
  0 ≤ arg_l args →
  reconstructs order fuel args b modulos k →
  let M := math_prod modulos in
  let L := len b in
  let W := arg_l args in
  ∃ log r,
    main order fuel args b = Printed log r
    ∧ (M - k < L → r = OffsetNegative (M - k)
                   ∧ render r = ("Offset: -" ++ hex (M - k))%string)
    ∧ (¬ M - k < L → k < 2 ^ (W * 8) →
       r = OffsetPositive k ∧ render r = ("Offset: " ++ hex k)%string)
    ∧ (¬ M - k < L → ¬ k < 2 ^ (W * 8) →
       r = NotFound ∧ render r = "Offset: not found"%string).
Proof.
  intros Hl (endian & f & strings & pointers & n & m
             & He & Hf & Hs & Hp & Hn & Hu & Hm & Hk).
  simpl. unfold main. rewrite He, Hf, Hs, Hp, Hn, Hu, Hm, Hk.
  eexists _, _. split; [done|]. unfold interpret.
  rewrite lt_pow2_nonneg by lia.
  destruct (Z.ltb_spec (math_prod modulos - k) (len b));
    destruct (Z.ltb_spec k (2 ^ (arg_l args * 8)));
    split_and!; intros; try lia; done.
Qed.

Lemma report_interpretation_witness :
  let M := math_prod [13; 15; 17] in
  let L := len sample_blob in
  let W := arg_l sample_args in
  ∃ log r,
    main elements 10 sample_args sample_blob = Printed log r
    ∧ (M - 128 < L → r = OffsetNegative (M - 128)
                     ∧ render r = ("Offset: -" ++ hex (M - 128))%string)
    ∧ (¬ M - 128 < L → 128 < 2 ^ (W * 8) →
       r = OffsetPositive 128 ∧ render r = ("Offset: " ++ hex 128)%string)
    ∧ (¬ M - 128 < L → ¬ 128 < 2 ^ (W * 8) →
       r = NotFound ∧ render r = "Offset: not found"%string).
Proof.
  apply (report_interpretation elements 10 sample_args sample_blob
           [13; 15; 17] 128).
  - simpl. lia.
  - exists big, (float_lit 1 0), {[1; 5; 9]}, {[129; 133; 137]}, 12, (2 ^ 8 + 12).
    repeat split; by vm_compute.
Defined.

Section Validation.

Lemma get_string_addresses_defined b n :
  n < MAXREPEAT → ∃ strings, get_string_addresses b n = Ret strings.
Proof.
  intros Hn. unfold get_string_addresses, string_regex.
  destruct (Z.ltb_spec n 0); [by eexists|].
  destruct (Z.leb_spec MAXREPEAT n); [lia|by eexists].
Qed.

Lemma get_string_addresses_overflow b n :
  MAXREPEAT ≤ n → get_string_addresses b n = Exc OverflowError.
Proof.
  intros Hn. unfold get_string_addresses, string_regex, MAXREPEAT in *.
  destruct (Z.ltb_spec n 0); [lia|].
  by destruct (Z.leb_spec 4294967295 n); [|lia].
Qed.

(** The slack factor fails to be computed only by default, on an alignment
    that is zero or has no float. *)
Lemma slack_undefined args :
  (∃ e, slack args = Exc e)
  ↔ arg_f args = None
    ∧ (alignment args = 0 ∨ FLOAT_LIMIT ≤ Z.abs (alignment args)).
Proof.
  unfold slack. destruct (arg_f args) as [f|].
  { split; [by intros [e ?]|by intros [? _]]. }
  pose proof (default_slack_cases (alignment args)) as Hc.
  destruct (default_slack (alignment args)) as [f|e].
  - split; [by intros [e ?]|]. intros [_ [H0|Hbig]]; [tauto|lia].
  - split; [|by eexists]. intros _. split; [done|].
    destruct e; try done; [by left|by right].
Qed.

Lemma extracted_log o count log :
  stderr o = FoundStrings count :: log → extracted o.
Proof. intros H. exists count. rewrite H. apply list_elem_of_here. Qed.

Lemma not_extracted_nil o : stderr o = [] → ¬ extracted o.
Proof. intros H [count Hin]. rewrite H in Hin. by apply elem_of_nil in Hin. Qed.

End Validation.

(** The claim as written fails for the minimum string length [N = 0]: the
    configuration is not rejected, the strings are extracted from the blob
    and the run ends with a report. *)
Lemma invalid_configuration_counterexample :
  let args := {| arg_n := 0; arg_l := 8; arg_e := "little";
                 arg_a := None; arg_f := None |} in
  arg_n args ≤ 0
  ∧ main elements 100 args [x61; x62; x00]
    = Printed [FoundStrings 1] (OffsetPositive 0).
Proof. by vm_compute. Qed.

(** C5 (amended). Of the invalid configurations only an unsupported
    endianness is rejected as such, by the argument parser and before the
    blob is read. Nothing validates [N], [W], [A] or the slack factor:
    besides the endianness, a run ends before the strings are extracted
    only when the default slack factor cannot be computed from the
    alignment, which is zero ([ZeroDivisionError]) or has no float
    ([OverflowError], from [2**1024 - 2**970] on in absolute value), or
    when [N] is too large for the pattern compiler; in every other
    configuration the strings are extracted from the blob. *)
Theorem rejection_before_extraction order fuel (args : Args) (b : list byte) :
  (main order fuel args b = UsageError ↔ parse_endian (arg_e args) = None)
  ∧ (extracted (main order fuel args b)
     ↔ parse_endian (arg_e args) ≠ None
       ∧ ¬ (arg_f args = None
            ∧ (alignment args = 0 ∨ FLOAT_LIMIT ≤ Z.abs (alignment args)))
       ∧ arg_n args < MAXREPEAT).
Proof.
  unfold main.
  destruct (parse_endian (arg_e args)) as [endian|].
  2: { split; [done|]. split; [|by intros [? _]].
       by intros ?%not_extracted_nil. }
  pose proof (slack_undefined args) as Hslack.
  destruct (slack args) as [f|e].
  2: { split; [done|]. split; [by intros ?%not_extracted_nil|].
       intros (_ & Hn & _). destruct Hn. apply Hslack. by eexists. }
  assert (¬ (arg_f args = None
             ∧ (alignment args = 0 ∨ FLOAT_LIMIT ≤ Z.abs (alignment args))))
    as Hok.
  { intros [e He]%Hslack. done. }
  destruct (Z.lt_ge_cases (arg_n args) MAXREPEAT) as [Hn|Hn].
  - destruct (get_string_addresses_defined b _ Hn) as [strings ->].
    assert (∀ o, stderr o = [FoundStrings (size strings)] →
                 (o = UsageError ↔ Some endian = None)
                 ∧ (extracted o
                    ↔ Some endian ≠ None
                      ∧ ¬ (arg_f args = None
                           ∧ (alignment args = 0
                              ∨ FLOAT_LIMIT ≤ Z.abs (alignment args)))
                      ∧ arg_n args < MAXREPEAT)) as Hlog.
    { intros o Ho. split.
      - split; [|done]. intros ->. done.
      - split; [done|]. intros _. by eapply extracted_log. }
    destruct (get_pointed_addresses b endian (arg_l args) (alignment args))
      as [pointers|e]; [|by apply Hlog].
    destruct (lower_bound (len b) f) as [n|e]; [|by apply Hlog].
    destruct (upper_bound (arg_l args) (len b)) as [m|e]; [|by apply Hlog].
    destruct (find_coprime_numbers fuel n m) as [modulos|]; [|by apply Hlog].
    destruct (find_max_overlap order pointers strings modulos) as [offset|e];
      by apply Hlog.
  - rewrite (get_string_addresses_overflow b _ Hn).
    split; [done|]. split; [by intros ?%not_extracted_nil|]. lia.
Qed.

(** ** The pointer scanner *)

Section Pointers.

Lemma byte_val_range x : 0 ≤ byte_val x < 256.
Proof.
  unfold byte_val. pose proof (Byte.to_N_bounded x). lia.
Qed.

Lemma from_little_range bs : 0 ≤ from_little bs < 256 ^ len bs.
Proof.
  induction bs as [|x bs IH]; [by vm_compute|].
  replace (len (x :: bs)) with (Z.succ (len bs)) by (unfold len; simpl; lia).
  rewrite Z.pow_succ_r by apply len_nonneg.
  simpl. pose proof (byte_val_range x). lia.
Qed.

Lemma int_from_bytes_range bs endian :
  0 ≤ int_from_bytes bs endian < 256 ^ len bs.
Proof.
  destruct endian; simpl; [apply from_little_range|].
  replace (len bs) with (len (rev bs)) by (unfold len; by rewrite length_rev).
  apply from_little_range.
Qed.

(** Inside the blob a slice is the window it names. *)
Lemma py_slice_window {A} (b : list A) i W :
  0 ≤ i → 0 ≤ W → i + W ≤ len b →
  py_slice b i (i + W) = take (Z.to_nat W) (drop (Z.to_nat i) b).
Proof.
  intros Hi HW Hend. unfold py_slice, slice_index.
  destruct (Z.ltb_spec i 0); [lia|].
  destruct (Z.ltb_spec (i + W) 0); [lia|].
  rewrite !Z.min_l by lia. do 2 f_equal. lia.
Qed.

Lemma py_range_positive stop step :
  0 < step →
  ∃ offsets, py_range stop step = Ret offsets
             ∧ ∀ i, i ∈ offsets ↔ ∃ j, 0 ≤ j ∧ i = j * step ∧ i < stop.
Proof.
  intros Hstep. unfold py_range.
  destruct (Z.eqb_spec step 0); [lia|].
  destruct (Z.ltb_spec 0 step); [|lia].
  eexists; split; [done|]. intros i.
  rewrite list_elem_of_fmap. setoid_rewrite elem_of_seqZ.
  assert (∀ j, j < (stop + step - 1) / step ↔ j * step < stop) as Hcount.
  { intros j. split; intros Hj.
    - assert (j + 1 ≤ (stop + step - 1) / step) as Hle by lia.
      pose proof (Z.mul_div_le (stop + step - 1) step Hstep). nia.
    - assert (j + 1 ≤ (stop + step - 1) / step); [|lia].
      apply Z.div_le_lower_bound; [done|]. nia. }
  split.
  - intros (j & -> & Hj). exists j. split; [lia|]. split; [done|].
    apply Hcount. lia.
  - intros (j & Hj & -> & Hlt). exists j. split; [done|].
    split; [lia|]. rewrite Z.add_0_l. by apply Hcount.
Qed.

Lemma elem_of_scan_acc b endian W offsets : ∀ (acc : gset Z) x,
  x ∈ foldl (fun pointed_addresses i =>
               pointed_addresses
               ∪ {[ int_from_bytes (py_slice b i (i + W)) endian ]})
            acc offsets
  ↔ x ∈ acc
    ∨ ∃ i, i ∈ offsets ∧ x = int_from_bytes (py_slice b i (i + W)) endian.
Proof.
  induction offsets as [|i offsets IH]; intros acc x; simpl.
  - split; [by left|]. intros [?|(i & Hi & _)]; [done|].
    by apply elem_of_nil in Hi.
  - rewrite IH, elem_of_union, elem_of_singleton. split.
    + intros [[?| ->]|(i' & Hi' & ->)]; [by left|right..].
      * exists i. split; [apply list_elem_of_here|done].
      * exists i'. split; [by apply list_elem_of_further|done].
    + intros [?|(i' & Hi' & ->)]; [by left; left|].
      apply elem_of_cons in Hi' as [-> |Hi']; [by left; right|].
      right. by exists i'.
Qed.

Lemma elem_of_scan b endian W offsets x :
  x ∈ scan b endian W offsets
  ↔ ∃ i, i ∈ offsets ∧ x = int_from_bytes (py_slice b i (i + W)) endian.
Proof.
  unfold scan. rewrite elem_of_scan_acc. split; [|by right].
  intros [H|H]; [|done]. by apply elem_of_empty in H.
Qed.

(** The scan collects the same set whatever the order of the offsets. *)
Lemma scan_perm b endian W offsets offsets' :
  offsets' ≡ₚ offsets → scan b endian W offsets' = scan b endian W offsets.
Proof.
  intros Hperm. apply set_eq. intros x. rewrite !elem_of_scan.
  by setoid_rewrite Hperm.
Qed.

End Pointers.

(** C7. For every blob [b], pointer width [W ≥ 0], stride [A > 0] and
    endianness, [get_pointed_addresses] returns exactly the set of the
    unsigned integers decoded from the windows [b[i..i+W)], [i] ranging
    over the multiples [0, A, 2A, ...] of the stride with [i + W ≤ len b];
    scanning the same offsets in any other order collects the same set. *)
Theorem get_pointed_addresses_spec (b : list byte) (endian : byteorder)
    (W A : Z) :
  0 ≤ W → 0 < A →
  ∃ offsets S,
    py_range (len b - W + 1) A = Ret offsets
    ∧ get_pointed_addresses b endian W A = Ret S
    ∧ (∀ x, x ∈ S ↔
            ∃ j, 0 ≤ j ∧ j * A + W ≤ len b
                 ∧ x = int_from_bytes
                         (take (Z.to_nat W) (drop (Z.to_nat (j * A)) b))
                         endian)
    ∧ (∀ x, x ∈ S → 0 ≤ x < 256 ^ W)
    ∧ (∀ offsets', offsets' ≡ₚ offsets → scan b endian W offsets' = S).
Proof.
  intros HW HA.
  destruct (py_range_positive (len b - W + 1) A HA) as (offsets & Hr & Hoffs).
  exists offsets, (scan b endian W offsets).
  assert (∀ x, x ∈ scan b endian W offsets ↔
               ∃ j, 0 ≤ j ∧ j * A + W ≤ len b
                    ∧ x = int_from_bytes
                            (take (Z.to_nat W) (drop (Z.to_nat (j * A)) b))
                            endian) as Hchar.
  { intros x. rewrite elem_of_scan. split.
    - intros (i & (j & Hj & -> & Hlt)%Hoffs & ->).
      exists j. split; [done|]. split; [lia|].
      by rewrite py_slice_window by nia.
    - intros (j & Hj & Hend & ->). exists (j * A). split.
      + apply Hoffs. exists j. split; [done|]. split; [done|]. lia.
      + by rewrite py_slice_window by nia. }
  split; [done|]. split.
  { unfold get_pointed_addresses. by rewrite Hr. }
  split; [done|]. split.
  - intros x (j & Hj & Hend & ->)%Hchar.
    pose proof (int_from_bytes_range
                  (take (Z.to_nat W) (drop (Z.to_nat (j * A)) b)) endian) as Hx.
    replace (len (take (Z.to_nat W) (drop (Z.to_nat (j * A)) b))) with W in Hx;
      [done|].
    unfold len in *. rewrite length_take, length_drop. nia.
  - intros offsets' Hperm. by apply scan_perm.
Qed.

Lemma get_pointed_addresses_spec_witness :
  ∃ offsets S,
    py_range (len sample_blob - 2 + 1) 4 = Ret offsets
    ∧ get_pointed_addresses sample_blob little 2 4 = Ret S
    ∧ (∀ x, x ∈ S ↔
            ∃ j, 0 ≤ j ∧ j * 4 + 2 ≤ len sample_blob
                 ∧ x = int_from_bytes
                         (take (Z.to_nat 2) (drop (Z.to_nat (j * 4)) sample_blob))
                         little)
    ∧ (∀ x, x ∈ S → 0 ≤ x < 256 ^ 2)
    ∧ (∀ offsets', offsets' ≡ₚ offsets → scan sample_blob little 2 offsets' = S).
Proof. apply (get_pointed_addresses_spec sample_blob little 2 4); lia. Defined.

(** ** Independence of the iteration order and of the budgets *)

Section Determinism.

Lemma list_eq_item (a b : list Z) :
  len a = len b → (∀ j, 0 ≤ j < len a → item a j = item b j) → a = b.
Proof.
  unfold len, item. intros Hlen Hitem.
  apply list_eq_same_length with (length a); [lia|lia|].
  intros i x y Hi Hx Hy.
  specialize (Hitem (Z.of_nat i) ltac:(lia)).
  rewrite Nat2Z.id, Hx, Hy in Hitem. done.
Qed.

Lemma enumerates_perm order1 order2 X :
  enumerates order1 → enumerates order2 → order1 X ≡ₚ order2 X.
Proof. intros H1 H2. by rewrite (H1 X), (H2 X). Qed.

Lemma local_offset_order order1 order2 A B p :
  enumerates order1 → enumerates order2 →
  local_offset order1 A B p = local_offset order2 A B p.
Proof.
  intros H1 H2.
  pose proof (enumerates_perm order1 order2 A H1 H2) as HA.
  pose proof (enumerates_perm order1 order2 B H1 H2) as HB.
  destruct (Z.lt_trichotomy p 0) as [Hp|[->|Hp]].
  - unfold local_offset, np_zeros. by destruct (Z.ltb_spec p 0); [|lia].
  - unfold local_offset. simpl.
    destruct (order1 A) as [|x xs], (order2 A) as [|x' xs'];
      [|by apply Permutation_nil_cons in HA
       |by symmetry in HA; apply Permutation_nil_cons in HA|done].
    simpl.
    destruct (order1 B) as [|y ys], (order2 B) as [|y' ys'];
      [done|by apply Permutation_nil_cons in HB
       |by symmetry in HB; apply Permutation_nil_cons in HB|done].
  - destruct (local_offset_spec order1 A B p Hp) as (c1 & -> & Hl1 & Hc1).
    destruct (local_offset_spec order2 A B p Hp) as (c2 & -> & Hl2 & Hc2).
    do 2 f_equal. apply list_eq_item; [lia|].
    intros j Hj. rewrite Hc1, Hc2 by lia. by apply overlap_perm.
Qed.

Lemma find_max_overlap_order order1 order2 A B modulos :
  enumerates order1 → enumerates order2 →
  find_max_overlap order1 A B modulos = find_max_overlap order2 A B modulos.
Proof.
  intros H1 H2. unfold find_max_overlap, local_offsets.
  assert (mapM (local_offset order1 A B) modulos
          = mapM (local_offset order2 A B) modulos) as ->; [|done].
  induction modulos as [|p modulos IH]; [done|].
  by rewrite !mapM_res_cons, IH, (local_offset_order order1 order2).
Qed.

Lemma find_coprime_numbers_functional n m fuel1 fuel2 l1 l2 :
  find_coprime_numbers fuel1 n m = Some l1 →
  find_coprime_numbers fuel2 n m = Some l2 → l1 = l2.
Proof.
  intros Hl1 Hl2.
  destruct (Nat.le_ge_cases fuel1 fuel2) as [Hle|Hle].
  - pose proof (find_coprime_numbers_fuel_mono _ _ _ _ _ Hle Hl1). congruence.
  - pose proof (find_coprime_numbers_fuel_mono _ _ _ _ _ Hle Hl2). congruence.
Qed.

(** A match hands the continuation no more input than it was given. *)
Lemma rmatch_shorter r : ∀ s k e,
  rmatch r s k = Some e →
  ∃ s', (length s' ≤ length s)%nat ∧ k s' = Some e.
Proof.
  induction r as [ranges|c|r1 IH1 r2 IH2|r1 IH1 r2 IH2|r IH lo];
    intros s k e.
  - simpl. destruct s as [|c s]; [done|]. destruct (in_ranges ranges c); [|done].
    intros H. exists s. split; [simpl; lia|done].
  - simpl. destruct s as [|c' s]; [done|].
    destruct (byte_val c' =? byte_val c); [|done].
    intros H. exists s. split; [simpl; lia|done].
  - simpl. intros (s1 & Hs1 & (s2 & Hs2 & H)%IH2)%IH1.
    exists s2. split; [lia|done].
  - simpl. destruct (rmatch r1 s k) as [e1|] eqn:H1.
    + intros [= <-]. by apply IH1.
    + by apply IH2.
  - change (rmatch (RAtLeast r lo) s k)
      with (repeat_greedy (rmatch r) k (S (length s)) lo s).
    generalize (S (length s)) as fuel. intros fuel. revert lo s e.
    induction fuel as [|fuel IHfuel]; intros lo s e; simpl.
    + destruct lo; [|done]. intros H. exists s. by split.
    + match goal with
      | |- context [rmatch r s ?k'] => destruct (rmatch r s k') as [e1|] eqn:H1
      end.
      * intros [= <-]. apply IH in H1 as (s1 & Hs1 & H1).
        destruct (Nat.ltb_spec (length s1) (length s)); [|done].
        apply IHfuel in H1 as (s2 & Hs2 & H2). exists s2. split; [lia|done].
      * destruct lo; [|done]. intros H. exists s. by split.
Qed.

(** The scan for matches does not depend on its budget once that
    exceeds the length of the input. *)
Lemma finditer_budget r fuel : ∀ fuel' pos s,
  (length s < fuel)%nat → (length s < fuel')%nat →
  finditer fuel r pos s = finditer fuel' r pos s.
Proof.
  induction fuel as [|fuel IH]; intros fuel' pos s Hf Hf'; [lia|].
  destruct fuel' as [|fuel']; [lia|]. simpl.
  destruct (rmatch r s Some) as [rest|] eqn:Hm.
  - apply rmatch_shorter in Hm as (s' & Hs' & [= ->]).
    destruct (Z.eqb_spec (len s - len rest) 0) as [H0|H0].
    + destruct s as [|c s]; [done|]. f_equal. apply IH; simpl in *; lia.
    + f_equal. unfold len in H0. apply IH; lia.
  - destruct s as [|c s]; [done|]. apply IH; simpl in *; lia.
Qed.

End Determinism.

(** C8. The computation is deterministic. Two runs on the same blob with
    the same configuration that both come to an end give the same outcome,
    whatever the order in which each run iterates over the two sets and
    whatever budget each gives the modulus loop; and
    [get_string_addresses] returns the same set of offsets for every
    budget of its scan that exceeds the length of the blob. *)
Theorem run_deterministic order1 order2 fuel1 fuel2 (args : Args)
    (b : list byte) :
  enumerates order1 → enumerates order2 →
  finished (main order1 fuel1 args b) →
  finished (main order2 fuel2 args b) →
  main order1 fuel1 args b = main order2 fuel2 args b
  ∧ (∀ r budget, string_regex (arg_n args) = Ret r →
                 (length b < budget)%nat →
                 get_string_addresses b (arg_n args)
                 = Ret (list_to_set (finditer budget r 0 b))).
Proof.
  intros H1 H2 Hfin1 Hfin2. split.
  - unfold main in *.
    destruct (parse_endian (arg_e args)) as [endian|]; [|done].
    destruct (slack args) as [f|]; [|done].
    destruct (get_string_addresses b (arg_n args)) as [strings|]; [|done].
    destruct (get_pointed_addresses b endian (arg_l args) (alignment args))
      as [pointers|]; [|done].
    destruct (lower_bound (len b) f) as [n|]; [|done].
    destruct (upper_bound (arg_l args) (len b)) as [m|]; [|done].
    destruct (find_coprime_numbers fuel1 n m) as [l1|] eqn:Hl1; [|done].
    destruct (find_coprime_numbers fuel2 n m) as [l2|] eqn:Hl2; [|done].
    rewrite (find_coprime_numbers_functional _ _ _ _ _ _ Hl1 Hl2).
    by rewrite (find_max_overlap_order order1 order2).
  - intros r budget Hr Hb. unfold get_string_addresses. rewrite Hr, bind_ret.
    do 2 f_equal. apply finditer_budget; lia.
Qed.

Lemma run_deterministic_witness :
  main elements 10 sample_args sample_blob
  = main (fun X => reverse (elements X)) 20 sample_args sample_blob
  ∧ (∀ r budget, string_regex (arg_n sample_args) = Ret r →
                 (length sample_blob < budget)%nat →
                 get_string_addresses sample_blob (arg_n sample_args)
                 = Ret (list_to_set (finditer budget r 0 sample_blob))).
Proof.
  apply (run_deterministic elements (fun X => reverse (elements X)) 10 20
           sample_args sample_blob).
  - intros X. reflexivity.
  - intros X. apply reverse_Permutation.
  - by vm_compute.
  - by vm_compute.
Defined.

(** ** The synthetic recovery test *)

Section Synthetic.

Variable p : Z.
Hypothesis Hp : 0 < p.

Lemma hit_range z : 0 ≤ hit p z ≤ 1.
Proof. unfold hit. case_decide; lia. Qed.

Lemma hit_sub x y z : z = x - y → hit p x + hit p y ≤ 1 + hit p z.
Proof.
  intros ->. unfold hit.
  destruct (decide (x mod p = 0)) as [Hx|]; [|case_decide; case_decide; lia].
  destruct (decide (y mod p = 0)) as [Hy|]; [|case_decide; lia].
  rewrite decide_True; [lia|].
  rewrite Zminus_mod, Hx, Hy, Z.sub_diag. by apply Z.mod_0_l; lia.
Qed.

Lemma hit_add x y z : z = x + y → hit p x + hit p y ≤ 1 + hit p z.
Proof.
  intros ->. unfold hit.
  destruct (decide (x mod p = 0)) as [Hx|]; [|case_decide; case_decide; lia].
  destruct (decide (y mod p = 0)) as [Hy|]; [|case_decide; lia].
  rewrite decide_True; [lia|].
  rewrite Zplus_mod, Hx, Hy, Z.add_0_l. by apply Z.mod_0_l; lia.
Qed.

Lemma hit_shift x c : hit p x = 1 → hit p (x + c) = hit p c.
Proof.
  unfold hit. case_decide as Hx; [|done]. intros _.
  rewrite Zplus_mod, Hx, Z.add_0_l, Z.mod_mod by lia. done.
Qed.

Lemma hit_opp c : hit p (- c) = hit p c.
Proof.
  pose proof (hit_sub 0 c (- c) ltac:(lia)) as H1.
  pose proof (hit_sub 0 (- c) c ltac:(lia)) as H2.
  assert (hit p 0 = 1) as H0 by (unfold hit; by rewrite Z.mod_0_l by lia).
  pose proof (hit_range c). pose proof (hit_range (- c)). lia.
Qed.

Lemma hit_residue D j :
  0 ≤ j < p → hit p (D - j) = 1 ↔ j = D mod p.
Proof.
  intros Hj. unfold hit. case_decide as H.
  - split; [intros _|done].
    apply mod_eq_iff in H; [|done]. by rewrite (Z.mod_small j p) in H.
  - split; [done|]. intros ->. destruct H.
    apply mod_eq_iff; [done|]. by rewrite Z.mod_mod by lia.
Qed.

(** A modulus that divides 120 and is not one of the tying ones
    divides 80. *)
Lemma hit_120_80 : p ∉ tying_moduli → hit p 120 ≤ hit p 80.
Proof.
  intros Hnot. unfold hit.
  destruct (decide (120 mod p = 0)) as [H120|]; [|case_decide; lia].
  destruct (decide (80 mod p = 0)) as [|H80]; [lia|]. exfalso.
  assert (1 ≤ p ≤ 120) as Hrange.
  { apply Z.mod_divide in H120; [|lia]. apply Z.divide_pos_le in H120; lia. }
  assert (Forall (fun q => 120 mod q = 0 → 80 mod q ≠ 0 → q ∈ tying_moduli)
                 (seqZ 1 120)) as Hall.
  { apply (bool_decide_unpack _). by vm_compute. }
  eapply Forall_forall in Hall; [by apply Hnot, Hall|].
  apply elem_of_seqZ. lia.
Qed.

(** The overlaps of the synthetic sample, as hits of the five distances
    between two strings. *)
Lemma overlap_sample D j :
  overlap p [10 + D; 50 + D; 90 + D] [10; 50; 90] j
  = 3 * hit p (D - j) + 2 * hit p (D - j + 40) + hit p (D - j + 80)
    + 2 * hit p (D - j + - 40) + hit p (D - j + - 80).
Proof.
  unfold overlap. rewrite !fmap_cons, !fmap_nil, !py_sum_cons, !py_sum_nil.
  replace (10 + D - 10 - j) with (D - j) by lia.
  replace (10 + D - 50 - j) with (D - j + - 40) by lia.
  replace (10 + D - 90 - j) with (D - j + - 80) by lia.
  replace (50 + D - 10 - j) with (D - j + 40) by lia.
  replace (50 + D - 50 - j) with (D - j) by lia.
  replace (50 + D - 90 - j) with (D - j + - 40) by lia.
  replace (90 + D - 10 - j) with (D - j + 80) by lia.
  replace (90 + D - 50 - j) with (D - j + 40) by lia.
  replace (90 + D - 90 - j) with (D - j) by lia.
  lia.
Qed.

(** Away from the tying moduli the shift is the strict maximum. *)
Lemma overlap_sample_peak D j :
  p ∉ tying_moduli → 0 ≤ j < p → j ≠ D mod p →
  overlap p [10 + D; 50 + D; 90 + D] [10; 50; 90] j
  < overlap p [10 + D; 50 + D; 90 + D] [10; 50; 90] (D mod p).
Proof.
  intros Hnot Hj Hne. rewrite !overlap_sample.
  pose proof (Z.mod_pos_bound D p Hp) as Ht.
  assert (hit p (D - D mod p) = 1) as Hpeak by by apply hit_residue.
  assert (hit p (D - j) = 0) as Hoff.
  { pose proof (hit_range (D - j)). pose proof (hit_residue D j Hj). lia. }
  assert (hit p (-40) = hit p 40) as H40 by exact (hit_opp 40).
  assert (hit p (-80) = hit p 80) as H80 by exact (hit_opp 80).
  rewrite !(hit_shift _ _ Hpeak), H40, H80, Hpeak, Hoff.
  set (e := D - j) in *.
  pose proof (hit_range (e + 40)). pose proof (hit_range (e + 80)).
  pose proof (hit_range (e + - 40)). pose proof (hit_range (e + - 80)).
  pose proof (hit_range 40). pose proof (hit_range 80).
  pose proof (hit_sub (e + 40) 40 e ltac:(lia)).
  pose proof (hit_sub (e + 80) 80 e ltac:(lia)).
  pose proof (hit_add (e + - 40) 40 e ltac:(lia)).
  pose proof (hit_add (e + - 80) 80 e ltac:(lia)).
  pose proof (hit_add 40 40 80 ltac:(lia)).
  pose proof (hit_sub (e + 40) (e + - 40) 80 ltac:(lia)).
  pose proof (hit_sub (e + 80) (e + 40) 40 ltac:(lia)).
  pose proof (hit_sub (e + - 40) (e + - 80) 40 ltac:(lia)).
  pose proof (hit_sub (e + 40) (e + - 80) 120 ltac:(lia)).
  pose proof (hit_sub (e + 80) (e + - 40) 120 ltac:(lia)).
  pose proof (hit_120_80 Hnot).
  lia.
Qed.

End Synthetic.

Lemma sample_sets_enumerated order (a b c : Z) :
  enumerates order → a ≠ b → a ≠ c → b ≠ c →
  order ({[a; b; c]} : gset Z) ≡ₚ [a; b; c].
Proof.
  intros Horder Hab Hac Hbc.
  assert (({[a; b; c]} : gset Z) = list_to_set [a; b; c]) as ->.
  { apply set_eq. intros x. simpl. set_unfold. tauto. }
  rewrite (Horder _). apply elements_list_to_set.
  repeat constructor; set_unfold; tauto.
Qed.

(** The claim as written fails at the modulus 3 with the shift [D = 1]:
    the three strings fall on the three residues, every alignment scores
    3, and the first index, 0, is returned instead of 1. *)
Lemma synthetic_recovery_counterexample :
  local_offset elements {[10 + 1; 50 + 1; 90 + 1]} {[10; 50; 90]} 3 = Ret 0
  ∧ 0 mod 3 ≠ 1 mod 3.
Proof. by vm_compute. Qed.

(** C4 (amended). For the string offsets [{10, 50, 90}] and the pointer
    targets [{10+D, 50+D, 90+D}], with the transform taken in exact
    arithmetic, the correlation step returns the local offset [D mod p]
    for every modulus [p > 0] other than 3, 6, 12, 15, 24, 30, 60 and 120
    (of the odd moduli the program uses: other than 3 and 15). *)
Theorem synthetic_offset_recovery order (p D : Z) :
  enumerates order →
  0 < p →
  p ∉ tying_moduli →
  local_offset order {[10 + D; 50 + D; 90 + D]} {[10; 50; 90]} p
  = Ret (D mod p).
Proof.
  intros Horder Hp Hnot.
  destruct (local_offset_spec order {[10 + D; 50 + D; 90 + D]}
              {[10; 50; 90]} p Hp) as (corr & -> & Hlen & Hcorr).
  f_equal.
  assert (∀ j, 0 ≤ j < p →
               item corr j
               = overlap p [10 + D; 50 + D; 90 + D] [10; 50; 90] j) as Hitem.
  { intros j Hj. rewrite Hcorr by done.
    apply overlap_perm; apply sample_sets_enumerated; try done; lia. }
  pose proof (Z.mod_pos_bound D p Hp) as Ht.
  apply argmax_unique; [lia|].
  intros j Hj Hne. rewrite !Hitem by lia.
  apply overlap_sample_peak; try done. lia.
Qed.

Lemma synthetic_offset_recovery_witness :
  local_offset elements {[10 + 500; 50 + 500; 90 + 500]} {[10; 50; 90]} 7
  = Ret (500 mod 7).
Proof.
  apply (synthetic_offset_recovery elements 7 500).
  - intros X. reflexivity.
  - lia.
  - by apply (bool_decide_unpack _).
Defined.

(** ** The pipeline on the sample image *)

Example sample_strings :
  get_string_addresses sample_blob 2 = Ret {[1; 5; 9]}.
Proof. by vm_compute. Qed.

Example sample_pointers :
  get_pointed_addresses sample_blob big 1 4 = Ret {[129; 133; 137]}.
Proof. by vm_compute. Qed.

Example sample_moduli :
  find_coprime_numbers 3 12 (2 ^ 8 + 12) = Some [13; 15; 17].
Proof. by vm_compute. Qed.

Example sample_offsets :
  local_offsets elements {[129; 133; 137]} {[1; 5; 9]} [13; 15; 17]
  = Ret [128 mod 13; 128 mod 15; 128 mod 17].
Proof. by vm_compute. Qed.

Example sample_run :
  main elements 3 sample_args sample_blob
  = Printed [FoundStrings 3] (OffsetPositive 128)
  ∧ render (OffsetPositive 128) = "Offset: 0x80"%string.
Proof. by vm_compute. Qed.

(** A negative count is read as text: only a code point followed by the
    bytes of the brace expression and a NUL matches. *)
Example negative_count_is_literal :
  get_string_addresses
    (String.list_byte_of_string "a{-5,}" ++ [x00; x48; x45; x4c; x4c; x4f; x00])
    (-5)
  = Ret {[0]}.
Proof. by vm_compute. Qed.

Example default_configuration_moduli :
  find_coprime_numbers 30 0 (2 ^ 64)
  = Some [1; 3; 5; 7; 11; 13; 17; 19; 23; 29; 31; 37; 41; 43; 47; 53; 59].
Proof. by vm_compute. Qed.

(** ** The floating-point steps on sample values *)

(** [16.0 / 784] is rounded, and so is its product with 1127: the lower
    bound is 22, not the 23 of exact arithmetic. *)
Example lower_bound_rounds :
  ∃ f, default_slack 784 = Ret f ∧ lower_bound 1127 f = Ret 22.
Proof. eexists. split; by vm_compute. Qed.

(** [3 * -1.3333333333333333] is [-4.0]. *)
Example lower_bound_rounds_away :
  lower_bound 3 (S754_finite true 6004799503160661 (-52)) = Ret (-4).
Proof. by vm_compute. Qed.

(** An alignment of [10**400] has no float. *)
Example default_slack_overflow :
  default_slack (10 ^ 400) = Exc OverflowError.
Proof. by vm_compute. Qed.

(** [9 * 1e308] is infinite, and a product with [nan] is [nan]. *)
Example lower_bound_overflow :
  lower_bound 9 (S754_finite false 5010420900022432 971) = Exc OverflowError
  ∧ lower_bound 9 S754_nan = Exc ValueError.
Proof. by vm_compute. Qed.

(** A width whose exponent [l * 8] has no float. *)
Example upper_bound_overflow :
  upper_bound (- 2 ^ 1021) 12 = Exc OverflowError.
Proof. by vm_compute. Qed.

(** With a negative width the power is a fraction, and the bound is the
    length of the blob. *)
Example upper_bound_negative_width :
  upper_bound (-1) 12 = Ret 12 ∧ upper_bound (-200) 0 = Ret 0.
Proof. by vm_compute. Qed.

(* ================================================================= *)
(** * Further properties of the pipeline *)

(** ** The transform in floating point *)

Section Rounding.

Lemma item_Q_app_r (l1 l2 : list Q) i :
  len l1 ≤ i → item_Q (l1 ++ l2) i = item_Q l2 (i - len l1).
Proof.
  unfold item_Q, len. intros Hi.
  rewrite lookup_app_r by lia. do 2 f_equal. lia.
Qed.

Lemma argmax_from_Q_spec l : ∀ pre best_i best,
  is_max_Q (pre ++ l) (len pre) best_i →
  best = item_Q (pre ++ l) best_i →
  is_max_Q (pre ++ l) (len (pre ++ l))
           (argmax_from_Q best_i best (len pre) l).
Proof.
  induction l as [|x l IH]; intros pre best_i best Hmax Hbest.
  - simpl. by rewrite app_nil_r in *.
  - assert (item_Q (pre ++ x :: l) (len pre) = x) as Hx.
    { rewrite item_Q_app_r by lia. by rewrite Z.sub_diag. }
    pose proof (len_nonneg pre) as Hpre.
    replace (pre ++ x :: l) with ((pre ++ [x]) ++ l) in *
      by (by rewrite <- app_assoc).
    simpl.
    replace (len pre + 1) with (len (pre ++ [x]))
      by (rewrite len_app; unfold len; simpl; lia).
    destruct Hmax as (Hr & Hmax).
    destruct (Qle_bool x best) eqn:Hle; simpl.
    + apply Qle_bool_iff in Hle.
      apply IH; [|done].
      rewrite len_app. unfold len at 2. simpl.
      split; [lia|].
      intros j Hj. destruct (Z.eq_dec j (len pre)) as [->|].
      * by rewrite Hx, <- Hbest.
      * apply Hmax. lia.
    + assert (best < x)%Q as Hlt.
      { apply Qnot_le_lt. intros H%Qle_bool_iff. congruence. }
      apply IH; [|by rewrite Hx].
      rewrite len_app. unfold len at 2. simpl.
      split; [lia|].
      intros j Hj. rewrite Hx. destruct (Z.eq_dec j (len pre)) as [->|].
      * rewrite Hx. apply Qle_refl.
      * specialize (Hmax j ltac:(lia)). rewrite <- Hbest in Hmax.
        eapply Qle_trans; [exact Hmax|]. by apply Qlt_le_weak.
Qed.

Lemma argmax_Q_spec l : 0 < len l → is_max_Q l (len l) (argmax_Q l).
Proof.
  destruct l as [|x l]; [unfold len; simpl; lia|]. intros _.
  apply (argmax_from_Q_spec l [x] 0 x); [|done].
  unfold len. simpl. split; [lia|].
  intros j Hj. replace j with 0 by lia. apply Qle_refl.
Qed.

Lemma item_Q_rounded err (conv : list Z) j :
  0 ≤ j < len conv →
  item_Q (zip_with (fun c j => (inject_Z c + err j)%Q) conv
            (seqZ 0 (len conv))) j
  = (inject_Z (item conv j) + err j)%Q.
Proof.
  intros Hj. unfold item_Q, item, len in *.
  rewrite lookup_zip_with.
  destruct (lookup_lt_is_Some_2 conv (Z.to_nat j) ltac:(lia)) as [c ->].
  rewrite lookup_seqZ_lt by lia. simpl.
  by rewrite Z2Nat.id by lia.
Qed.

(** One round of the loop on a positive modulus, rounding included: the
    array handed to [argmax] holds the overlaps, each off by its error. *)
Lemma local_offset_rounded_spec err order A B p :
  0 < p →
  ∃ corr, local_offset_rounded err order A B p = Ret (argmax_Q corr)
          ∧ len corr = p
          ∧ ∀ j, 0 ≤ j < p →
                 item_Q corr j
                 = (inject_Z (overlap p (order A) (order B) j) + err j)%Q.
Proof.
  intros Hp. unfold local_offset_rounded.
  destruct (np_zeros_spec p Hp) as (z & -> & Hz & Hz0).
  rewrite !bind_ret.
  destruct (histogram_spec p (fun r => r) (order A) z Hp Hz)
    as (a & -> & Ha & Hca); [lia|].
  rewrite bind_ret.
  destruct (histogram_spec p (fun r => - r) (order B) z Hp Hz)
    as (b & -> & Hb & Hcb); [lia|].
  rewrite bind_ret. unfold fft_convolve_rounded.
  destruct (Z.eqb_spec (len a) 0) as [|_]; [lia|]. rewrite bind_ret.
  eexists. split; [done|].
  pose proof (len_circular_convolution a b) as Hlen.
  split.
  { unfold len in *. rewrite length_zip_with, length_seqZ. lia. }
  intros j Hj. rewrite <- Hlen, item_Q_rounded by lia.
  do 2 f_equal. apply convolution_counts_overlap; try done.
  - intros i Hi. rewrite Hca, Hz0 by done. lia.
  - intros i Hi. rewrite Hcb, Hz0 by done. lia.
Qed.

(** Counts are integers: with every error below one half, a maximum of
    the rounded array is a maximum of the counts. *)
Lemma rounded_maximum (err : Z → Q) (count : Z → Z) corr p o :
  (∀ j, 0 ≤ j < p → (- (1 # 2) < err j < 1 # 2)%Q) →
  (∀ j, 0 ≤ j < p → item_Q corr j = (inject_Z (count j) + err j)%Q) →
  is_max_Q corr p o →
  ∀ j, 0 ≤ j < p → count j ≤ count o.
Proof.
  intros Herr Hcorr (Ho & Hmax) j Hj.
  specialize (Hmax j Hj). rewrite !Hcorr in Hmax by done.
  destruct (Herr j Hj) as [Hj1 Hj2]. destruct (Herr o Ho) as [Ho1 Ho2].
  destruct (Z.le_gt_cases (count j) (count o)) as [|Hgt]; [done|].
  assert (inject_Z (count o) + 1 <= inject_Z (count j))%Q as Hq.
  { change 1%Q with (inject_Z 1). rewrite <- inject_Z_plus.
    rewrite <- Zle_Qle. lia. }
  lra.
Qed.

(** Without error the rounded round is the exact one. *)
Lemma Qle_bool_inject_Z x y :
  Qle_bool (inject_Z x + 0) (inject_Z y + 0) = (x <=? y).
Proof.
  destruct (Z.leb_spec x y) as [Hle|Hgt].
  - apply Qle_bool_iff. rewrite !Qplus_0_r, <- Zle_Qle. done.
  - apply not_true_is_false. intros H%Qle_bool_iff.
    rewrite !Qplus_0_r, <- Zle_Qle in H. lia.
Qed.

Lemma argmax_from_Q_exact l : ∀ best_i best i,
  argmax_from_Q best_i (inject_Z best + 0) i
    ((fun c => (inject_Z c + 0)%Q) <$> l)
  = argmax_from best_i best i l.
Proof.
  induction l as [|x l IH]; intros best_i best i; [done|].
  simpl. rewrite Qle_bool_inject_Z, <- Z.ltb_antisym.
  destruct (best <? x); apply IH.
Qed.

Lemma local_offset_rounded_exact order A B p :
  local_offset_rounded (fun _ => 0%Q) order A B p = local_offset order A B p.
Proof.
  unfold local_offset_rounded, local_offset.
  destruct (np_zeros p) as [z|]; [|done]. rewrite !bind_ret.
  destruct (for_each _ z (order A)) as [a|]; [|done]. rewrite !bind_ret.
  destruct (for_each _ z (order B)) as [b|]; [|done]. rewrite !bind_ret.
  unfold fft_convolve_rounded, fft_convolve.
  destruct (len a =? 0); [done|]. rewrite !bind_ret. f_equal.
  pose proof (len_circular_convolution a b) as Hlen.
  assert (∀ (l : list Z) k,
            zip_with (fun c (_ : Z) => (inject_Z c + 0)%Q) l (seqZ k (len l))
            = (fun c => (inject_Z c + 0)%Q) <$> l) as Hzip.
  { intros l. induction l as [|c l IH]; intros k; [done|].
    replace (len (c :: l)) with (Z.succ (len l)) by (unfold len; simpl; lia).
    rewrite seqZ_cons by (pose proof (len_nonneg l); lia).
    simpl. f_equal. replace (Z.pred (Z.succ (len l))) with (len l) by lia.
    apply IH. }
  rewrite <- Hlen, Hzip.
  destruct (circular_convolution a b) as [|x l]; [done|].
  apply argmax_from_Q_exact.
Qed.

End Rounding.

(** ** The correlation engine as a whole *)

(** X1. On a positive modulus [p] one round of the loop of
    [find_max_overlap] never raises, and as long as the transform is off
    by less than one half in every entry, the local offset it records is
    an index in [[0, p)] that maximises the number of pairs (pointer
    target, string offset) whose difference is congruent to the index
    modulo [p]. Which of several maximising indices is recorded depends on
    the rounding; a strict maximum is recorded whatever the rounding, and
    is the one exact arithmetic gives. *)
Theorem local_offset_maximum (err : Z → Q) order (A B : gset Z) (p : Z) :
  enumerates order → 0 < p →
  (∀ j, 0 ≤ j < p → (- (1 # 2) < err j < 1 # 2)%Q) →
  ∃ o, local_offset_rounded err order A B p = Ret o
       ∧ 0 ≤ o < p
       ∧ (∀ j, 0 ≤ j < p →
               overlap p (elements A) (elements B) j
               ≤ overlap p (elements A) (elements B) o)
       ∧ ((∀ j, 0 ≤ j < p → j ≠ o →
                overlap p (elements A) (elements B) j
                < overlap p (elements A) (elements B) o) →
          local_offset order A B p = Ret o).
Proof.
  intros Horder Hp Herr.
  destruct (local_offset_rounded_spec err order A B p Hp)
    as (corr & Ho & Hlen & Hcorr).
  pose proof (argmax_Q_spec corr ltac:(lia)) as Hmax. rewrite Hlen in Hmax.
  assert (∀ j, overlap p (order A) (order B) j
               = overlap p (elements A) (elements B) j) as Hperm.
  { intros j. by apply overlap_perm. }
  exists (argmax_Q corr). split; [done|]. split; [by destruct Hmax|]. split.
  - intros j Hj. rewrite <- !Hperm.
    by apply (rounded_maximum err (overlap p (order A) (order B)) corr p).
  - intros Hstrict.
    destruct (local_offset_spec order A B p Hp) as (exact & -> & Hlen' & Hexact).
    f_equal. apply argmax_unique; [rewrite Hlen'; by destruct Hmax|].
    rewrite Hlen'. intros j Hj Hne.
    rewrite !Hexact, !Hperm by (try done; by destruct Hmax).
    by apply Hstrict.
Qed.

Lemma local_offset_maximum_witness :
  let err := fun j : Z => if j =? 3 then (1 # 4)%Q else 0%Q in
  ∃ o, local_offset_rounded err elements {[129; 133; 137]} {[1; 5; 9]} 13 = Ret o
       ∧ 0 ≤ o < 13
       ∧ (∀ j, 0 ≤ j < 13 →
               overlap 13 (elements ({[129; 133; 137]} : gset Z))
                       (elements ({[1; 5; 9]} : gset Z)) j
               ≤ overlap 13 (elements ({[129; 133; 137]} : gset Z))
                         (elements ({[1; 5; 9]} : gset Z)) o)
       ∧ ((∀ j, 0 ≤ j < 13 → j ≠ o →
                overlap 13 (elements ({[129; 133; 137]} : gset Z))
                        (elements ({[1; 5; 9]} : gset Z)) j
                < overlap 13 (elements ({[129; 133; 137]} : gset Z))
                          (elements ({[1; 5; 9]} : gset Z)) o) →
          local_offset elements {[129; 133; 137]} {[1; 5; 9]} 13 = Ret o).
Proof.
  apply (local_offset_maximum (fun j : Z => if j =? 3 then (1 # 4)%Q else 0%Q)
           elements {[129; 133; 137]} {[1; 5; 9]} 13).
  - intros X. reflexivity.
  - lia.
  - intros j _. destruct (j =? 3); split; reflexivity.
Defined.

(** X2. On positive pairwise-coprime moduli [find_max_overlap] returns the
    [k] in [[0, M)] whose residue modulo each modulus is exactly the local
    offset recorded for that modulus. *)
Theorem find_max_overlap_combines order (A B : gset Z) (modulos : list Z) :
  Forall (fun p => 0 < p) modulos →
  pairwise_coprime modulos →
  ∃ offsets k,
    local_offsets order A B modulos = Ret offsets
    ∧ find_max_overlap order A B modulos = Ret k
    ∧ 0 ≤ k < math_prod modulos
    ∧ Forall2 (fun p o => k mod p = o) modulos offsets.
Proof.
  intros Hpos Hpc.
  destruct (local_offsets_spec order A B modulos Hpos) as (offsets & Ho & Hall).
  assert (Forall2 (fun p o => 0 ≤ o < p) modulos offsets) as Hrange.
  { eapply Forall2_impl; [exact Hall|]. simpl.
    intros p o (corr & -> & Hp & <- & _). by apply argmax_range. }
  destruct (crt_spec modulos offsets Hpos Hpc (Forall2_length _ _ _ Hrange))
    as (k & Hk & Hkr & Hcong).
  exists offsets, k. split; [done|]. split.
  { unfold find_max_overlap. by rewrite Ho, bind_ret. }
  split; [done|].
  apply Forall2_same_length_lookup. split; [by eapply Forall2_length|].
  intros i p o Hp Hoi.
  pose proof (Forall2_lookup_lr _ _ _ _ _ _ Hcong Hp Hoi) as Hc. simpl in Hc.
  pose proof (Forall2_lookup_lr _ _ _ _ _ _ Hrange Hp Hoi) as Hr. simpl in Hr.
  rewrite Hc. by apply Z.mod_small.
Qed.

Lemma find_max_overlap_combines_witness :
  ∃ offsets k,
    local_offsets elements {[129; 133; 137]} {[1; 5; 9]} [13; 15; 17] = Ret offsets
    ∧ find_max_overlap elements {[129; 133; 137]} {[1; 5; 9]} [13; 15; 17] = Ret k
    ∧ 0 ≤ k < math_prod [13; 15; 17]
    ∧ Forall2 (fun p o => k mod p = o) [13; 15; 17] offsets.
Proof.
  apply (find_max_overlap_combines elements {[129; 133; 137]} {[1; 5; 9]}
           [13; 15; 17]).
  - repeat constructor.
  - simpl. repeat split; repeat constructor.
Defined.

(** X3. A modulus that is not positive stops the loop of
    [find_max_overlap]: a negative one with [ValueError] ([np.zeros]), the
    modulus 0 with [ZeroDivisionError] as soon as one of the sets has an
    element, and with [ValueError] (the transform of an empty array) when
    both are empty. *)
Theorem local_offset_nonpositive_modulus order (A B : gset Z) (p : Z) :
  enumerates order →
  (p < 0 → local_offset order A B p = Exc ValueError)
  ∧ (p = 0 → A = ∅ → B = ∅ → local_offset order A B p = Exc ValueError)
  ∧ (p = 0 → A ≠ ∅ ∨ B ≠ ∅ →
     local_offset order A B p = Exc ZeroDivisionError).
Proof.
  intros Horder. split; [|split].
  - intros Hp. unfold local_offset, np_zeros.
    by destruct (Z.ltb_spec p 0); [|lia].
  - intros -> -> ->. unfold local_offset. simpl.
    by rewrite (enumerates_empty order Horder).
  - intros -> Hne. unfold local_offset. simpl.
    destruct (order A) as [|x xs] eqn:HA; [|done]. simpl.
    destruct (order B) as [|y ys] eqn:HB; [|done].
    exfalso. pose proof (Horder A) as HpA. pose proof (Horder B) as HpB.
    rewrite HA in HpA. rewrite HB in HpB.
    symmetry in HpA, HpB.
    apply Permutation_nil_r in HpA, HpB.
    apply elements_empty_inv in HpA, HpB.
    destruct Hne as [Hne|Hne]; apply Hne; by apply leibniz_equiv.
Qed.

Lemma local_offset_nonpositive_modulus_witness :
  local_offset elements {[1]} {[2]} (-3) = Exc ValueError
  ∧ local_offset elements ∅ ∅ 0 = Exc ValueError
  ∧ local_offset elements {[1]} ∅ 0 = Exc ZeroDivisionError.
Proof.
  pose proof (local_offset_nonpositive_modulus elements {[1]} {[2]} (-3)
                ltac:(intros X; reflexivity)) as (H1 & _ & _).
  pose proof (local_offset_nonpositive_modulus elements ∅ ∅ 0
                ltac:(intros X; reflexivity)) as (_ & H2 & _).
  pose proof (local_offset_nonpositive_modulus elements {[1]} ∅ 0
                ltac:(intros X; reflexivity)) as (_ & _ & H3).
  split; [apply H1; lia|]. split; [by apply H2|].
  apply H3; [done|]. left. by apply (bool_decide_unpack _).
Defined.

(** ** When the inverse does not exist *)

Section NoInverse.

Lemma long_invmod_loop_fails fuel : ∀ a n b c,
  0 ≤ n → (n = 0 → 0 ≤ a) → (Z.to_nat n < fuel)%nat →
  Z.gcd a n ≠ 1 →
  long_invmod_loop fuel a n b c = Exc ValueError.
Proof.
  induction fuel as [|fuel IH]; intros a n b c Hn Ha Hfuel Hg; [lia|].
  simpl. destruct (Z.eqb_spec n 0) as [->|Hn0].
  - rewrite Z.gcd_0_r in Hg.
    destruct (Z.eqb_spec a 1) as [->|]; [done|done].
  - pose proof (Z.mod_pos_bound a n ltac:(lia)) as Hr.
    apply IH; try lia.
    rewrite Z.gcd_comm, Z.gcd_mod by done. by rewrite Z.gcd_comm.
Qed.

Lemma pow_neg1_fails x p :
  0 < p → Z.gcd x p ≠ 1 → pow_neg1 x p = Exc ValueError.
Proof.
  intros Hp Hg. unfold pow_neg1.
  destruct (Z.eqb_spec p 0) as [|_]; [lia|].
  rewrite (Z.abs_eq p) by lia.
  destruct (Z.eqb_spec p 1) as [->|Hp1]; [by rewrite Z.gcd_1_r in Hg|].
  unfold long_invmod. rewrite long_invmod_loop_fails; try done; lia.
Qed.

(** On positive moduli a term is computed or refused with [ValueError]. *)
Lemma crt_term_cases M p o :
  0 < p →
  (Z.gcd (M / p) p = 1 ∧ ∃ t, crt_term M (p, o) = Ret t)
  ∨ (Z.gcd (M / p) p ≠ 1 ∧ crt_term M (p, o) = Exc ValueError).
Proof.
  intros Hp. destruct (Z.eq_dec (Z.gcd (M / p) p) 1) as [Hg|Hg].
  - left. split; [done|].
    destruct (pow_neg1_spec _ _ Hp Hg) as (i & Hi & _).
    eexists. by apply crt_term_eq.
  - right. split; [done|]. unfold crt_term, floordiv.
    destruct (Z.eqb_spec p 0) as [|_]; [lia|].
    by rewrite bind_ret, pow_neg1_fails.
Qed.

Lemma mapM_crt_term_fails M l : ∀ os,
  Forall (fun p => 0 < p) l → length l = length os →
  Exists (fun p => Z.gcd (M / p) p ≠ 1) l →
  mapM (crt_term M) (zip l os) = Exc ValueError.
Proof.
  induction l as [|p l IH]; intros os Hpos Hlen Hex; [by inversion Hex|].
  destruct os as [|o os]; [done|].
  apply Forall_cons in Hpos as [Hp Hpos]. simpl zip. rewrite mapM_res_cons.
  destruct (crt_term_cases M p o Hp) as [[Hg [t ->]]|[Hg ->]]; [|done].
  rewrite bind_ret. apply Exists_cons in Hex as [Hex|Hex]; [done|].
  rewrite IH; [done|done|by injection Hlen|done].
Qed.

Lemma not_pairwise_coprime l :
  ¬ pairwise_coprime l →
  ∃ l1 p l2 q, l = l1 ++ p :: l2 ∧ q ∈ l2 ∧ Z.gcd p q ≠ 1.
Proof.
  induction l as [|p l IH]; intros Hn; [by destruct Hn|].
  destruct (decide (Forall (fun q => Z.gcd p q = 1) l)) as [Hall|Hnall].
  - destruct IH as (l1 & p' & l2 & q & -> & Hq & Hg).
    { intros Hpc. by apply Hn. }
    by exists (p :: l1), p', l2, q.
  - apply not_Forall_Exists in Hnall; [|intros x; apply _].
    apply Exists_exists in Hnall as (q & Hq & Hg).
    by exists [], p, l, q.
Qed.

Lemma pairwise_coprime_cases l : pairwise_coprime l ∨ ¬ pairwise_coprime l.
Proof.
  induction l as [|p l [IH|IH]]; [by left| |right; by intros [_ ?]].
  destruct (decide (Forall (fun q => Z.gcd p q = 1) l)) as [Hall|Hnall].
  - left. by split.
  - right. by intros [? _].
Qed.

End NoInverse.

(** X4. On positive moduli with one offset each, the Chinese remainder
    step returns a value exactly when the moduli are pairwise coprime;
    otherwise [pow] finds no inverse and the step ends with
    [ValueError]. *)
Theorem crt_defined_iff_coprime (modulos offsets : list Z) :
  Forall (fun p => 0 < p) modulos →
  length modulos = length offsets →
  ((∃ k, crt modulos offsets = Ret k) ↔ pairwise_coprime modulos)
  ∧ (¬ pairwise_coprime modulos → crt modulos offsets = Exc ValueError).
Proof.
  intros Hpos Hlen.
  assert (¬ pairwise_coprime modulos → crt modulos offsets = Exc ValueError)
    as Hfail.
  { intros (l1 & p & l2 & q & -> & Hq & Hg)%not_pairwise_coprime.
    unfold crt. rewrite mapM_crt_term_fails; [done|done|done|].
    apply Exists_exists. exists p. split; [set_solver|].
    assert (0 < p ∧ 0 < q) as [Hp Hq0].
    { rewrite Forall_forall in Hpos. split; apply Hpos; set_solver. }
    rewrite math_prod_split, Z.div_mul by lia.
    apply list_elem_of_split in Hq as (k1 & k2 & ->).
    intros H1. apply Hg.
    replace (l1 ++ k1 ++ q :: k2) with ((l1 ++ k1) ++ q :: k2) in H1
      by by rewrite <- app_assoc.
    rewrite math_prod_split, Z.gcd_comm in H1.
    rewrite Z.mul_comm in H1.
    rewrite Z.gcd_comm. exact (gcd_factor _ _ _ H1). }
  split; [|done]. split.
  - intros [k Hk]. destruct (pairwise_coprime_cases modulos) as [|Hn]; [done|].
    rewrite (Hfail Hn) in Hk. done.
  - intros Hpc. destruct (crt_spec modulos offsets Hpos Hpc Hlen) as (k & Hk & _).
    by exists k.
Qed.

Lemma crt_defined_iff_coprime_witness :
  crt [3; 5; 9] [2; 3; 2] = Exc ValueError.
Proof.
  destruct (crt_defined_iff_coprime [3; 5; 9] [2; 3; 2]) as [_ H];
    [repeat constructor|reflexivity|].
  apply H. intros [H3 _].
  apply Forall_cons in H3 as [_ H3]. apply Forall_cons in H3 as [H3 _].
  by vm_compute in H3.
Defined.

(** ** Runs of the program *)

Section Runs.

Lemma crt_range modulos offsets k :
  Forall (fun p => 0 < p) modulos →
  crt modulos offsets = Ret k → 0 ≤ k < math_prod modulos.
Proof.
  intros Hpos. pose proof (math_prod_pos _ Hpos) as HM. unfold crt.
  destruct (mapM _ _) as [ts|]; [|done]. rewrite bind_ret. unfold pymod.
  destruct (Z.eqb_spec (math_prod modulos) 0); [lia|].
  intros [= <-]. by apply Z.mod_pos_bound.
Qed.

Lemma find_max_overlap_range order A B modulos k :
  find_max_overlap order A B modulos = Ret k →
  Forall (fun p => 0 < p) modulos ∧ 0 ≤ k < math_prod modulos.
Proof.
  unfold find_max_overlap.
  destruct (local_offsets order A B modulos) as [offsets|] eqn:Ho; [|done].
  rewrite bind_ret. intros Hk.
  pose proof (local_offsets_positive _ _ _ _ _ Ho) as Hpos.
  split; [done|]. by eapply crt_range.
Qed.

Lemma find_max_overlap_defined order A B modulos :
  Forall (fun p => 0 < p) modulos → pairwise_coprime modulos →
  ∃ k, find_max_overlap order A B modulos = Ret k.
Proof.
  intros Hpos Hpc.
  destruct (local_offsets_spec order A B modulos Hpos) as (offsets & Ho & Hall).
  destruct (crt_spec modulos offsets Hpos Hpc (Forall2_length _ _ _ Hall))
    as (k & Hk & _).
  exists k. unfold find_max_overlap. by rewrite Ho, bind_ret.
Qed.

Lemma get_pointed_addresses_defined b endian W A :
  A ≠ 0 → ∃ pointers, get_pointed_addresses b endian W A = Ret pointers.
Proof.
  intros HA. unfold get_pointed_addresses, py_range.
  destruct (Z.eqb_spec A 0); [done|].
  destruct (0 <? A); by eexists.
Qed.

(** The slack factor of a positive alignment that has a float. *)
Lemma slack_not_negative args :
  0 < alignment args < FLOAT_LIMIT →
  (∀ f, arg_f args = Some f → not_negative f) →
  ∃ f, slack args = Ret f ∧ not_negative f.
Proof.
  intros Ha Hf. unfold slack. destruct (arg_f args) as [f|].
  { exists f. split; [done|]. by apply Hf. }
  pose proof (default_slack_cases (alignment args)) as Hc.
  destruct (default_slack (alignment args)) as [f|e].
  - exists f. split; [done|]. apply Hc. lia.
  - destruct e; try done; lia.
Qed.

End Runs.

(** X5. With a supported endianness, a positive alignment that has a
    float, a minimum length below the limit of the pattern compiler, a
    pointer width that is not negative, a blob of fewer than [2^63] bytes
    and the default slack factor, the program raises nothing and does not
    loop: it ends by printing a report. The same holds for a slack factor
    given on the command line that is not negative and whose product with
    the length of the blob converts to an integer. *)
Theorem main_prints order (args : Args) (b : list byte) :
  parse_endian (arg_e args) ≠ None →
  0 < alignment args < FLOAT_LIMIT →
  arg_n args < MAXREPEAT →
  0 ≤ arg_l args →
  len b < 2 ^ 63 →
  (∀ f, arg_f args = Some f →
        not_negative f ∧ ∃ n, lower_bound (len b) f = Ret n) →
  ∃ fuel log r, ∀ fuel', (fuel ≤ fuel')%nat →
    main order fuel' args b = Printed log r.
Proof.
  intros He Ha Hn Hl HL Hf. unfold main.
  destruct (parse_endian (arg_e args)) as [endian|]; [|done].
  destruct (slack_not_negative args Ha) as (f & Hs & Hf0).
  { intros f Hf'. by apply Hf. }
  assert (∃ n, lower_bound (len b) f = Ret n) as [n Hn0].
  { unfold slack in Hs. destruct (arg_f args) as [f'|] eqn:Hf'.
    - injection Hs as ->. by apply Hf.
    - eapply lower_bound_default; [|split; [apply len_nonneg|exact HL]|exact Hs].
      lia. }
  rewrite Hs, Hn0.
  pose proof (lower_bound_not_negative _ _ _ (len_nonneg b) Hf0 Hn0) as Hnn.
  destruct (get_string_addresses_defined b _ Hn) as [strings ->].
  destruct (get_pointed_addresses_defined b endian (arg_l args) (alignment args))
    as [pointers ->]; [lia|].
  rewrite (upper_bound_width _ _ Hl).
  destruct (program_moduli n (2 ^ (arg_l args * 8) + len b) Hnn)
    as (fuel & modulos & Hfuel & Hpos & Hpc & _).
  destruct (find_max_overlap_defined order pointers strings modulos Hpos Hpc)
    as [k Hk].
  exists fuel. eexists _, _. intros fuel' Hle.
  by rewrite (Hfuel fuel' Hle), Hk.
Qed.

Lemma main_prints_witness :
  ∃ fuel log r, ∀ fuel', (fuel ≤ fuel')%nat →
    main elements fuel' sample_args sample_blob = Printed log r.
Proof.
  apply (main_prints elements sample_args sample_blob).
  - done.
  - by vm_compute.
  - by vm_compute.
  - by vm_compute.
  - by vm_compute.
  - intros f Hf. done.
Defined.

(** X6. Whatever the program prints is within bounds (pointer width
    [W ≥ 0]): a negative offset [-v] has [0 < v < len b], so [-0x0] is never
    printed, and a positive offset [k] has [0 ≤ k < 2^(8W)]. *)
Theorem report_bounds order fuel (args : Args) (b : list byte) log r :
  0 ≤ arg_l args →
  main order fuel args b = Printed log r →
  (∀ v, r = OffsetNegative v → 0 < v < len b)
  ∧ (∀ k, r = OffsetPositive k → 0 ≤ k < 2 ^ (arg_l args * 8)).
Proof.
  intros Hl. unfold main.
  destruct (parse_endian (arg_e args)) as [endian|]; [|done].
  destruct (slack args) as [f|]; [|done].
  destruct (get_string_addresses b (arg_n args)) as [strings|]; [|done].
  destruct (get_pointed_addresses _ _ _ _) as [pointers|]; [|done].
  destruct (lower_bound _ _) as [n|]; [|done].
  destruct (upper_bound _ _) as [m|]; [|done].
  destruct (find_coprime_numbers _ _ _) as [modulos|]; [|done].
  destruct (find_max_overlap order pointers strings modulos) as [k|] eqn:Hk;
    [|done].
  apply find_max_overlap_range in Hk as [_ Hk].
  intros [= _ <-]. unfold interpret. rewrite lt_pow2_nonneg by lia.
  destruct (Z.ltb_spec (math_prod modulos - k) (len b));
    [|destruct (Z.ltb_spec k (2 ^ (arg_l args * 8)))];
    split; intros ? [= <-]; lia.
Qed.

Lemma report_bounds_witness :
  0 ≤ 128 < 2 ^ (arg_l sample_args * 8).
Proof.
  destruct (report_bounds elements 3 sample_args sample_blob
              [FoundStrings 3] (OffsetPositive 128)) as [_ H].
  - by vm_compute.
  - by vm_compute.
  - by apply H.
Defined.

(** X7. For the lower bounds [-2] and [-3] and any upper bound [m ≥ -1]
    the loop of [find_coprime_numbers] never ends: the first candidate is
    [-1], every later candidate is positive and the product stays
    negative. *)
Theorem find_coprime_numbers_never_returns (fuel : nat) (n m : Z) :
  -3 ≤ n ≤ -2 → -1 ≤ m → find_coprime_numbers fuel n m = None.
Proof.
  intros Hn Hm. unfold find_coprime_numbers.
  assert (first_candidate n = -1) as ->.
  { unfold first_candidate.
    destruct (Z.eq_dec n (-2)) as [->|]; [done|].
    by replace n with (-3) by lia. }
  by apply coprime_loop_negative_diverges.
Qed.

Lemma find_coprime_numbers_never_returns_witness :
  find_coprime_numbers 1000 (-3) (2 ^ 64) = None.
Proof. apply (find_coprime_numbers_never_returns 1000 (-3) (2 ^ 64)); lia. Defined.

(** X8. A slack factor that puts the lower bound of the moduli at [-2] or
    [-3] makes the program hang after the two extractions (pointer width
    [W ≥ 0]): whatever the budget, the run is still building the moduli,
    with [Found k strings] already written. *)
Theorem main_loops_on_negative_bound order fuel (args : Args) (b : list byte)
    endian f n strings pointers :
  parse_endian (arg_e args) = Some endian →
  slack args = Ret f →
  lower_bound (len b) f = Ret n →
  -3 ≤ n ≤ -2 →
  0 ≤ arg_l args →
  get_string_addresses b (arg_n args) = Ret strings →
  get_pointed_addresses b endian (arg_l args) (alignment args) = Ret pointers →
  main order fuel args b = Looping [FoundStrings (size strings)].
Proof.
  intros He Hf Hlow Hn Hl Hs Hp. unfold main.
  rewrite He, Hf, Hs, Hp, Hlow, (upper_bound_width _ _ Hl).
  assert (find_coprime_numbers fuel n (2 ^ (arg_l args * 8) + len b) = None)
    as ->; [|done].
  unfold find_coprime_numbers.
  assert (first_candidate n = -1) as ->.
  { unfold first_candidate.
    destruct (Z.eq_dec n (-2)) as [->|]; [done|].
    by replace n with (-3) by lia. }
  apply coprime_loop_negative_diverges; [|lia|lia].
  pose proof (Z.pow_pos_nonneg 2 (arg_l args * 8) ltac:(lia) ltac:(lia)).
  pose proof (len_nonneg b). lia.
Qed.

Lemma main_loops_on_negative_bound_witness :
  main elements 1000
       {| arg_n := 2; arg_l := 1; arg_e := "big"; arg_a := Some 4;
          arg_f := Some (float_lit (-1) (-2)) |} sample_blob
  = Looping [FoundStrings (size ({[1; 5; 9]} : gset Z))].
Proof.
  apply (main_loops_on_negative_bound elements 1000
           {| arg_n := 2; arg_l := 1; arg_e := "big"; arg_a := Some 4;
              arg_f := Some (float_lit (-1) (-2)) |} sample_blob big
           (float_lit (-1) (-2)) (-3) {[1; 5; 9]} {[129; 133; 137]}).
  - reflexivity.
  - reflexivity.
  - by vm_compute.
  - lia.
  - by vm_compute.
  - by vm_compute.
  - by vm_compute.
Defined.

(** ** Size of the pointer set *)

Section PointerCount.

Lemma size_scan_acc b endian W offsets : ∀ acc : gset Z,
  (size (foldl (fun pointed_addresses i =>
                  pointed_addresses
                  ∪ {[ int_from_bytes (py_slice b i (i + W)) endian ]})
               acc offsets)
   ≤ size acc + length offsets)%nat.
Proof.
  induction offsets as [|i offsets IH]; intros acc; simpl; [lia|].
  etrans; [apply IH|].
  rewrite size_union_alt.
  assert (size (({[int_from_bytes (py_slice b i (i + W)) endian]} : gset Z) ∖ acc)
          ≤ 1)%nat; [|lia].
  rewrite <- (size_singleton (C := gset Z)
                (int_from_bytes (py_slice b i (i + W)) endian)).
  apply subseteq_size. by apply subseteq_difference_l.
Qed.

Lemma size_scan b endian W offsets :
  (size (scan b endian W offsets) ≤ length offsets)%nat.
Proof.
  unfold scan. etrans; [apply size_scan_acc|]. by rewrite size_empty.
Qed.

End PointerCount.

(** X9. For a stride [A > 0], [get_pointed_addresses] raises nothing and
    returns at most [(len b - W) / A + 1] addresses (none when that is not
    positive); a blob shorter than the pointer width gives the empty
    set. *)
Theorem get_pointed_addresses_size (b : list byte) (endian : byteorder)
    (W A : Z) :
  0 < A →
  ∃ S, get_pointed_addresses b endian W A = Ret S
       ∧ Z.of_nat (size S) ≤ Z.max 0 ((len b - W) / A + 1)
       ∧ (len b < W → S = ∅).
Proof.
  intros HA. unfold get_pointed_addresses, py_range.
  destruct (Z.eqb_spec A 0); [lia|].
  destruct (Z.ltb_spec 0 A); [|lia]. rewrite bind_ret.
  eexists; split; [done|].
  replace ((len b - W + 1 + A - 1) / A) with ((len b - W) / A + 1)
    by (rewrite <- Z.div_add by lia; f_equal; lia).
  split.
  - etrans; [apply inj_le, size_scan|].
    rewrite length_fmap, length_seqZ. lia.
  - intros Hshort.
    assert ((len b - W) / A + 1 ≤ 0) as Hc.
    { assert ((len b - W) / A < 0); [|lia].
      apply Z.div_lt_upper_bound; lia. }
    unfold seqZ. replace (Z.to_nat ((len b - W) / A + 1)) with 0%nat by lia.
    done.
Qed.

Lemma get_pointed_addresses_size_witness :
  ∃ S, get_pointed_addresses sample_blob big 1 4 = Ret S
       ∧ Z.of_nat (size S) ≤ Z.max 0 ((len sample_blob - 1) / 4 + 1)
       ∧ (len sample_blob < 1 → S = ∅).
Proof. apply (get_pointed_addresses_size sample_blob big 1 4). lia. Defined.

(** ** Decoding is one-to-one on a fixed width *)

Section Decoding.

Lemma byte_val_inj x y : byte_val x = byte_val y → x = y.
Proof.
  unfold byte_val. intros H. apply N2Z.inj in H.
  pose proof (Byte.of_to_N x) as Hx. pose proof (Byte.of_to_N y) as Hy.
  rewrite H in Hx. congruence.
Qed.

Lemma from_little_inj bs1 : ∀ bs2,
  length bs1 = length bs2 → from_little bs1 = from_little bs2 → bs1 = bs2.
Proof.
  induction bs1 as [|x bs1 IH]; intros [|y bs2] Hlen Hv; try done.
  simpl in *. pose proof (byte_val_range x). pose proof (byte_val_range y).
  assert (byte_val x = byte_val y ∧ from_little bs1 = from_little bs2)
    as [Hxy Hrest] by lia.
  f_equal; [by apply byte_val_inj|]. apply IH; [lia|done].
Qed.

End Decoding.

(** X10. Two windows of the same width inside the blob decode to the same
    address exactly when they hold the same bytes, in either byte order:
    the set of [get_pointed_addresses] merges equal windows and nothing
    else. *)
Theorem int_from_bytes_window_inj (b : list byte) (endian : byteorder)
    (W i j : Z) :
  0 ≤ W → 0 ≤ i → 0 ≤ j → i + W ≤ len b → j + W ≤ len b →
  int_from_bytes (py_slice b i (i + W)) endian
  = int_from_bytes (py_slice b j (j + W)) endian
  ↔ py_slice b i (i + W) = py_slice b j (j + W).
Proof.
  intros HW Hi Hj Hiw Hjw. split; [|by intros ->].
  rewrite !py_slice_window by done.
  assert (∀ k, 0 ≤ k → k + W ≤ len b →
               length (take (Z.to_nat W) (drop (Z.to_nat k) b)) = Z.to_nat W)
    as Hlen.
  { intros k Hk Hkw. unfold len in *. rewrite length_take, length_drop. lia. }
  destruct endian; simpl; intros Hv.
  - apply from_little_inj; [|done]. by rewrite !Hlen.
  - apply from_little_inj in Hv; [|by rewrite !length_rev, !Hlen].
    apply (f_equal (@rev byte)) in Hv. by rewrite !rev_involutive in Hv.
Qed.

Lemma int_from_bytes_window_inj_witness :
  int_from_bytes (py_slice sample_blob 0 (0 + 2)) big
  = int_from_bytes (py_slice sample_blob 4 (4 + 2)) big
  ↔ py_slice sample_blob 0 (0 + 2) = py_slice sample_blob 4 (4 + 2).
Proof.
  apply (int_from_bytes_window_inj sample_blob big 2 0 4); by vm_compute.
Defined.

(** ** The string locator *)

Section Locator.

Lemma repeat_greedy_sound r k
    (IH : ∀ s k e, rmatch r s k = Some e →
                   ∃ u s', s = u ++ s' ∧ matches r u ∧ k s' = Some e)
    fuel : ∀ lo s e,
  repeat_greedy (rmatch r) k fuel lo s = Some e →
  ∃ us s', s = concat us ++ s' ∧ Forall (matches r) us
           ∧ (lo ≤ length us)%nat ∧ k s' = Some e.
Proof.
  induction fuel as [|fuel IHfuel]; intros lo s e; simpl.
  - destruct lo; [|done]. intros H. by exists [], s.
  - match goal with
    | |- context [rmatch r s ?k'] => destruct (rmatch r s k') as [e1|] eqn:H1
    end.
    + intros [= <-]. apply IH in H1 as (u & s1 & -> & Hu & H1).
      destruct (Nat.ltb_spec (length s1) (length (u ++ s1))); [|done].
      apply IHfuel in H1 as (us & s' & -> & Hus & Hlo & Hk).
      exists (u :: us), s'. simpl. rewrite <- app_assoc.
      split; [done|]. split; [by constructor|]. split; [lia|done].
    + destruct lo; [|done]. intros H. by exists [], s.
Qed.

(** Whatever the matcher consumes is a word of the pattern. *)
Lemma rmatch_sound r : ∀ s k e,
  rmatch r s k = Some e →
  ∃ u s', s = u ++ s' ∧ matches r u ∧ k s' = Some e.
Proof.
  induction r as [ranges|c|r1 IH1 r2 IH2|r1 IH1 r2 IH2|r IH lo];
    intros s k e.
  - simpl. destruct s as [|c s]; [done|].
    destruct (in_ranges ranges c) eqn:Hc; [|done].
    intros H. exists [c], s. split; [done|]. split; [by constructor|done].
  - simpl. destruct s as [|c' s]; [done|].
    destruct (Z.eqb_spec (byte_val c') (byte_val c)) as [Hc|]; [|done].
    intros H. exists [c'], s. split; [done|]. split; [by constructor|done].
  - simpl. intros (u & s1 & -> & Hu & (v & s2 & -> & Hv & H)%IH2)%IH1.
    exists (u ++ v), s2. rewrite <- app_assoc.
    split; [done|]. split; [by constructor|done].
  - simpl. destruct (rmatch r1 s k) as [e1|] eqn:H1.
    + intros [= <-]. apply IH1 in H1 as (u & s' & -> & Hu & H).
      exists u, s'. split; [done|]. split; [by apply matches_alt_l|done].
    + intros (u & s' & -> & Hu & H)%IH2.
      exists u, s'. split; [done|]. split; [by apply matches_alt_r|done].
  - change (rmatch (RAtLeast r lo) s k)
      with (repeat_greedy (rmatch r) k (S (length s)) lo s).
    intros (us & s' & -> & Hus & Hlo & H)%(repeat_greedy_sound r k IH).
    exists (concat us), s'. split; [done|]. split; [by constructor|done].
Qed.

(** Every reported position starts a word of the pattern. *)
Lemma finditer_sound r fuel : ∀ pos s o,
  o ∈ finditer fuel r pos s →
  ∃ pre u rest, s = pre ++ u ++ rest ∧ o = pos + len pre ∧ matches r u.
Proof.
  induction fuel as [|fuel IH]; intros pos s o; simpl.
  { intros H. by apply elem_of_nil in H. }
  assert (∀ c s', s = c :: s' → o ∈ finditer fuel r (pos + 1) s' →
                  ∃ pre u rest, s = pre ++ u ++ rest ∧ o = pos + len pre
                                ∧ matches r u) as Hstep.
  { intros c s' -> Ho. apply IH in Ho as (pre & u & rest & -> & -> & Hu).
    exists (c :: pre), u, rest. split; [done|]. split; [|done].
    unfold len. simpl. lia. }
  destruct (rmatch r s Some) as [rest|] eqn:Hm.
  - apply rmatch_sound in Hm as (u & s' & -> & Hu & [= ->]).
    assert (o = pos → ∃ pre u0 rest0, u ++ rest = pre ++ u0 ++ rest0
                                     ∧ o = pos + len pre ∧ matches r u0)
      as Hhere.
    { intros ->. exists [], u, rest. unfold len. simpl.
      split; [done|]. split; [lia|done]. }
    destruct (Z.eqb_spec (len (u ++ rest) - len rest) 0) as [H0|H0].
    + intros [->|Ho]%elem_of_cons; [by apply Hhere|].
      destruct (u ++ rest) as [|c s'] eqn:Hs; [by apply elem_of_nil in Ho|].
      by apply (Hstep c s').
    + intros [->|Ho]%elem_of_cons; [by apply Hhere|].
      apply IH in Ho as (pre & u' & rest' & -> & -> & Hu').
      exists (u ++ pre), u', rest'. rewrite <- app_assoc.
      split; [done|]. split; [|done].
      rewrite !len_app. lia.
  - destruct s as [|c s']; [intros H; by apply elem_of_nil in H|].
    intros Ho. by apply (Hstep c s').
Qed.

Lemma in_ranges_nonzero ranges c :
  Forall (fun r => 0 < r.1) ranges → in_ranges ranges c = true →
  byte_val c ≠ 0.
Proof.
  intros Hpos. unfold in_ranges. rewrite existsb_exists.
  intros ([lo hi] & Hin & Hc).
  apply list_elem_of_In in Hin. eapply Forall_forall in Hpos; [|exact Hin].
  simpl in Hpos. apply andb_true_iff in Hc as [Hlo _].
  apply Z.leb_le in Hlo. lia.
Qed.

Ltac invert_matches :=
  repeat match goal with
    | H : matches (RSet _) _ |- _ => inversion H; subst; clear H
    | H : matches (RCat _ _) _ |- _ => inversion H; subst; clear H
    | H : matches (RAlt _ _) _ |- _ => inversion H; subst; clear H
    | H : matches (RLit _) _ |- _ => inversion H; subst; clear H
    end.

(** A code point is one to four bytes, none of them NUL. *)
Lemma code_point_word u :
  matches code_point u →
  (1 ≤ length u ≤ 4)%nat ∧ Forall (fun c => c ≠ x00) u.
Proof.
  intros H. unfold code_point, continuation in H. simpl in H.
  assert (∀ ranges c, Forall (fun r => 0 < r.1) ranges →
                      in_ranges ranges c = true → c ≠ x00) as Hnz.
  { intros ranges c Hpos Hc ->.
    by apply (in_ranges_nonzero _ _ Hpos Hc). }
  invert_matches; (split; [simpl; lia|]);
    repeat (first [apply Forall_nil_2 | apply Forall_cons_2]);
    (eapply Hnz; [|eassumption]); repeat constructor.
Qed.

Lemma concat_code_points us :
  Forall (matches code_point) us →
  (length us ≤ length (concat us))%nat
  ∧ Forall (fun c => c ≠ x00) (concat us).
Proof.
  induction 1 as [|u us Hu _ [IHlen IHnz]]; [by split|].
  apply code_point_word in Hu as [Hlen Hnz]. simpl. rewrite length_app.
  split; [lia|]. by apply Forall_app.
Qed.

(** The words of the pattern with a count [n ≥ 0]: at least [n] code
    points, then a NUL. *)
Lemma string_regex_word n r u :
  0 ≤ n → string_regex n = Ret r → matches r u →
  ∃ us, u = concat us ++ [x00] ∧ (Z.to_nat n ≤ length us)%nat
        ∧ Forall (matches code_point) us.
Proof.
  intros Hn. unfold string_regex.
  destruct (Z.ltb_spec n 0); [lia|].
  destruct (Z.leb_spec MAXREPEAT n); [done|].
  intros [= <-] Hm. inversion Hm as [| |r1 r2 u1 v H1 H2| | |]; subst.
  inversion H1 as [| | | | |r' lo' us Hus Hlo]; subst.
  inversion H2 as [|c c' Hc| | | |]; subst.
  exists us. split; [|done].
  by rewrite (byte_val_inj c' x00 Hc).
Qed.

End Locator.

Section LocatorCount.

Lemma size_list_to_set_le (l : list Z) :
  (size (list_to_set l : gset Z) ≤ length l)%nat.
Proof.
  induction l as [|x l IH]; simpl; [done|].
  rewrite size_union_alt, size_singleton.
  assert (size ((list_to_set l : gset Z) ∖ {[x]}) ≤ size (list_to_set l : gset Z))%nat;
    [|lia].
  apply subseteq_size. by apply subseteq_difference_l.
Qed.

(** Matches do not overlap: if each consumes at least [m ≥ 1] bytes, there
    are at most [length s / m] of them. *)
Lemma finditer_count r (m : nat) :
  (1 ≤ m)%nat →
  (∀ s rest, rmatch r s Some = Some rest → (length rest + m ≤ length s)%nat) →
  ∀ fuel pos s, (length (finditer fuel r pos s) * m ≤ length s)%nat.
Proof.
  intros Hm Hr. induction fuel as [|fuel IH]; intros pos s; simpl; [lia|].
  destruct (rmatch r s Some) as [rest|] eqn:Hmatch.
  - apply Hr in Hmatch.
    destruct (Z.eqb_spec (len s - len rest) 0) as [H0|H0];
      [unfold len in H0; lia|].
    simpl. specialize (IH (pos + (len s - len rest)) rest). lia.
  - destruct s as [|c s']; simpl; [lia|].
    specialize (IH (pos + 1) s'). lia.
Qed.

Lemma string_regex_consumes n r s rest :
  0 ≤ n → string_regex n = Ret r → rmatch r s Some = Some rest →
  (length rest + (Z.to_nat n + 1) ≤ length s)%nat.
Proof.
  intros Hn Hr (u & s' & -> & Hu & [= ->])%rmatch_sound.
  destruct (string_regex_word n r u Hn Hr Hu) as (us & -> & Hlen & Hus).
  apply concat_code_points in Hus as [Hc _].
  rewrite !length_app. simpl. lia.
Qed.

End LocatorCount.

(** X11. Every offset returned by [get_string_addresses] (count
    [0 ≤ n < 2^32 - 1]) is the start of at least [n] code points of the
    pattern, none containing a NUL byte, followed at once by a NUL byte;
    the whole match lies inside the blob. *)
Theorem get_string_addresses_sound (b : list byte) (n : Z) :
  0 ≤ n < MAXREPEAT →
  ∃ S, get_string_addresses b n = Ret S
       ∧ ∀ o, o ∈ S →
              ∃ pre us rest,
                b = pre ++ concat us ++ x00 :: rest
                ∧ o = len pre
                ∧ n ≤ len us
                ∧ Forall (matches code_point) us
                ∧ Forall (fun c => c ≠ x00) (concat us)
                ∧ o + n + 1 ≤ len b.
Proof.
  intros Hn.
  destruct (string_regex n) as [r|] eqn:Hr; cycle 1.
  { unfold string_regex in Hr. destruct (Z.ltb_spec n 0); [done|].
    destruct (Z.leb_spec MAXREPEAT n); [lia|done]. }
  unfold get_string_addresses. rewrite Hr, bind_ret.
  eexists; split; [done|]. intros o Ho.
  apply elem_of_list_to_set, finditer_sound in Ho
    as (pre & u & rest & -> & -> & Hu).
  destruct (string_regex_word n r u ltac:(lia) Hr Hu) as (us & -> & Hlen & Hus).
  pose proof (concat_code_points us Hus) as [Hc Hnz].
  exists pre, us, rest. rewrite <- app_assoc. simpl.
  split; [done|]. split; [lia|]. split; [unfold len; lia|].
  split; [done|]. split; [done|].
  rewrite !len_app. unfold len. simpl. lia.
Qed.

Lemma get_string_addresses_sound_witness :
  ∃ S, get_string_addresses sample_blob 2 = Ret S
       ∧ ∀ o, o ∈ S →
              ∃ pre us rest,
                sample_blob = pre ++ concat us ++ x00 :: rest
                ∧ o = len pre
                ∧ 2 ≤ len us
                ∧ Forall (matches code_point) us
                ∧ Forall (fun c => c ≠ x00) (concat us)
                ∧ o + 2 + 1 ≤ len sample_blob.
Proof. apply (get_string_addresses_sound sample_blob 2). by vm_compute. Defined.

(** X12. The matches do not overlap and each takes at least [n + 1]
    bytes: [get_string_addresses] returns at most [len b / (n + 1)]
    offsets, and none on a blob shorter than [n + 1]. *)
Theorem get_string_addresses_count (b : list byte) (n : Z) :
  0 ≤ n < MAXREPEAT →
  ∃ S, get_string_addresses b n = Ret S
       ∧ Z.of_nat (size S) * (n + 1) ≤ len b
       ∧ (len b < n + 1 → S = ∅).
Proof.
  intros Hn.
  destruct (string_regex n) as [r|] eqn:Hr; cycle 1.
  { unfold string_regex in Hr. destruct (Z.ltb_spec n 0); [done|].
    destruct (Z.leb_spec MAXREPEAT n); [lia|done]. }
  unfold get_string_addresses. rewrite Hr, bind_ret.
  eexists; split; [done|].
  pose proof (size_list_to_set_le (finditer (S (length b)) r 0 b)) as Hsize.
  pose proof (finditer_count r (Z.to_nat n + 1) ltac:(lia)
                (fun s rest => string_regex_consumes n r s rest ltac:(lia) Hr)
                (S (length b)) 0 b) as Hcount.
  assert (Z.of_nat (size (list_to_set (finditer (S (length b)) r 0 b) : gset Z))
          * (n + 1) ≤ len b) as Hbound by (unfold len; nia).
  split; [done|]. intros Hshort.
  apply leibniz_equiv, size_empty_inv. nia.
Qed.

Lemma get_string_addresses_count_witness :
  ∃ S, get_string_addresses sample_blob 2 = Ret S
       ∧ Z.of_nat (size S) * (2 + 1) ≤ len sample_blob
       ∧ (len sample_blob < 2 + 1 → S = ∅).
Proof. apply (get_string_addresses_count sample_blob 2). by vm_compute. Defined.

Section LocatorComplete.

Lemma rmatch_code_point_ascii c s k :
  printable_ascii c → rmatch code_point (c :: s) k = k s.
Proof.
  intros Hc. unfold code_point, continuation. cbn [rmatch rtimes].
  assert (in_ranges [(10, 10); (13, 13); (9, 9); (12, 12); (32, 126); (10, 10)] c
          = true) as ->.
  { unfold in_ranges. simpl. unfold printable_ascii in Hc.
    rewrite !orb_true_iff, !andb_true_iff, !Z.leb_le. intuition lia. }
  assert (in_ranges [(194, 223)] c = false) as ->.
  { unfold in_ranges. simpl. unfold printable_ascii in Hc.
    rewrite orb_false_r. apply andb_false_iff. left. apply Z.leb_gt. lia. }
  assert (in_ranges [(224, 239)] c = false) as ->.
  { unfold in_ranges. simpl. unfold printable_ascii in Hc.
    rewrite orb_false_r. apply andb_false_iff. left. apply Z.leb_gt. lia. }
  assert (in_ranges [(240, 244)] c = false) as ->.
  { unfold in_ranges. simpl. unfold printable_ascii in Hc.
    rewrite orb_false_r. apply andb_false_iff. left. apply Z.leb_gt. lia. }
  by destruct (k s).
Qed.

Lemma rmatch_code_point_nul s k : rmatch code_point (x00 :: s) k = None.
Proof. reflexivity. Qed.

Lemma repeat_greedy_S step k fuel lo s :
  repeat_greedy step k (S fuel) lo s
  = match step s (fun s' =>
             if (length s' <? length s)%nat
             then repeat_greedy step k fuel (pred lo) s' else None) with
    | Some e => Some e
    | None => match lo with O => k s | S _ => None end
    end.
Proof. reflexivity. Qed.

(** On a run of printable bytes closed by a NUL the repetition takes the
    whole run. *)
Lemma repeat_greedy_ascii_run t w : ∀ fuel lo,
  Forall printable_ascii w →
  (length w < fuel)%nat → (lo ≤ length w)%nat →
  repeat_greedy (rmatch code_point) (fun s' => rmatch (RLit x00) s' Some)
                fuel lo (w ++ x00 :: t)
  = Some t.
Proof.
  induction w as [|c w IH]; intros fuel lo Hw Hfuel Hlo.
  - destruct fuel as [|fuel]; [simpl in Hfuel; lia|].
    simpl in Hlo. replace lo with 0%nat by lia.
    simpl app. by rewrite repeat_greedy_S, rmatch_code_point_nul.
  - destruct fuel as [|fuel]; [simpl in Hfuel; lia|].
    apply Forall_cons in Hw as [Hc Hw].
    simpl app. rewrite repeat_greedy_S, rmatch_code_point_ascii by done.
    destruct (Nat.ltb_spec (length (w ++ x00 :: t)) (length (c :: w ++ x00 :: t)));
      [|simpl in *; lia].
    rewrite IH; [done|done|simpl in *; lia|simpl in *; lia].
Qed.

Lemma string_regex_ascii_run n r w t :
  0 ≤ n → string_regex n = Ret r →
  Forall printable_ascii w → n ≤ len w →
  rmatch r (w ++ x00 :: t) Some = Some t.
Proof.
  intros Hn Hr Hw Hlen. unfold string_regex in Hr.
  destruct (Z.ltb_spec n 0); [lia|].
  destruct (Z.leb_spec MAXREPEAT n); [done|]. injection Hr as <-.
  change (rmatch (RCat (RAtLeast code_point (Z.to_nat n)) (RLit x00))
            (w ++ x00 :: t) Some)
    with (repeat_greedy (rmatch code_point)
            (fun s' => rmatch (RLit x00) s' Some)
            (S (length (w ++ x00 :: t))) (Z.to_nat n) (w ++ x00 :: t)).
  apply repeat_greedy_ascii_run; [done| |unfold len in Hlen; lia].
  rewrite length_app. lia.
Qed.

Lemma string_regex_at_nul n r s :
  0 ≤ n → string_regex n = Ret r →
  rmatch r (x00 :: s) Some = if decide (n = 0) then Some s else None.
Proof.
  intros Hn Hr. unfold string_regex in Hr.
  destruct (Z.ltb_spec n 0); [lia|].
  destruct (Z.leb_spec MAXREPEAT n); [done|]. injection Hr as <-.
  change (rmatch (RCat (RAtLeast code_point (Z.to_nat n)) (RLit x00))
            (x00 :: s) Some)
    with (repeat_greedy (rmatch code_point)
            (fun s' => rmatch (RLit x00) s' Some)
            (S (length (x00 :: s))) (Z.to_nat n) (x00 :: s)).
  rewrite repeat_greedy_S, rmatch_code_point_nul.
  case_decide as Hzero.
  - subst n. reflexivity.
  - destruct (Z.to_nat n) eqn:Hz; [lia|done].
Qed.

Lemma finditer_after_padding n r w t pre : ∀ fuel pos,
  0 ≤ n → string_regex n = Ret r →
  Forall printable_ascii w → n ≤ len w →
  Forall (fun c => c = x00) pre →
  (length (pre ++ w ++ x00 :: t) < fuel)%nat →
  pos + len pre ∈ finditer fuel r pos (pre ++ w ++ x00 :: t).
Proof.
  induction pre as [|z pre IH]; intros fuel pos Hn Hr Hw Hlen Hpre Hfuel.
  - destruct fuel as [|fuel]; [lia|]. simpl.
    rewrite (string_regex_ascii_run n r w t) by done.
    replace (pos + len []) with pos by (unfold len; simpl; lia).
    destruct (_ =? 0); apply list_elem_of_here.
  - destruct fuel as [|fuel]; [lia|].
    apply Forall_cons in Hpre as [-> Hpre].
    replace (pos + len (x00 :: pre)) with (pos + 1 + len pre)
      by (unfold len; simpl; lia).
    simpl app. simpl finditer.
    rewrite (string_regex_at_nul n r) by done.
    simpl in Hfuel.
    case_decide.
    + replace (len (x00 :: pre ++ w ++ x00 :: t) - len (pre ++ w ++ x00 :: t))
        with 1 by (unfold len; simpl; lia).
      simpl. apply list_elem_of_further. apply IH; try done. lia.
    + apply IH; try done. lia.
Qed.

End LocatorComplete.

(** X13. After a zero padding, a run of at least [n] printable ASCII
    bytes closed by a NUL is found: its start offset is in the set
    [get_string_addresses] returns, whatever follows the NUL. *)
Theorem get_string_addresses_finds_ascii (pre w t : list byte) (n : Z) :
  0 ≤ n < MAXREPEAT →
  Forall (fun c => c = x00) pre →
  Forall printable_ascii w →
  n ≤ len w →
  ∃ S, get_string_addresses (pre ++ w ++ x00 :: t) n = Ret S ∧ len pre ∈ S.
Proof.
  intros Hn Hpre Hw Hlen.
  destruct (string_regex n) as [r|] eqn:Hr; cycle 1.
  { unfold string_regex in Hr. destruct (Z.ltb_spec n 0); [done|].
    destruct (Z.leb_spec MAXREPEAT n); [lia|done]. }
  unfold get_string_addresses. rewrite Hr, bind_ret.
  eexists; split; [done|].
  apply elem_of_list_to_set.
  replace (len pre) with (0 + len pre) by lia.
  apply (finditer_after_padding n r); try done; lia.
Qed.

Lemma get_string_addresses_finds_ascii_witness :
  ∃ S, get_string_addresses
         ([x00; x00; x00] ++ [x48; x45; x4c; x4c; x4f] ++ x00 :: [xff; x41]) 5
       = Ret S
       ∧ len [x00; x00; x00] ∈ S.
Proof.
  apply (get_string_addresses_finds_ascii [x00; x00; x00]
           [x48; x45; x4c; x4c; x4f] [xff; x41] 5).
  - by vm_compute.
  - repeat constructor.
  - repeat (apply Forall_cons_2; [left; split; by vm_compute|]).
    apply Forall_nil_2.
  - by vm_compute.
Defined.

(** ** A noise-free image *)

Section NoiseFree.

Lemma py_sum_fmap_le {A} (f g : A → Z) l :
  (∀ x, x ∈ l → f x ≤ g x) → py_sum (f <$> l) ≤ py_sum (g <$> l).
Proof.
  induction l as [|x l IH]; intros H; [done|].
  rewrite !fmap_cons, !py_sum_cons.
  assert (f x ≤ g x) by (apply H; apply list_elem_of_here).
  assert (py_sum (f <$> l) ≤ py_sum (g <$> l)); [|lia].
  apply IH. intros y Hy. apply H. by apply list_elem_of_further.
Qed.

Lemma py_sum_fmap_scale {A} (a : Z) (f : A → Z) l :
  py_sum ((fun x => a * f x) <$> l) = a * py_sum (f <$> l).
Proof.
  induction l as [|x l IH]; [unfold py_sum; simpl; lia|].
  rewrite !fmap_cons, !py_sum_cons, IH. lia.
Qed.

(** Shifting the residues permutes them. *)
Lemma seqZ_shift_perm p d :
  0 < p → (fun i => (i + d) mod p) <$> seqZ 0 p ≡ₚ seqZ 0 p.
Proof.
  intros Hp. apply NoDup_Permutation.
  - apply NoDup_fmap_2_strong; [|apply NoDup_seqZ].
    intros i i' Hi%elem_of_seqZ Hi'%elem_of_seqZ Heq.
    apply mod_eq_iff in Heq; [|done].
    replace (i + d - (i' + d)) with (i - i') in Heq by lia.
    apply Z.mod_divide in Heq as [t Ht]; [|lia].
    destruct (Z.eq_dec t 0) as [->|]; [lia|].
    assert (1 ≤ t ∨ t ≤ -1) as [?|?] by lia; nia.
  - apply NoDup_seqZ.
  - intros x. rewrite list_elem_of_fmap. setoid_rewrite elem_of_seqZ. split.
    + intros (i & -> & _). pose proof (Z.mod_pos_bound (i + d) p Hp). lia.
    + intros Hx. exists ((x - d) mod p). split.
      * rewrite Zplus_mod_idemp_l. replace (x - d + d) with x by lia.
        symmetry. apply Z.mod_small. lia.
      * pose proof (Z.mod_pos_bound (x - d) p Hp). lia.
Qed.

(** The correlation of a sequence with a permuted copy of itself is at
    most its correlation with itself. *)
Lemma py_sum_autocorrelation (c σ : Z → Z) l :
  σ <$> l ≡ₚ l →
  py_sum ((fun i => c i * c (σ i)) <$> l)
  ≤ py_sum ((fun i => c i * c i) <$> l).
Proof.
  intros Hperm.
  assert (py_sum ((fun i => 2 * (c i * c (σ i))) <$> l)
          ≤ py_sum ((fun i => c i * c i + c (σ i) * c (σ i)) <$> l)) as Hle.
  { apply py_sum_fmap_le. intros i _.
    pose proof (Z.square_nonneg (c i - c (σ i))). nia. }
  rewrite py_sum_fmap_scale, py_sum_fmap_add in Hle.
  assert (py_sum ((fun i => c (σ i) * c (σ i)) <$> l)
          = py_sum ((fun i => c i * c i) <$> l)) as Heq.
  { change (fun i => c (σ i) * c (σ i)) with ((fun i => c i * c i) ∘ σ).
    rewrite list_fmap_compose. by apply py_sum_fmap_perm. }
  lia.
Qed.

(** An overlap counts, for each element of the first sample, the elements
    of the second in the residue class it points to. *)
Lemma overlap_as_counts p xs ys j :
  0 < p →
  overlap p xs ys j
  = py_sum ((fun x => count_key (fun y => y mod p) ys ((x - j) mod p)) <$> xs).
Proof.
  intros Hp. unfold overlap. apply py_sum_fmap_ext. intros x _.
  rewrite count_key_sum. apply py_sum_fmap_ext. intros y _.
  unfold hit.
  assert ((x - y - j) mod p = 0 ↔ y mod p = (x - j) mod p mod p) as Hiff.
  { rewrite Z.mod_mod by lia. rewrite mod_eq_iff by done.
    rewrite !Z.mod_divide by lia.
    replace (y - (x - j)) with (- (x - y - j)) by lia.
    by rewrite Z.divide_opp_r. }
  rewrite Z.mod_mod in Hiff by lia.
  repeat case_decide; tauto.
Qed.

(** With the first sample a shifted copy of the second, an overlap is a
    correlation of the histogram with itself. *)
Lemma overlap_shifted p ys D j :
  0 < p →
  overlap p ((fun y => y + D) <$> ys) ys j
  = py_sum ((fun i => count_key (fun y => y mod p) ys i
                      * count_key (fun y => y mod p) ys ((i + (D - j)) mod p))
              <$> seqZ 0 p).
Proof.
  intros Hp. rewrite overlap_as_counts by done.
  rewrite (py_sum_count_key (fun y => y mod p)
             (fun i => count_key (fun y => y mod p) ys ((i + (D - j)) mod p)))
    by (intros x; by apply Z.mod_pos_bound).
  rewrite <- list_fmap_compose. apply py_sum_fmap_ext. intros y _. simpl.
  f_equal. rewrite Zplus_mod_idemp_l. f_equal. lia.
Qed.

Lemma overlap_shifted_peak p ys D j :
  0 < p →
  overlap p ((fun y => y + D) <$> ys) ys j
  ≤ overlap p ((fun y => y + D) <$> ys) ys (D mod p).
Proof.
  intros Hp. rewrite !overlap_shifted by done.
  etrans; [apply py_sum_autocorrelation, seqZ_shift_perm; done|].
  apply Z.eq_le_incl. apply py_sum_fmap_ext. intros i Hi%elem_of_seqZ.
  f_equal. f_equal.
  rewrite (Z.mod_eq D p) by lia.
  replace (i + (D - (D - p * (D / p)))) with (i + (D / p) * p) by lia.
  rewrite Z.mod_add by lia. symmetry. apply Z.mod_small. lia.
Qed.

Lemma elements_shifted (S : gset Z) D :
  elements (set_map (fun s => s + D) S : gset Z)
  ≡ₚ (fun s => s + D) <$> elements S.
Proof.
  apply NoDup_Permutation.
  - apply NoDup_elements.
  - apply NoDup_fmap_2_strong; [|apply NoDup_elements].
    intros x y _ _ H. lia.
  - intros x. rewrite elem_of_elements, elem_of_map, list_elem_of_fmap.
    by setoid_rewrite elem_of_elements.
Qed.

End NoiseFree.

(** X14. On a noise-free image, where the pointer targets are exactly
    the string offsets shifted by [D], the residue [D mod p] attains the
    maximum of the correlation for every modulus [p > 0]; as long as the
    transform is off by less than one half in every entry, the local
    offset recorded scores as much. *)
Theorem noise_free_shift_is_maximal (err : Z → Q) order (S : gset Z)
    (D p : Z) :
  enumerates order → 0 < p →
  (∀ j, 0 ≤ j < p → (- (1 # 2) < err j < 1 # 2)%Q) →
  let A : gset Z := set_map (fun s => s + D) S in
  ∃ o, local_offset_rounded err order A S p = Ret o
       ∧ 0 ≤ o < p
       ∧ overlap p (elements A) (elements S) o
         = overlap p (elements A) (elements S) (D mod p)
       ∧ ∀ j, 0 ≤ j < p →
              overlap p (elements A) (elements S) j
              ≤ overlap p (elements A) (elements S) (D mod p).
Proof.
  intros Horder Hp Herr A.
  destruct (local_offset_rounded_spec err order A S p Hp)
    as (corr & Ho & Hlen & Hcorr).
  pose proof (argmax_Q_spec corr ltac:(lia)) as Hmax. rewrite Hlen in Hmax.
  pose proof (Z.mod_pos_bound D p Hp) as Ht.
  assert (∀ j, overlap p (order A) (order S) j
               = overlap p (elements A) (elements S) j) as Hperm.
  { intros j. by apply overlap_perm. }
  assert (∀ j, overlap p (elements A) (elements S) j
               ≤ overlap p (elements A) (elements S) (D mod p)) as Hpeak.
  { intros j.
    rewrite !(overlap_perm p (elements A) ((fun s => s + D) <$> elements S)
                (elements S) (elements S))
      by (try done; apply elements_shifted).
    by apply overlap_shifted_peak. }
  exists (argmax_Q corr). split; [done|]. split; [by destruct Hmax|].
  split; [|by intros j _].
  pose proof (rounded_maximum err (overlap p (order A) (order S)) corr p
                (argmax_Q corr) Herr Hcorr Hmax (D mod p) Ht) as Hge.
  rewrite !Hperm in Hge.
  pose proof (Hpeak (argmax_Q corr)). lia.
Qed.

Lemma noise_free_shift_is_maximal_witness :
  let err := fun j : Z => if j =? 2 then (1 # 4)%Q else 0%Q in
  let A : gset Z := set_map (fun s => s + 1) ({[10; 50; 90]} : gset Z) in
  ∃ o, local_offset_rounded err elements A {[10; 50; 90]} 3 = Ret o
       ∧ 0 ≤ o < 3
       ∧ overlap 3 (elements A) (elements ({[10; 50; 90]} : gset Z)) o
         = overlap 3 (elements A) (elements ({[10; 50; 90]} : gset Z)) (1 mod 3)
       ∧ ∀ j, 0 ≤ j < 3 →
              overlap 3 (elements A) (elements ({[10; 50; 90]} : gset Z)) j
              ≤ overlap 3 (elements A) (elements ({[10; 50; 90]} : gset Z))
                        (1 mod 3).
Proof.
  apply (noise_free_shift_is_maximal
           (fun j : Z => if j =? 2 then (1 # 4)%Q else 0%Q)
           elements {[10; 50; 90]} 1 3).
  - intros X. reflexivity.
  - lia.
  - intros j _. destruct (j =? 2); split; reflexivity.
Defined.

(** ** How many moduli *)

Section ModulusCount.

Lemma math_prod_lower_bound c l :
  0 ≤ c → Forall (fun x => c ≤ x) l → c ^ len l ≤ math_prod l.
Proof.
  intros Hc. induction 1 as [|x l Hx _ IH]; [done|].
  replace (len (x :: l)) with (Z.succ (len l)) by (unfold len; simpl; lia).
  rewrite Z.pow_succ_r by apply len_nonneg. rewrite math_prod_cons.
  pose proof (Z.pow_nonneg c (len l) Hc). nia.
Qed.

Lemma Forall_removelast {A} (P : A → Prop) l :
  Forall P l → Forall P (removelast l).
Proof.
  induction 1 as [|x l Hx Hl IH]; [done|].
  simpl. destruct l; [done|]. by constructor.
Qed.

Lemma len_removelast {A} (l : list A) : l ≠ [] → len (removelast l) = len l - 1.
Proof.
  unfold len. induction l as [|x l IH]; intros Hl; [done|].
  destruct l as [|y l]; [simpl; lia|].
  specialize (IH ltac:(done)).
  change (removelast (x :: y :: l)) with (x :: removelast (y :: l)).
  simpl length in *. lia.
Qed.

End ModulusCount.

(** X15. The list of [find_coprime_numbers] is short: with [k] moduli,
    [(n + 1)^(k - 1) ≤ m] and [3^(k - 2) ≤ m] (for [n ≥ 0], [m ≥ 1]), which
    bounds the number of rounds of the correlation loop. *)
Theorem find_coprime_numbers_count (fuel : nat) (n m : Z) (l : list Z) :
  0 ≤ n → 1 ≤ m →
  find_coprime_numbers fuel n m = Some l →
  (n + 1) ^ (len l - 1) ≤ m ∧ 3 ^ (len l - 2) ≤ m.
Proof.
  intros Hn Hm Hl.
  destruct (find_coprime_numbers_post n m fuel l Hl)
    as [[rest ->] Hsort Hodd Habove _ _ Hprefix].
  specialize (Hprefix Hm).
  rewrite <- len_removelast by done. split.
  - etrans; [|exact Hprefix].
    apply math_prod_lower_bound; [lia|].
    apply Forall_removelast. eapply Forall_impl; [exact Habove|]. simpl. lia.
  - destruct rest as [|x rest].
    { simpl. unfold len. simpl. by etrans; [|exact Hm]. }
    change (removelast (first_candidate n :: x :: rest))
      with (first_candidate n :: removelast (x :: rest)) in *.
    rewrite math_prod_cons in Hprefix.
    assert (len (first_candidate n :: x :: rest) - 2
            = len (removelast (x :: rest))) as ->.
    { rewrite len_removelast by done. unfold len. simpl. lia. }
    assert (Forall (fun y => 3 ≤ y) (x :: rest)) as H3.
    { apply StronglySorted_inv in Hsort as [_ Hlt].
      apply Forall_cons in Hodd as [_ Hodd].
      pose proof (first_candidate_gt n).
      apply Forall_forall. intros y Hy.
      eapply Forall_forall in Hlt; [|exact Hy].
      eapply Forall_forall in Hodd; [|exact Hy].
      unfold odd in Hodd.
      destruct (Z.eq_dec y 2) as [->|]; [done|]. lia. }
    pose proof (math_prod_lower_bound 3 _ ltac:(lia)
                  (Forall_removelast _ _ H3)) as Hlow.
    pose proof (first_candidate_gt n).
    pose proof (Z.pow_nonneg 3 (len (removelast (x :: rest))) ltac:(lia)).
    nia.
Qed.

Lemma find_coprime_numbers_count_witness :
  (0 + 1) ^ (len [1; 3; 5; 7; 11] - 1) ≤ 2 ^ 8
  ∧ 3 ^ (len [1; 3; 5; 7; 11] - 2) ≤ 2 ^ 8.
Proof.
  apply (find_coprime_numbers_count 10 0 (2 ^ 8) [1; 3; 5; 7; 11]).
  - lia.
  - lia.
  - by vm_compute.
Defined.

(** ** The default slack factor *)

(** X16. With the alignment and the slack factor left to their defaults
    (alignment = pointer width [W]) and a pointer width of at most 16
    bytes, on a blob of fewer than [2^53] bytes: the slack factor is
    [1.0], the lower bound of the moduli is the length of the blob, and
    every modulus exceeds the length of the blob, which is at least [W]
    times the number of pointer targets. *)
Theorem default_slack_pointer_density (b : list byte) (endian : byteorder)
    (W : Z) (fuel : nat) (m : Z) (pointers : gset Z) (modulos : list Z) :
  0 < W ≤ 16 →
  len b < 2 ^ 53 →
  get_pointed_addresses b endian W W = Ret pointers →
  find_coprime_numbers fuel (len b) m = Some modulos →
  default_slack W = Ret (float_lit 1 0)
  ∧ lower_bound (len b) (float_lit 1 0) = Ret (len b)
  ∧ Forall (fun p => W * Z.of_nat (size pointers) ≤ len b < p) modulos.
Proof.
  intros HW HL Hp Hm.
  pose proof (len_nonneg b) as HL0.
  split; [by apply default_slack_one|].
  split; [by apply lower_bound_one|].
  destruct (find_coprime_numbers_post _ _ _ _ Hm) as [_ _ _ Habove _ _ _].
  assert (Z.of_nat (size pointers) ≤ len b / W) as Hcount.
  { unfold get_pointed_addresses, py_range in Hp.
    destruct (Z.eqb_spec W 0); [lia|].
    destruct (Z.ltb_spec 0 W); [|lia]. rewrite bind_ret in Hp.
    injection Hp as <-.
    etrans; [apply inj_le, size_scan|].
    rewrite length_fmap, length_seqZ.
    replace (len b - W + 1 + W - 1) with (len b) by lia.
    pose proof (Z.div_pos (len b) W HL0 ltac:(lia)). lia. }
  pose proof (Z.mul_div_le (len b) W ltac:(lia)) as Hfloor.
  eapply Forall_impl; [exact Habove|]. simpl. intros p Hp0. nia.
Qed.

Lemma default_slack_pointer_density_witness :
  default_slack 4 = Ret (float_lit 1 0)
  ∧ lower_bound (len sample_blob) (float_lit 1 0) = Ret (len sample_blob)
  ∧ Forall (fun p => 4 * Z.of_nat (size (scan sample_blob big 4 [0; 4; 8]))
                     ≤ len sample_blob < p)
           [13; 15; 17].
Proof.
  apply (default_slack_pointer_density sample_blob big 4 3 (2 ^ 8 + 12)
           (scan sample_blob big 4 [0; 4; 8]) [13; 15; 17]).
  - lia.
  - by vm_compute.
  - by vm_compute.
  - by vm_compute.
Defined.

(** ** Failures of the floating-point steps *)

(** X17. A slack factor that is not a number stops the program after the
    two extractions: [nan] with [ValueError]; an infinity with
    [OverflowError], or with [ValueError] on the empty blob, where the
    product [0 * inf] is [nan]. *)
Theorem main_raises_on_slack_not_finite order fuel (args : Args)
    (b : list byte) endian strings pointers :
  parse_endian (arg_e args) = Some endian →
  get_string_addresses b (arg_n args) = Ret strings →
  get_pointed_addresses b endian (arg_l args) (alignment args) = Ret pointers →
  len b < FLOAT_LIMIT →
  (arg_f args = Some S754_nan →
   main order fuel args b = Raised [FoundStrings (size strings)] ValueError)
  ∧ (∀ s, arg_f args = Some (S754_infinity s) →
          main order fuel args b
          = Raised [FoundStrings (size strings)]
                   (if len b =? 0 then ValueError else OverflowError)).
Proof.
  intros He Hs Hp HL. unfold main, slack. rewrite He, Hs, Hp.
  pose proof (len_nonneg b) as HL0.
  assert (len b = 0 ∧ float_of_int (len b) = Ret (S754_zero false)
          ∨ len b ≠ 0
            ∧ ∃ m e, float_of_int (len b) = Ret (S754_finite false m e))
    as Hx.
  { destruct (Z.eq_dec (len b) 0) as [->|Hne]; [by left|]. right.
    split; [done|].
    destruct (float_of_int_defined (len b) Hne ltac:(lia)) as (m & e & Hx).
    destruct (Z.ltb_spec (len b) 0); [lia|]. by exists m, e. }
  split.
  - intros ->. unfold lower_bound.
    by destruct Hx as [[_ ->]|(_ & m & e & ->)].
  - intros s ->. unfold lower_bound.
    destruct Hx as [[-> ->]|(Hne & m & e & ->)]; [done|].
    by destruct (Z.eqb_spec (len b) 0).
Qed.

Lemma main_raises_on_slack_not_finite_witness :
  let args := {| arg_n := 2; arg_l := 1; arg_e := "big"; arg_a := Some 4;
                 arg_f := Some S754_nan |} in
  (arg_f args = Some S754_nan →
   main elements 10 args sample_blob
   = Raised [FoundStrings (size ({[1; 5; 9]} : gset Z))] ValueError)
  ∧ (∀ s, arg_f args = Some (S754_infinity s) →
          main elements 10 args sample_blob
          = Raised [FoundStrings (size ({[1; 5; 9]} : gset Z))]
                   (if len sample_blob =? 0 then ValueError else OverflowError)).
Proof.
  apply (main_raises_on_slack_not_finite elements 10
           {| arg_n := 2; arg_l := 1; arg_e := "big"; arg_a := Some 4;
              arg_f := Some S754_nan |} sample_blob big
           {[1; 5; 9]} {[129; 133; 137]}).
  - reflexivity.
  - by vm_compute.
  - by vm_compute.
  - by vm_compute.
Defined.

(** X18. A negative pointer width whose exponent [l * 8] has no float
    stops the program with [OverflowError] when the power [2**(l*8)] is
    taken, after the two extractions and the lower bound. *)
Theorem main_raises_on_width_without_float order fuel (args : Args)
    (b : list byte) endian f n strings pointers :
  parse_endian (arg_e args) = Some endian →
  slack args = Ret f →
  get_string_addresses b (arg_n args) = Ret strings →
  get_pointed_addresses b endian (arg_l args) (alignment args) = Ret pointers →
  lower_bound (len b) f = Ret n →
  arg_l args * 8 ≤ - FLOAT_LIMIT →
  main order fuel args b = Raised [FoundStrings (size strings)] OverflowError.
Proof.
  intros He Hf Hs Hp Hn Hl. unfold main. rewrite He, Hf, Hs, Hp, Hn.
  unfold upper_bound.
  assert (0 < FLOAT_LIMIT) as Hpos by done.
  destruct (Z.leb_spec 0 (arg_l args)); [lia|].
  by rewrite (float_of_int_overflow (arg_l args * 8)) by lia.
Qed.

Lemma main_raises_on_width_without_float_witness :
  main elements 10
       {| arg_n := 2; arg_l := - 2 ^ 1021; arg_e := "big"; arg_a := None;
          arg_f := Some (float_lit (-1) (-2)) |} sample_blob
  = Raised [FoundStrings (size ({[1; 5; 9]} : gset Z))] OverflowError.
Proof.
  apply (main_raises_on_width_without_float elements 10
           {| arg_n := 2; arg_l := - 2 ^ 1021; arg_e := "big"; arg_a := None;
              arg_f := Some (float_lit (-1) (-2)) |} sample_blob big
           (float_lit (-1) (-2)) (-3) {[1; 5; 9]} ∅).
  - reflexivity.
  - reflexivity.
  - by vm_compute.
  - by vm_compute.
  - by vm_compute.
  - by vm_compute.
Defined.

(** ** Rounding and ties *)

Section Ties.

(** A strict maximum of the counts is found, rounded or not. *)
Lemma local_offset_strict err order A B p t :
  enumerates order → 0 < p →
  (∀ j, 0 ≤ j < p → (- (1 # 2) < err j < 1 # 2)%Q) →
  0 ≤ t < p →
  (∀ j, 0 ≤ j < p → j ≠ t →
        overlap p (elements A) (elements B) j
        < overlap p (elements A) (elements B) t) →
  local_offset_rounded err order A B p = Ret t
  ∧ local_offset order A B p = Ret t.
Proof.
  intros Horder Hp Herr Ht Hstrict.
  assert (∀ j, overlap p (order A) (order B) j
               = overlap p (elements A) (elements B) j) as Hperm.
  { intros j. by apply overlap_perm. }
  split.
  - destruct (local_offset_rounded_spec err order A B p Hp)
      as (corr & -> & Hlen & Hcorr).
    pose proof (argmax_Q_spec corr ltac:(lia)) as Hmax. rewrite Hlen in Hmax.
    f_equal. destruct (Z.eq_dec (argmax_Q corr) t) as [|Hne]; [done|].
    pose proof (rounded_maximum err (overlap p (order A) (order B)) corr p
                  (argmax_Q corr) Herr Hcorr Hmax t Ht) as Hge.
    destruct Hmax as [Ho _].
    specialize (Hstrict _ Ho Hne). rewrite !Hperm in Hge. lia.
  - destruct (local_offset_spec order A B p Hp) as (exact & -> & Hlen & Hexact).
    f_equal. apply argmax_unique; [by rewrite Hlen|].
    rewrite Hlen. intros j Hj Hne.
    rewrite !Hexact, !Hperm by done. by apply Hstrict.
Qed.

Lemma strict_maximum_check p xs ys t :
  forallb (fun j => (j =? t) || (overlap p xs ys j <? overlap p xs ys t))
          (seqZ 0 p) = true →
  ∀ j, 0 ≤ j < p → j ≠ t → overlap p xs ys j < overlap p xs ys t.
Proof.
  intros Hall j Hj Hne.
  rewrite forallb_forall in Hall.
  specialize (Hall j). rewrite <- list_elem_of_In, elem_of_seqZ in Hall.
  specialize (Hall ltac:(lia)).
  apply orb_true_iff in Hall as [Heq%Z.eqb_eq|Hlt%Z.ltb_lt]; [done|done].
Qed.

End Ties.

(** X19. Rounding breaks ties and nothing else: when on every modulus one
    residue strictly maximises the number of pairs, and every transform
    is off by less than one half in every entry, [find_max_overlap] run in
    floating point gives what it gives in exact arithmetic. *)
Theorem rounding_breaks_only_ties (err : Z → Z → Q) order (A B : gset Z)
    (modulos : list Z) :
  enumerates order →
  Forall (fun p => 0 < p) modulos →
  (∀ p j, p ∈ modulos → 0 ≤ j < p → (- (1 # 2) < err p j < 1 # 2)%Q) →
  Forall (fun p => ∃ t, 0 ≤ t < p
                        ∧ ∀ j, 0 ≤ j < p → j ≠ t →
                               overlap p (elements A) (elements B) j
                               < overlap p (elements A) (elements B) t)
         modulos →
  find_max_overlap_rounded err order A B modulos
  = find_max_overlap order A B modulos.
Proof.
  intros Horder Hpos Herr Hstrict.
  unfold find_max_overlap_rounded, find_max_overlap.
  assert (local_offsets_rounded err order A B modulos
          = local_offsets order A B modulos) as ->; [|done].
  unfold local_offsets_rounded, local_offsets.
  induction modulos as [|p l IH]; [done|].
  apply Forall_cons in Hpos as [Hp Hpos].
  apply Forall_cons in Hstrict as [(t & Ht & Hmax) Hstrict].
  rewrite !mapM_res_cons.
  destruct (local_offset_strict (err p) order A B p t Horder Hp) as [-> ->];
    try done.
  { intros j Hj. apply Herr; [apply list_elem_of_here|done]. }
  rewrite !bind_ret. rewrite IH; try done.
  intros q j Hq. apply Herr. by apply list_elem_of_further.
Qed.

Lemma rounding_breaks_only_ties_witness :
  find_max_overlap_rounded
    (fun p j : Z => if j =? 3 then (1 # 4)%Q else 0%Q)
    elements {[129; 133; 137]} {[1; 5; 9]} [13; 15; 17]
  = find_max_overlap elements {[129; 133; 137]} {[1; 5; 9]} [13; 15; 17].
Proof.
  apply (rounding_breaks_only_ties
           (fun p j : Z => if j =? 3 then (1 # 4)%Q else 0%Q)
           elements {[129; 133; 137]} {[1; 5; 9]} [13; 15; 17]).
  - intros X. reflexivity.
  - repeat constructor.
  - intros p j _ _. destruct (j =? 3); split; reflexivity.
  - repeat constructor.
    + exists (128 mod 13). split; [by vm_compute|].
      apply strict_maximum_check. by vm_compute.
    + exists (128 mod 15). split; [by vm_compute|].
      apply strict_maximum_check. by vm_compute.
    + exists (128 mod 17). split; [by vm_compute|].
      apply strict_maximum_check. by vm_compute.
Defined.
